(** * Channel Logo Auto-Grab & Auto-Assign: the logo resolution engine

    A shallow embedding of [plugin.py] and the properties of its
    normalizer, placeholder detector, index builder, resolver and pass
    coordinator.

    Conventions of the embedding.
    - A Python [str] is a [string]; each character stands for the code
      point of the same number (U+0000 .. U+00FF).  On that range
      [str.lower], [str.strip], the regex class [\s] and
      [re.IGNORECASE] behave exactly as defined below.
    - A [dict] is a [gmap]; JSON documents are values of [json].
    - Exceptions are the [Raise] results of [result]; functions that touch
      the file system, the network or the host read and update a [world],
      whose [trace] records every effect.
    - Time stamps ([time.time()], [os.path.getmtime]) are rationals; the
      clock stands still during a call.
    - The host is met through its answers: which models were discovered,
      what the entity query yields and how its iteration ends, what
      [_extract_channel_fields] reports of an entity, whether an
      assignment succeeds. *)

From Stdlib Require Import Ascii String QArith.
From stdpp Require Import base option list gmap strings.

#[local] Arguments String.append !s1 s2 : simpl nomatch.

(** ** Python string primitives *)

Module Py.

Definition code (c : ascii) : N := N_of_ascii c.

(** [str.isspace] on one character, which is also the regex class [\s]:
    U+0009 to U+000D, U+001C to U+0020, U+0085 and U+00A0. *)
Definition isspace (c : ascii) : bool :=
  let n := code c in
  ((9 <=? n) && (n <=? 13) || (28 <=? n) && (n <=? 32)
   || (n =? 133) || (n =? 160))%N.

(** [str.lower] on one character: the capital letters A to Z and U+00C0
    to U+00DE, the sign U+00D7 apart, move up by 32. *)
Definition lower_char (c : ascii) : ascii :=
  let n := code c in
  if ((65 <=? n) && (n <=? 90)
      || (192 <=? n) && (n <=? 222) && negb (n =? 215))%N
  then ascii_of_N (n + 32) else c.

Fixpoint lower (s : string) : string :=
  match s with
  | EmptyString => EmptyString
  | String c r => String (lower_char c) (lower r)
  end.

Fixpoint lstrip (s : string) : string :=
  match s with
  | EmptyString => EmptyString
  | String c r => if isspace c then lstrip r else s
  end.

Fixpoint rstrip (s : string) : string :=
  match s with
  | EmptyString => EmptyString
  | String c r =>
      match rstrip r with
      | EmptyString => if isspace c then EmptyString else String c EmptyString
      | r' => String c r'
      end
  end.

(** [s.strip()] *)
Definition strip (s : string) : string := rstrip (lstrip s).

(** [re.sub(r"\s+", " ", s)]: every maximal run of white space becomes
    one space; [in_run] tells that the previous character was white. *)
Fixpoint sub_ws_from (in_run : bool) (s : string) : string :=
  match s with
  | EmptyString => EmptyString
  | String c r =>
      if isspace c
      then (if in_run then sub_ws_from true r
            else String " " (sub_ws_from true r))
      else String c (sub_ws_from false r)
  end.

Definition sub_ws (s : string) : string := sub_ws_from false s.

(** [s.replace(old, new)] for a one-character [old]. *)
Fixpoint replace (old : ascii) (new : string) (s : string) : string :=
  match s with
  | EmptyString => EmptyString
  | String c r =>
      if Ascii.eqb c old then new +:+ replace old new r
      else String c (replace old new r)
  end.

(** [re.sub(r"[^...]", "", s)]: keep the characters of the class. *)
Fixpoint keep (cls : ascii -> bool) (s : string) : string :=
  match s with
  | EmptyString => EmptyString
  | String c r => if cls c then String c (keep cls r) else keep cls r
  end.

Fixpoint all (P : ascii -> bool) (s : string) : bool :=
  match s with
  | EmptyString => true
  | String c r => P c && all P r
  end.

(** [s.endswith(p)] *)
Fixpoint endswith (s p : string) : bool :=
  String.eqb s p ||
  match s with
  | EmptyString => false
  | String _ r => endswith r p
  end.

(** [s.rsplit(sep, 1)[-1]]: what follows the last [sep], or all of [s]. *)
Fixpoint rsplit_last (sep : ascii) (s : string) : string :=
  match s with
  | EmptyString => EmptyString
  | String c r =>
      if existsb (Ascii.eqb sep) (list_ascii_of_string r) then rsplit_last sep r
      else if Ascii.eqb c sep then r else s
  end.

(** [s.rsplit(sep, 1)[0]]: what precedes the last [sep], or all of [s]. *)
Fixpoint rsplit_head (sep : ascii) (s : string) : string :=
  match s with
  | EmptyString => EmptyString
  | String c r =>
      if existsb (Ascii.eqb sep) (list_ascii_of_string r)
      then String c (rsplit_head sep r)
      else if Ascii.eqb c sep then EmptyString else s
  end.

End Py.

(** ** The normalizer *)

(** The class [[a-z0-9. +_-]]. *)
Definition key_char (c : ascii) : bool :=
  let n := Py.code c in
  ((97 <=? n) && (n <=? 122) || (48 <=? n) && (n <=? 57)
   || (n =? 46) || (n =? 32) || (n =? 43) || (n =? 95) || (n =? 45))%N.

Definition normalize_key (s : string) : string :=
  let s := Py.lower (Py.strip s) in
  let s := Py.sub_ws s in
  let s := Py.replace "&" "and" s in
  let s := Py.replace "\" " "
             (Py.replace "/" " " (Py.replace "|" "" (Py.replace ":" "" s))) in
  let s := Py.keep key_char s in
  Py.strip (Py.sub_ws s).

(** ** Truthiness, JSON values, exceptions *)

(** Python's [bool(x)], as used by [if x:], [not x] and [x or y]. *)
Class Truthy (A : Type) := truthy : A -> bool.

#[export] Instance string_truthy : Truthy string :=
  fun s => negb (String.eqb s "").

(** [None] is false; any other value answers for itself. *)
#[export] Instance option_truthy {A} `{Truthy A} : Truthy (option A) :=
  fun o => match o with Some a => truthy a | None => false end.

(** What [json.load] returns; [JObj] is a [dict] with [str] keys, [JNum] a
    number, of which the code only asks whether it is zero. *)
#[warnings="-register-all"] Inductive json :=
| JNull
| JBool (b : bool)
| JNum (n : Q)
| JStr (s : string)
| JArr (l : list json)
| JObj (m : gmap string json).

#[export] Instance json_truthy : Truthy json :=
  fun v =>
    match v with
    | JNull => false
    | JBool b => b
    | JNum n => negb (Qeq_bool n 0)
    | JStr s => truthy s
    | JArr l => match l with [] => false | _ => true end
    | JObj m => negb (bool_decide (m = ∅))
    end.

Inductive exn :=
| AttributeError
| TypeError
| JSONDecodeError
| OSError
| URLError
| HTTPError (code : Z).

Inductive result (A : Type) :=
| Ok (a : A)
| Raise (e : exn).
Arguments Ok {A} a.
Arguments Raise {A} e.

Definition returns {A} (r : result A) : Prop :=
  match r with
  | Ok _ => True
  | Raise _ => False
  end.

(** [len(v)]: only containers and strings have a length. *)
Definition has_len (v : json) : bool :=
  match v with
  | JStr _ | JArr _ | JObj _ => true
  | _ => false
  end.

(** [v.get(k)] and [v.get(k, d)]: a [dict] method, missing elsewhere. *)
Definition dict_get (v : json) (k : string) : result (option json) :=
  match v with
  | JObj m => Ok (m !! k)
  | _ => Raise AttributeError
  end.

(** [v == s] and [v != s] against a string [s]. *)
Definition eq_str (v : option json) (s : string) : bool :=
  match v with
  | Some (JStr t) => String.eqb t s
  | _ => false
  end.

(** [v or d] *)
Definition or_else (v : option json) (d : json) : json :=
  match v with
  | Some x => if truthy x then x else d
  | None => d
  end.

(** [for x in v]: the elements of a list, the characters of a string, the
    keys of a dict; other values are not iterable. *)
Definition iterate (v : json) : result (list json) :=
  match v with
  | JArr l => Ok l
  | JStr s => Ok ((fun c => JStr (String c "")) <$> list_ascii_of_string s)
  | JObj m => Ok ((fun kv => JStr kv.1) <$> map_to_list m)
  | _ => Raise TypeError
  end.

(** A [dict] of strings as a value. *)
Definition of_index (index : gmap string string) : json := JObj (JStr <$> index).

(** ** Regular expressions of the module [re], as far as the plugin uses
    them: literals, anchors, sequence, alternative, option. *)

Module Re.

Inductive regex :=
| Eps
| Chr (c : ascii)
| Bol
| Eol
| Cat (r1 r2 : regex)
| Alt (r1 r2 : regex)
| Opt (r : regex).

Fixpoint word (s : string) : regex :=
  match s with
  | EmptyString => Eps
  | String c r => Cat (Chr c) (word r)
  end.

Fixpoint alts (rs : list regex) (last : regex) : regex :=
  match rs with
  | [] => last
  | r :: rs => Alt r (alts rs last)
  end.

Definition newline : ascii := "010"%char.

(** [$] holds at the end and just before a final newline. *)
Definition at_eol (s : string) : bool :=
  String.eqb s "" || String.eqb s (String newline "").

(** Backtracking match of [r] at the head of [s] under [re.IGNORECASE]:
    alternatives are tried from the left, an option first with its body.
    [bol] tells that no character has been passed yet; [k] is what must
    still match after [r] and yields the result of the whole match. *)
Fixpoint matches {A} (r : regex) (bol : bool) (s : string)
    (k : bool -> string -> option A) : option A :=
  match r with
  | Eps => k bol s
  | Chr c =>
      match s with
      | EmptyString => None
      | String x s' =>
          if Ascii.eqb (Py.lower_char x) (Py.lower_char c) then k false s'
          else None
      end
  | Bol => if bol then k bol s else None
  | Eol => if at_eol s then k bol s else None
  | Cat r1 r2 => matches r1 bol s (fun b s' => matches r2 b s' k)
  | Alt r1 r2 =>
      match matches r1 bol s k with
      | Some a => Some a
      | None => matches r2 bol s k
      end
  | Opt r1 =>
      match matches r1 bol s k with
      | Some a => Some a
      | None => k bol s
      end
  end.

(** The pattern has no anchor. *)
Fixpoint anchor_free (r : regex) : bool :=
  match r with
  | Eps | Chr _ => true
  | Bol | Eol => false
  | Cat r1 r2 | Alt r1 r2 => anchor_free r1 && anchor_free r2
  | Opt r1 => anchor_free r1
  end.

(** The strings, in lower case, that a pattern without anchors matches
    under [re.IGNORECASE]. *)
Fixpoint lang (r : regex) : list string :=
  match r with
  | Eps | Bol | Eol => [EmptyString]
  | Chr c => [String (Py.lower_char c) EmptyString]
  | Cat r1 r2 => flat_map (fun a => map (String.append a) (lang r2)) (lang r1)
  | Alt r1 r2 => lang r1 ++ lang r2
  | Opt r1 => lang r1 ++ [EmptyString]
  end.

(** [r.match] at the current position: what is left after the match. *)
Definition match_here (r : regex) (bol : bool) (s : string) : option string :=
  matches r bol s (fun _ rest => Some rest).

Fixpoint search_from (r : regex) (bol : bool) (s : string) : bool :=
  match match_here r bol s with
  | Some _ => true
  | None =>
      match s with
      | EmptyString => false
      | String _ s' => search_from r false s'
      end
  end.

(** [re.search(r, s, re.IGNORECASE)] as a truth value. *)
Definition search (r : regex) (s : string) : bool := search_from r true s.

(** [re.sub(r, "", s, flags=re.IGNORECASE)] for an [r] that starts with a
    literal and ends in [$]: the leftmost match is removed, and what
    follows it (nothing, or the final newline) cannot match again. *)
Fixpoint sub_from (r : regex) (bol : bool) (s : string) : string :=
  match match_here r bol s with
  | Some rest => rest
  | None =>
      match s with
      | EmptyString => EmptyString
      | String c s' => String c (sub_from r false s')
      end
  end.

Definition sub (r : regex) (s : string) : string := sub_from r true s.

End Re.

(** ** The placeholder detector *)

Definition image_ext : Re.regex :=
  Re.alts [Re.word "png"; Re.word "jpg"; Re.word "jpeg"; Re.word "webp"]
          (Re.word "svg").

Definition sep_or_start : Re.regex := Re.Alt Re.Bol (Re.Chr "/").

(** [(^|/)(logo)(\.(png|jpg|jpeg|webp|svg))?$] and its two siblings: an
    anchor, a body without anchors, the end. *)
Definition anchored (body : Re.regex) : Re.regex :=
  Re.Cat sep_or_start (Re.Cat body Re.Eol).

Definition logo_body : Re.regex :=
  Re.Cat (Re.word "logo") (Re.Opt (Re.Cat (Re.Chr ".") image_ext)).
Definition default_body : Re.regex :=
  Re.Cat (Re.word "default") (Re.Opt (Re.Cat (Re.Chr ".") image_ext)).
Definition download_body : Re.regex :=
  Re.Cat (Re.word "download") (Re.Cat (Re.Chr ".") (Re.word "jpg")).

Definition PLACEHOLDER_PATTERNS : list Re.regex :=
  [anchored logo_body; anchored default_body; anchored download_body].

(** [str(v)] of a value that is [None] or a string. *)
Definition py_str (v : option string) : string :=
  match v with Some s => s | None => "None" end.

Definition is_placeholder (value : option string) : bool :=
  if negb (truthy value) then true
  else
    let val := Py.strip (py_str value) in
    existsb (fun pat => Re.search pat val) PLACEHOLDER_PATTERNS.

(** ** The resolver *)

Fixpoint pick_logo_path (index : json) (candidates : list string)
    : result (option json) :=
  match candidates with
  | [] => Ok None
  | c :: candidates =>
      let norm := normalize_key c in
      match dict_get index norm with
      | Raise e => Raise e
      | Ok path =>
          if truthy path then Ok path else pick_logo_path index candidates
      end
  end.

(** ** The index builder: from a listing to a mapping *)

Definition exts : list string := [".png"; ".webp"; ".jpg"; ".jpeg"; ".svg"].

(** [path.lower().endswith(exts)]: the path ends in one of the image
    extensions, in any case of letters. *)
Definition image_path (path : string) : bool :=
  existsb (Py.endswith (Py.lower path)) exts.

(** [r"\.(png|webp|jpg|jpeg|svg)$"]: a body without anchors, the end. *)
Definition ext_body : Re.regex :=
  Re.Cat (Re.Chr ".")
    (Re.alts [Re.word "png"; Re.word "webp"; Re.word "jpg"; Re.word "jpeg"]
             (Re.word "svg")).

Definition EXT_RE : Re.regex := Re.Cat ext_body Re.Eol.

(** The key a remote path is filed under, lines 113 to 115. *)
Definition key_of_path (path : string) : string :=
  let base := Py.rsplit_last "/" path in
  let key := Re.sub EXT_RE base in
  normalize_key key.

(** [index.setdefault(k, v)] *)
Definition setdefault (k v : string) (index : gmap string string)
    : gmap string string :=
  match index !! k with
  | Some _ => index
  | None => <[k := v]> index
  end.

(** One turn of the loop over the nodes of the tree, lines 108 to 116. *)
Definition index_node (index : gmap string string) (node : json)
    : result (gmap string string) :=
  match dict_get node "type" with
  | Raise e => Raise e
  | Ok ty =>
      if negb (eq_str ty "blob") then Ok index
      else
        match dict_get node "path" with
        | Raise e => Raise e
        | Ok p =>
            match or_else p (JStr "") with
            | JStr path =>
                if negb (image_path path) then Ok index
                else Ok (setdefault (key_of_path path) path index)
            | _ => Raise AttributeError
            end
        end
  end.

Fixpoint index_nodes (index : gmap string string) (blobs : list json)
    : result (gmap string string) :=
  match blobs with
  | [] => Ok index
  | node :: blobs =>
      match index_node index node with
      | Raise e => Raise e
      | Ok index => index_nodes index blobs
      end
  end.

(** From the decoded listing to the index, lines 104 to 116. *)
Definition index_of_tree (tree : json) : result (gmap string string) :=
  match dict_get tree "tree" with
  | Raise e => Raise e
  | Ok blobs =>
      match iterate (default (JArr []) blobs) with
      | Raise e => Raise e
      | Ok nodes => index_nodes ∅ nodes
      end
  end.

(** ** The world of a pass: files, clock, network and host *)

Record file := File { mtime : Q; content : option json }.

(** An entity of the host as [_extract_channel_fields] reports it: each
    attribute is [None] or a string, of which [str] is the string
    itself. *)
Record channel := Channel {
  tvg_id : option string;
  name : option string;
  logo_val : option string
}.

(** What the loop of line 353 meets in the answer of the entity query:
    the entities that the iteration yields and whose fields line 354
    extracts, in order, and how the loop is ended after them: by the end
    of the iteration, or by an exception that the iteration (line 353) or
    the extraction of the next entity (line 354) raises. No handler
    surrounds these two lines. *)
Record queryset := QuerySet {
  entities : list channel;
  ends : option exn
}.

Inductive event :=
| LockWritten
| DirMade (dir : string)
| ListingFetched
| CacheWritten (cache_path : string)
| RawFetched (path : string)
| LogoWritten (local_path : string)
| Assigned (ch : channel) (local_path local_name : string).

Record world := World {
  now : Q;                                  (* time.time() *)
  lock : option Q;                          (* mtime of the lock marker *)
  lock_writable : bool;
  files : gmap string file;                 (* files, by path, as json.load reads them *)
  writable : string -> bool;                (* open(path, "w") succeeds *)
  mkdir_ok : string -> bool;                (* os.makedirs(dir) succeeds *)
  listing : result json;                    (* _http_get(GITHUB_TREE_URL, as_json=True) *)
  raw : string -> result string;            (* _http_get(GITHUB_RAW_BASE + quote(path)) *)
  json_loads : string -> option json;       (* json.load of a file of these bytes, None if it raises *)
  DEFAULT_LOGOS_DIR : string;
  environ_logo_dir : option string;         (* os.environ.get("DISPATCHARR_LOGO_DIR") *)
  channel_model : bool;                     (* a Channel model was discovered *)
  logo_model : bool;                        (* a Logo model was discovered *)
  query : result queryset;                  (* Channel.objects.all() *)
  assign_ok : channel -> string -> string -> bool;  (* outcome of _assign_logo *)
  trace : list event                        (* effects so far, oldest first *)
}.

Definition emit (e : event) (w : world) : world :=
  World (now w) (lock w) (lock_writable w) (files w) (writable w) (mkdir_ok w)
        (listing w) (raw w) (json_loads w) (DEFAULT_LOGOS_DIR w) (environ_logo_dir w)
        (channel_model w) (logo_model w) (query w) (assign_ok w)
        (trace w ++ [e]).

Definition set_lock (t : Q) (w : world) : world :=
  World (now w) (Some t) (lock_writable w) (files w) (writable w) (mkdir_ok w)
        (listing w) (raw w) (json_loads w) (DEFAULT_LOGOS_DIR w) (environ_logo_dir w)
        (channel_model w) (logo_model w) (query w) (assign_ok w) (trace w).

Definition set_file (p : string) (f : file) (w : world) : world :=
  World (now w) (lock w) (lock_writable w) (<[p := f]> (files w)) (writable w)
        (mkdir_ok w) (listing w) (raw w) (json_loads w) (DEFAULT_LOGOS_DIR w)
        (environ_logo_dir w) (channel_model w) (logo_model w) (query w)
        (assign_ok w) (trace w).

(** A computation that may raise and may change the world. *)
Definition M (A : Type) : Type := world -> result A * world.

Definition ret {A} (a : A) : M A := fun w => (Ok a, w).
Definition raise {A} (e : exn) : M A := fun w => (Raise e, w).
Definition bind {A B} (m : M A) (k : A -> M B) : M B :=
  fun w =>
    match m w with
    | (Ok a, w') => k a w'
    | (Raise e, w') => (Raise e, w')
    end.
(** [try: m except Exception: h] *)
Definition try_except {A} (m : M A) (h : exn -> M A) : M A :=
  fun w =>
    match m w with
    | (Ok a, w') => (Ok a, w')
    | (Raise e, w') => h e w'
    end.
Definition lift {A} (r : result A) : M A := fun w => (r, w).

Notation "'let*' x := m 'in' k" := (bind m (fun x => k))
  (at level 10, x pattern, m at level 100, k at level 200).

Definition Qltb (a b : Q) : bool := negb (Qle_bool b a).

(** [os.path.join(a, b)] for a relative [b]. *)
Definition path_join (a b : string) : string :=
  if String.eqb a "" then b
  else if Py.endswith a "/" then a +:+ b
  else a +:+ "/" +:+ b.

(** ** The index builder *)

Definition INDEX_BASENAME : string := ".tvlogos_index.json".
Definition INDEX_TTL_SECS : Q := 6 * 60 * 60.

(** [with open(cache_path) as f: idx = json.load(f)], then [len(idx)] for
    the log line, then [idx]. *)
Definition load_cache (cache_path : string) : M json :=
  fun w =>
    match files w !! cache_path with
    | None => (Raise OSError, w)
    | Some f =>
        match content f with
        | None => (Raise JSONDecodeError, w)
        | Some idx => if has_len idx then (Ok idx, w) else (Raise TypeError, w)
        end
    end.

(** [with open(cache_path, "w") as f: json.dump(index, f)] *)
Definition write_cache (cache_path : string) (index : gmap string string) : M unit :=
  fun w =>
    if writable w cache_path
    then (Ok tt, emit (CacheWritten cache_path)
                   (set_file cache_path (File (now w) (Some (of_index index))) w))
    else (Raise OSError, w).

(** [_http_get(GITHUB_TREE_URL, as_json=True)] *)
Definition _http_get_tree : M json :=
  fun w => (listing w, emit ListingFetched w).

(** Lines 66 to 75: a cache younger than the TTL is returned; [None] stands
    for falling through to the fetch. *)
Definition fresh_cache (cache_path : string) : M (option json) :=
  try_except
    (fun w =>
       match files w !! cache_path with
       | Some f =>
           if Qltb (now w - mtime f) INDEX_TTL_SECS
           then (let* idx := load_cache cache_path in ret (Some idx)) w
           else (Ok None, w)
       | None => (Ok None, w)
       end)
    (fun _ => ret None).

(** Lines 83 to 91 and 94 to 102: any cache, however old, else nothing. *)
Definition stale_cache (cache_path : string) : M json :=
  fun w =>
    match files w !! cache_path with
    | Some _ => try_except (load_cache cache_path) (fun _ => ret (JObj ∅)) w
    | None => (Ok (JObj ∅), w)
    end.

(** In both handlers of the fetch, lines 79 to 102, the same is done. *)
Definition build_index (logos_dir : string) : M json :=
  let cache_path := path_join logos_dir INDEX_BASENAME in
  let* cached := fresh_cache cache_path in
  match cached with
  | Some idx => ret idx
  | None =>
      fun w =>
        match _http_get_tree w with
        | (Raise (HTTPError _), w) => stale_cache cache_path w
        | (Raise _, w) => stale_cache cache_path w
        | (Ok tree, w) =>
            (let* index := lift (index_of_tree tree) in
             let* _ := try_except (write_cache cache_path index)
                         (fun _ => ret tt) in
             ret (of_index index)) w
        end
  end.

(** ** The downloader *)

(** [os.makedirs(p, exist_ok=True)] *)
Definition ensure_dir (p : string) : M unit :=
  fun w => if mkdir_ok w p then (Ok tt, emit (DirMade p) w) else (Raise OSError, w).

(** [_http_get(GITHUB_RAW_BASE + urlquote(path))]; [urlquote] accepts
    strings only. *)
Definition _http_get_raw (path : json) : M string :=
  match path with
  | JStr p => fun w => (raw w p, emit (RawFetched p) w)
  | _ => raise TypeError
  end.

(** [with open(local_path, "wb") as f: f.write(data)]: the file at
    [local_path], whatever it was, now holds the bytes [data]. *)
Definition write_logo (local_path data : string) : M unit :=
  fun w =>
    if writable w local_path
    then (Ok tt, emit (LogoWritten local_path)
                   (set_file local_path (File (now w) (json_loads w data)) w))
    else (Raise OSError, w).

(** [path] is what the index holds under the key, a string or not. *)
Definition download_logo (path : json) (logos_dir : string) : M (string * string) :=
  let* _ := ensure_dir logos_dir in
  let* data := _http_get_raw path in
  match path with
  | JStr path =>
      let ext := "." +:+ Py.lower (Py.rsplit_last "." path) in
      let basename := Py.rsplit_head "." (Py.rsplit_last "/" path) in
      let local_name := basename +:+ ext in
      let local_path := path_join logos_dir local_name in
      let* _ := write_logo local_path data in
      ret (local_path, local_name)
  | _ => raise TypeError
  end.

(** ** The host: assignment and the run lock *)

(** [_assign_logo] answers [True] or [False] and never raises; what it
    does to the records of the host is up to the host. *)
Definition _assign_logo (ch : channel) (logo_path logo_name : string) : M bool :=
  fun w => (Ok (assign_ok w ch logo_path logo_name),
            emit (Assigned ch logo_path logo_name) w).

(** A lock marker is there and younger than 60 seconds. *)
Definition lock_fresh (w : world) : bool :=
  match lock w with
  | Some t => Qltb (now w - t) 60
  | None => false
  end.

Definition _acquire_lock : M bool :=
  fun w =>
    if lock_fresh w then (Ok false, w)
    else if lock_writable w
         then (Ok true, emit LockWritten (set_lock (now w) w))
         else (Ok true, w).

(** ** The pass coordinator *)

Record counters := Counters {
  downloaded : nat;
  updated : nat;
  skipped : nat;
  miss : nat
}.

Record summary := Summary {
  ok : bool;
  reason : option string;
  counts : counters;
  logos_dir : string
}.

Definition zero : counters := Counters 0 0 0 0.
Definition incr_downloaded (c : counters) : counters :=
  Counters (S (downloaded c)) (updated c) (skipped c) (miss c).
Definition incr_updated (c : counters) : counters :=
  Counters (downloaded c) (S (updated c)) (skipped c) (miss c).
Definition incr_skipped (c : counters) : counters :=
  Counters (downloaded c) (updated c) (S (skipped c)) (miss c).
Definition incr_miss (c : counters) : counters :=
  Counters (downloaded c) (updated c) (skipped c) (S (miss c)).

(** The candidates of an entity: identifier first, then display name. *)
Definition candidates_of (ch : channel) : list string :=
  (if truthy (tvg_id ch) then [py_str (tvg_id ch)] else []) ++
  (if truthy (name ch) then [py_str (name ch)] else []).

(** [logo_val and not is_placeholder(str(logo_val))] *)
Definition keeps_logo (ch : channel) : bool :=
  truthy (logo_val ch) && negb (is_placeholder (Some (py_str (logo_val ch)))).

(** A turn of the loop for an entity whose fields line 354 has extracted,
    lines 356 to 392. *)
Definition scan_channel (index : json) (dir : string) (c : counters)
    (ch : channel) : M counters :=
  if keeps_logo ch
  then ret (incr_skipped c)
  else
    let candidates := candidates_of ch in
    let* path := lift (pick_logo_path index candidates) in
    match path with
    | None => ret (incr_miss c)
    | Some path =>
        if negb (truthy path) then ret (incr_miss c)
        else
          let* got := try_except
                        (let* r := download_logo path dir in ret (Some r))
                        (fun e =>
                           match e with
                           | HTTPError _ => ret None
                           | _ => ret None
                           end) in
          match got with
          | None => ret (incr_miss c)
          | Some (local_path, local_name) =>
              let c := incr_downloaded c in
              let* ok := _assign_logo ch local_path local_name in
              if ok then ret (incr_updated c) else ret c
          end
    end.

Fixpoint scan (index : json) (dir : string) (c : counters)
    (qs : list channel) : M counters :=
  match qs with
  | [] => ret c
  | ch :: qs =>
      let* c := scan_channel index dir c ch in
      scan index dir c qs
  end.

(** [os.environ.get("DISPATCHARR_LOGO_DIR", DEFAULT_LOGOS_DIR)] *)
Definition logos_dir_of (w : world) : string :=
  default (DEFAULT_LOGOS_DIR w) (environ_logo_dir w).

Definition environ_get_logo_dir : M string :=
  fun w => (Ok (logos_dir_of w), w).

(** [_get_channel_and_logo_models()]: whether a Channel model and a Logo
    model were discovered in the host. *)
Definition _get_channel_and_logo_models : M (bool * bool) :=
  fun w => (Ok (channel_model w, logo_model w), w).

(** [Channel.objects.all()], line 337 *)
Definition objects_all : M queryset := fun w => (query w, w).

(** The end of [for ch in qs], lines 353 and 354: the exception that ends
    the loop leaves the pass. *)
Definition end_of (qs : queryset) : M unit :=
  match ends qs with
  | Some e => raise e
  | None => ret tt
  end.

(** The summary of a pass that found the lock taken, line 316. *)
Definition locked : M summary :=
  fun w => (Ok (Summary true (Some "locked") zero (DEFAULT_LOGOS_DIR w)), w).

(** The fields that [_infer_logo_fields] finds are handed to
    [_assign_logo] only, whose outcome is the host's. *)
Definition _do_pass : M summary :=
  let* acquired := _acquire_lock in
  if negb acquired then locked
  else
    let* dir := environ_get_logo_dir in
    let* _ := ensure_dir dir in
    let* models := _get_channel_and_logo_models in
    if negb (fst models) || negb (snd models)
    then ret (Summary false (Some "models-not-found") zero dir)
    else
      let* index := build_index dir in
      let* qs := try_except (let* qs := objects_all in ret (Some qs))
                   (fun _ => ret None) in
      match qs with
      | None => ret (Summary false (Some "query-error") zero dir)
      | Some qs =>
          let* c := scan index dir zero (entities qs) in
          let* _ := end_of qs in
          ret (Summary true None c dir)
      end.

(** ** Auxiliary predicates of the proofs *)

(** Every white character of [s] is a space that follows no other white
    character; [in_run] tells that one precedes [s]. *)
Fixpoint tidy (in_run : bool) (s : string) : bool :=
  match s with
  | EmptyString => true
  | String c r =>
      if Py.isspace c
      then Ascii.eqb c " " && negb in_run && tidy true r
      else tidy false r
  end.

(** [s] does not start with white space. *)
Definition head_clean (s : string) : bool :=
  match s with
  | EmptyString => true
  | String c _ => negb (Py.isspace c)
  end.

(** [s] does not end with white space. *)
Fixpoint tail_clean (s : string) : bool :=
  match s with
  | EmptyString => true
  | String c EmptyString => negb (Py.isspace c)
  | String _ r => tail_clean r
  end.

(** What follows the anchor of a pattern: a word of the body, then the end
    of [s]. *)
Definition to_end (body : Re.regex) (s : string) : Prop :=
  exists w rest,
    s = w +:+ rest /\ In (Py.lower w) (Re.lang body) /\ Re.at_eol rest = true.

(** ** The placeholder detector, in the words of its contract *)

(** The file names that stand for "no logo was set": a bare word with or
    without a known image extension, and [download.jpg]. *)
Definition placeholder_names : list string :=
  [ "logo.png"; "logo.jpg"; "logo.jpeg"; "logo.webp"; "logo.svg"; "logo";
    "default.png"; "default.jpg"; "default.jpeg"; "default.webp";
    "default.svg"; "default";
    "download.jpg" ].

(** A value is a placeholder when it is missing or empty, or when its
    trimmed form ends, at the start or after a path separator, with one of
    the names, in any case of letters. *)
Definition placeholder_spec (value : option string) : Prop :=
  match value with
  | None => True
  | Some v =>
      v = "" \/
      exists pre w,
        Py.strip v = pre +:+ w /\
        (pre = "" \/ exists p, pre = p +:+ "/") /\
        In (Py.lower w) placeholder_names
  end.

(** ** The resolver, in the words of its contract *)

(** [r] is what the first candidate that hits yields, in list order, and
    no match only when every candidate misses; [hit] tells what a
    candidate yields. *)
Definition first_match (hit : string -> option string)
    (candidates : list string) (r : option string) : Prop :=
  match r with
  | Some p =>
      exists before c after,
        candidates = before ++ c :: after /\
        hit c = Some p /\
        Forall (fun c' => hit c' = None) before
  | None => Forall (fun c' => hit c' = None) candidates
  end.

(** A candidate hits when its normalized form is bound in the index. *)
Definition bound_at (index : gmap string string) (c : string) : option string :=
  index !! normalize_key c.

(** A candidate hits when its normalized form is bound to a path that is
    not empty. *)
Definition path_at (index : gmap string string) (c : string) : option string :=
  match index !! normalize_key c with
  | Some p => if truthy p then Some p else None
  | None => None
  end.

(** ** The index of a listing, in the words of its contract *)

(** What a node of the listing contributes: a leaf file with an image path
    is filed under the key of its path, anything else under nothing. *)
Definition entry_of (node : json) : option (string * string) :=
  match node with
  | JObj m =>
      match m !! "type", m !! "path" with
      | Some (JStr ty), Some (JStr path) =>
          if String.eqb ty "blob" && image_path path
          then Some (key_of_path path, path)
          else None
      | _, _ => None
      end
  | _ => None
  end.

(** The path of the first entry, in listing order, filed under [k]. *)
Definition first_writer (k : string) (nodes : list json) : option string :=
  snd <$> head (filter (fun e => e.1 = k) (omap entry_of nodes)).

(** ** The cache file, as the index builder sees it *)

(** What [load_cache] yields: the file is there, parses, and its value has
    a length. *)
Definition cached_value (cache_path : string) (w : world) : option json :=
  match files w !! cache_path with
  | Some f =>
      match content f with
      | Some idx => if has_len idx then Some idx else None
      | None => None
      end
  | None => None
  end.

(** The file is there and younger than the TTL. *)
Definition is_fresh (cache_path : string) (w : world) : bool :=
  match files w !! cache_path with
  | Some f => Qltb (now w - mtime f) INDEX_TTL_SECS
  | None => false
  end.

(** What lines 66 to 75 return, if anything. *)
Definition fresh_value (cache_path : string) (w : world) : option json :=
  if is_fresh cache_path w then cached_value cache_path w else None.

(** The world after the listing was fetched and indexed: the cache file is
    rewritten when it can be. *)
Definition built (cache_path : string) (index : gmap string string)
    (w : world) : world :=
  let w := emit ListingFetched w in
  if writable w cache_path
  then emit (CacheWritten cache_path)
         (set_file cache_path (File (now w) (Some (of_index index))) w)
  else w.

(** ** Sample worlds *)

Definition sample_channels : list channel :=
  [ Channel (Some "espn") (Some "ESPN") None;
    Channel None (Some "CNN") (Some "logo.png");
    Channel None (Some "HBO") (Some "https://cdn/x/HBO.png");
    Channel (Some "local.1") (Some "Local One") (Some "") ].

Definition node (ty path : string) : json :=
  JObj {[ "type" := JStr ty; "path" := JStr path ]}.

Definition sample_tree : json :=
  JObj {[ "tree" := JArr [ node "blob" "Sports/ESPN.png"; node "tree" "Sports";
                           node "blob" "Other/espn.JPG"; node "blob" "News/CNN.svg";
                           node "blob" "README.md" ] ]}.

(** No lock, no cache, a listing of five nodes, a host with four
    entities; every call succeeds. *)
Definition sample_world : world :=
  World 100 None true ∅ (fun _ => true) (fun _ => true)
        (Ok sample_tree) (fun _ => Ok "image") (fun _ => None)
        "/data/logos" None
        true true (Ok (QuerySet sample_channels None)) (fun _ _ _ => true) [].

Definition with_listing (l : result json) (w : world) : world :=
  World (now w) (lock w) (lock_writable w) (files w) (writable w) (mkdir_ok w)
        l (raw w) (json_loads w) (DEFAULT_LOGOS_DIR w) (environ_logo_dir w)
        (channel_model w) (logo_model w) (query w) (assign_ok w) (trace w).

Definition with_now (t : Q) (w : world) : world :=
  World t (lock w) (lock_writable w) (files w) (writable w) (mkdir_ok w)
        (listing w) (raw w) (json_loads w) (DEFAULT_LOGOS_DIR w) (environ_logo_dir w)
        (channel_model w) (logo_model w) (query w) (assign_ok w) (trace w).

Definition with_host (ch lg : bool) (q : result queryset) (w : world) : world :=
  World (now w) (lock w) (lock_writable w) (files w) (writable w) (mkdir_ok w)
        (listing w) (raw w) (json_loads w) (DEFAULT_LOGOS_DIR w) (environ_logo_dir w)
        ch lg q (assign_ok w) (trace w).

(** The host has no model, or its query fails. *)
Definition no_models_world : world :=
  with_host false true (Ok (QuerySet sample_channels None)) sample_world.
Definition query_error_world : world :=
  with_host true true (Raise OSError) sample_world.

(** The query returns, and its iteration raises before the first entity. *)
Definition broken_query_world : world :=
  with_host true true (Ok (QuerySet [] (Some OSError))) sample_world.

(** A lock marker written at time 100 and met at time 130. *)
Definition locked_world : world := set_lock 100 (with_now 130 sample_world).

Definition sample_cache_path : string := "/data/logos/.tvlogos_index.json".

(** A cache file written at time 0 and read at time 100000. *)
Definition stale_world : world :=
  with_now 100000
    (set_file sample_cache_path
       (File 0 (Some (of_index {[ "espn" := "Sports/ESPN.png" ]}))) sample_world).

(** ** The pass, in the words of its contract *)

(** The effects that come before any entity is looked at. *)
Definition setup_event (e : event) : Prop :=
  match e with
  | LockWritten | DirMade _ | ListingFetched | CacheWritten _ => True
  | _ => False
  end.

(** The event is an assignment of a logo to an entity. *)
Definition is_assignment (e : event) : Prop :=
  match e with
  | Assigned _ _ _ => True
  | _ => False
  end.

(** From [c] to [c'] exactly one of skipped, miss and downloaded went up,
    by one, and updated went up by one at most, and only with
    downloaded. *)
Definition bumps_one (c c' : counters) : Prop :=
  (skipped c' = S (skipped c) /\ miss c' = miss c /\
   downloaded c' = downloaded c /\ updated c' = updated c) \/
  (skipped c' = skipped c /\ miss c' = S (miss c) /\
   downloaded c' = downloaded c /\ updated c' = updated c) \/
  (skipped c' = skipped c /\ miss c' = miss c /\
   downloaded c' = S (downloaded c) /\
   (updated c' = updated c \/ updated c' = S (updated c))).

(** [m] adds to the trace only events that satisfy [P], and leaves the
    answer of the entity query as it is. *)
Definition emits {A} (P : event -> Prop) (m : M A) : Prop :=
  forall w,
    query (snd (m w)) = query w /\
    exists new, trace (snd (m w)) = trace w ++ new /\ Forall P new.

(** ** Frames and counts, for the further properties *)

(** [f] is a part of the world that neither an effect on the trace nor a
    write to a cache file changes. *)
Definition stable {B} (f : world -> B) : Prop :=
  (forall e w, f (emit e w) = f w) /\
  (forall p x w, f (set_file p x w) = f w).

(** [m] leaves the part [f] of the world as it is. *)
Definition keeps {A B} (f : world -> B) (m : M A) : Prop :=
  forall w, f (snd (m w)) = f w.

Definition is_raw_fetched (e : event) : bool :=
  match e with RawFetched _ => true | _ => false end.

Definition is_logo_written (e : event) : bool :=
  match e with LogoWritten _ => true | _ => false end.

Definition is_assigned (e : event) : bool :=
  match e with Assigned _ _ _ => true | _ => false end.

(** The assignments of the trace that the host accepted. *)
Definition is_accepted (w : world) (e : event) : bool :=
  match e with
  | Assigned ch lp ln => assign_ok w ch lp ln
  | _ => false
  end.

(** How many events of [l] satisfy [P]. *)
Definition count (P : event -> bool) (l : list event) : nat :=
  length (List.filter P l).

(** The events that a call of [m] in [w] adds to the trace. *)
Definition new_events {A} (m : M A) (w : world) : list event :=
  drop (length (trace w)) (trace (snd (m w))).

(** A world where no file can be written. *)
Definition read_only_world : world :=
  World 100 None true ∅ (fun _ => false) (fun _ => true)
        (Ok sample_tree) (fun _ => Ok "image") (fun _ => None)
        "/data/logos" None
        true true (Ok (QuerySet sample_channels None)) (fun _ _ _ => true) [].

(** The world of a pass once the lock is taken and the logo directory
    made, and what the pass does from there, lines 330 to 396. *)
Definition after_setup (w : world) : world :=
  emit (DirMade (logos_dir_of w)) (snd (_acquire_lock w)).

Definition main_pass (dir : string) : M summary :=
  let* index := build_index dir in
  let* qs := try_except (let* qs := objects_all in ret (Some qs))
               (fun _ => ret None) in
  match qs with
  | None => ret (Summary false (Some "query-error") zero dir)
  | Some qs =>
      let* c := scan index dir zero (entities qs) in
      let* _ := end_of qs in
      ret (Summary true None c dir)
  end.

(** The entity is to be given a logo and has a candidate to look up. *)
Definition wants_lookup (ch : channel) : Prop :=
  keeps_logo ch = false /\ candidates_of ch <> [].

(** How many entities keep their logo. *)
Definition kept (qs : list channel) : nat :=
  length (List.filter keeps_logo qs).

(** The sample host with no network, and with a cache file that holds a
    JSON array. *)
Definition offline_world : world := with_listing (Raise URLError) sample_world.

Definition bad_cache_world : world :=
  set_file sample_cache_path (File 90 (Some (JArr []))) sample_world.

(** Every assignment among the events [new] is of an entity that satisfies
    [P] and does not keep its logo, and it names a file of the directory
    [dir] that was written before. *)
Definition backed (dir : string) (P : channel -> Prop) (new : list event) : Prop :=
  forall ch lp ln l1 l2,
    new = l1 ++ Assigned ch lp ln :: l2 ->
    P ch /\ keeps_logo ch = false /\ lp = path_join dir ln /\
    In (LogoWritten lp) l1.

(** ** The host's objects, as the field heuristics see them *)

(** A Python value: [PObj] is an object with attributes, of which a read
    yields a value or raises; an object is true, as a model instance
    is. The other values have none of the attributes asked for here. *)
#[warnings="-register-all"] Inductive pyval :=
| PNone
| PBool (b : bool)
| PNum (n : Z)
| PStr (s : string)
| PObj (attrs : gmap string (result pyval)).

#[export] Instance pyval_truthy : Truthy pyval :=
  fun v =>
    match v with
    | PNone => false
    | PBool b => b
    | PNum n => negb (Z.eqb n 0)
    | PStr s => truthy s
    | PObj _ => true
    end.

(** [o.a] *)
Definition read (o : pyval) (a : string) : result pyval :=
  match o with
  | PObj attrs =>
      match attrs !! a with
      | Some r => r
      | None => Raise AttributeError
      end
  | _ => Raise AttributeError
  end.

(** [getattr(o, a, None)]: only [AttributeError] gives the default. *)
Definition getattr (o : pyval) (a : string) : result pyval :=
  match read o a with
  | Ok v => Ok v
  | Raise AttributeError => Ok PNone
  | Raise e => Raise e
  end.

(** [hasattr(o, a)]: only [AttributeError] gives [False]. *)
Definition hasattr (o : pyval) (a : string) : result bool :=
  match read o a with
  | Ok _ => Ok true
  | Raise AttributeError => Ok false
  | Raise e => Raise e
  end.

(** [isinstance(v, str)] *)
Definition is_str (v : pyval) : bool :=
  match v with PStr _ => true | _ => false end.

(** [a or b]: [b] is evaluated only when [a] is false. *)
Definition or_read (a b : result pyval) : result pyval :=
  match a with
  | Ok v => if truthy v then Ok v else b
  | Raise e => Raise e
  end.

Definition FILE_ATTRS : list string :=
  ["file"; "image"; "path"; "url"; "logo"; "src"; "filename"].

Definition OWN_ATTRS : list string :=
  ["tvg_logo"; "logo_url"; "icon"; "image"; "logo"].

(** The loop of lines 208 to 212 over the attributes [attrs], with
    [logo_val] at [cur]; an exception ends it and leaves [logo_val] as it
    is, lines 215 and 216. *)
Fixpoint row_value (logo_obj : pyval) (attrs : list string) (cur : pyval)
    : pyval :=
  match attrs with
  | [] => cur
  | a :: rest =>
      match hasattr logo_obj a with
      | Raise _ => cur
      | Ok false => row_value logo_obj rest cur
      | Ok true =>
          match getattr logo_obj a with
          | Raise _ => cur
          | Ok v => if truthy v then v else row_value logo_obj rest v
          end
      end
  end.

(** Lines 203 to 216: [logo_val] after the guarded block. *)
Definition logo_of_row (ch : pyval) : pyval :=
  match getattr ch "logo" with
  | Raise _ => PNone
  | Ok logo_obj =>
      if truthy logo_obj && negb (is_str logo_obj)
      then row_value logo_obj FILE_ATTRS PNone
      else if is_str logo_obj then logo_obj
      else PNone
  end.

(** The loop of lines 219 to 224; nothing guards it. *)
Fixpoint own_value (ch : pyval) (attrs : list string) (cur : pyval)
    : result pyval :=
  match attrs with
  | [] => Ok cur
  | a :: rest =>
      match hasattr ch a with
      | Raise e => Raise e
      | Ok false => own_value ch rest cur
      | Ok true =>
          match getattr ch a with
          | Raise e => Raise e
          | Ok val => if truthy val then Ok val else own_value ch rest cur
          end
      end
  end.

Definition _extract_channel_fields (ch : pyval)
    : result (pyval * pyval * pyval) :=
  match or_read (getattr ch "tvg_id") (getattr ch "tvgId") with
  | Raise e => Raise e
  | Ok tvg_id =>
      match or_read (getattr ch "name") (getattr ch "tvg_name") with
      | Raise e => Raise e
      | Ok name =>
          let logo_val := logo_of_row ch in
          match (if negb (truthy logo_val)
                 then own_value ch OWN_ATTRS logo_val
                 else Ok logo_val) with
          | Raise e => Raise e
          | Ok logo_val => Ok (tvg_id, name, logo_val)
          end
      end
  end.

(** A field of a model: its name, and whether it has a column
    ([hasattr(f, "attname")]). *)
Record model_field := ModelField { fname : string; has_attname : bool }.

Definition FILE_CANDIDATES : list string :=
  ["file"; "image"; "path"; "url"; "logo"; "src"; "filename"].

Definition NAME_CANDIDATES : list string :=
  ["name"; "title"; "key"; "slug"; "label"].

(** [{f.name for f in fields if hasattr(f, "attname")}] *)
Definition all_fields (fields : list model_field) : gset string :=
  list_to_set (fname <$> List.filter has_attname fields).

(** [for c in candidates: if c in all_fields: ...; break] *)
Definition first_in (candidates : list string) (fields : gset string)
    : option string :=
  List.find (fun c => bool_decide (c ∈ fields)) candidates.

(** [fields] is what [LogoModel._meta.get_fields()] yields. *)
Definition _infer_logo_fields (fields : list model_field)
    : option string * option string :=
  let all_fields := all_fields fields in
  (first_in FILE_CANDIDATES all_fields, first_in NAME_CANDIDATES all_fields).

(** An entity whose logo is a row with an empty file, and the fields of a
    logo model. *)
Definition empty_row_channel : pyval :=
  PObj {[ "name" := Ok (PStr "ESPN");
          "logo" := Ok (PObj {[ "name" := Ok (PStr "espn");
                                "url" := Ok (PStr "") ]}) ]}.

Definition sample_logo_fields : list model_field :=
  [ ModelField "id" true; ModelField "channels" false;
    ModelField "name" true; ModelField "url" true ].

(** Where the index holds a string, the string is an image path; every
    index built from a listing is such an index. *)
Definition image_index (index : json) : Prop :=
  forall m k p,
    index = JObj m -> m !! k = Some (JStr p) -> image_path p = true.

(** The name of a logo file: a stem and an image extension in small
    letters, and no path separator. *)
Definition logo_name (ln : string) : Prop :=
  (exists stem e, ln = stem +:+ e /\ In e exts) /\
  existsb (Ascii.eqb "/") (list_ascii_of_string ln) = false.

(** What the event does to the file system is done to the directory
    [dir]: [os.makedirs] is called for [dir], a cache file written is the
    one of [dir], a logo file written is [dir] joined with the name of a
    logo file. The lock marker is set apart. *)
Definition inside (dir : string) (e : event) : Prop :=
  match e with
  | DirMade d => d = dir
  | CacheWritten p => p = path_join dir INDEX_BASENAME
  | LogoWritten lp => exists ln, lp = path_join dir ln /\ logo_name ln
  | _ => True
  end.

(** [a] and [b] are the same up to the case of letters, which is how
    [re.IGNORECASE] compares the strings of this file. *)
Definition same_name (a b : string) : Prop := Py.lower a = Py.lower b.

(** * Properties *)

(** ** The primitives on sample inputs *)

Example strip_sample : Py.strip "  A  b " = "A  b".
Proof. reflexivity. Qed.

Example sub_ws_sample : Py.sub_ws " a   b  c " = " a b c ".
Proof. reflexivity. Qed.

Example rsplit_sample :
  Py.rsplit_last "/" "Sports/US/ESPN.png" = "ESPN.png" /\
  Py.rsplit_last "/" "ESPN.png" = "ESPN.png" /\
  Py.rsplit_head "." "ESPN.2.png" = "ESPN.2" /\
  Py.rsplit_head "." "ESPN" = "ESPN".
Proof. repeat split; reflexivity. Qed.

Example path_join_sample :
  path_join "/data/logos" INDEX_BASENAME = "/data/logos/.tvlogos_index.json" /\
  path_join "/data/logos/" "ESPN.png" = "/data/logos/ESPN.png" /\
  path_join "" "ESPN.png" = "ESPN.png".
Proof. repeat split; reflexivity. Qed.

Example sub_ext_sample :
  Re.sub EXT_RE "ESPN.png" = "ESPN" /\
  Re.sub EXT_RE "a.png.JPEG" = "a.png" /\
  Re.sub EXT_RE "notes.txt" = "notes.txt".
Proof. repeat split; reflexivity. Qed.

Example key_of_path_sample :
  key_of_path "Sports/ESPN.png" = "espn" /\
  key_of_path "News/CNN.svg" = "cnn" /\
  key_of_path "A&E Network.PNG" = "aande network".
Proof. repeat split; reflexivity. Qed.

Example normalize_key_sample :
  normalize_key "ESPN  Network" = "espn network" /\
  normalize_key "espn network" = "espn network" /\
  normalize_key "  A&E: HD/US " = "aande hd us".
Proof. repeat split; reflexivity. Qed.

(** The listing with [Sports/ESPN.png] and [News/CNN.svg] gives the keys
    [espn] and [cnn]. *)
Example index_of_tree_sample :
  index_of_tree sample_tree
  = Ok {[ "espn" := "Sports/ESPN.png"; "cnn" := "News/CNN.svg" ]}.
Proof. by vm_compute. Qed.

(** One entity without a logo against the index espn -> Sports/ESPN.png:
    the file [ESPN.png] is written to the logo directory and assigned. *)
Example scan_channel_sample :
  let ch := Channel (Some "espn") (Some "ESPN") None in
  let r := scan_channel (of_index {[ "espn" := "Sports/ESPN.png" ]})
             "/data/logos" zero ch sample_world in
  fst r = Ok (Counters 1 1 0 0) /\
  trace (snd r)
  = [ DirMade "/data/logos"; RawFetched "Sports/ESPN.png";
      LogoWritten "/data/logos/ESPN.png";
      Assigned ch "/data/logos/ESPN.png" "ESPN.png" ].
Proof. split; by vm_compute. Qed.

(** ** Facts about the string primitives *)

Section StringFacts.

Implicit Types (s t : string) (c : ascii) (P : ascii -> bool).

Lemma key_char_lower c : key_char c = true -> Py.lower_char c = c.
Proof.
  destruct c as [[] [] [] [] [] [] [] []]; vm_compute; congruence.
Qed.

Lemma key_char_space c : key_char c = true -> Py.isspace c = true -> c = " "%char.
Proof.
  destruct c as [[] [] [] [] [] [] [] []]; vm_compute; congruence.
Qed.

Lemma all_lower_fixed s : Py.all key_char s = true -> Py.lower s = s.
Proof.
  induction s as [|c s IH]; simpl; [done|].
  intros [Hc Hs]%andb_prop. by rewrite key_char_lower, IH.
Qed.

Lemma all_keep P s : Py.all P (Py.keep P s) = true.
Proof.
  induction s as [|c s IH]; simpl; [done|].
  destruct (P c) eqn:E; simpl; [by rewrite E|done].
Qed.

Lemma keep_fixed P s : Py.all P s = true -> Py.keep P s = s.
Proof.
  induction s as [|c s IH]; simpl; [done|].
  intros [Hc Hs]%andb_prop. by rewrite Hc, IH.
Qed.

Lemma all_lstrip P s : Py.all P s = true -> Py.all P (Py.lstrip s) = true.
Proof.
  induction s as [|c s IH]; simpl; [done|].
  intros H. destruct (Py.isspace c); [|done].
  apply andb_prop in H as [_ H]. by apply IH.
Qed.

Lemma all_rstrip P s : Py.all P s = true -> Py.all P (Py.rstrip s) = true.
Proof.
  induction s as [|c s IH]; simpl; [done|].
  intros [Hc Hs]%andb_prop. specialize (IH Hs).
  destruct (Py.rstrip s); [destruct (Py.isspace c)|]; simpl in *; by rewrite ?Hc.
Qed.

Lemma all_strip P s : Py.all P s = true -> Py.all P (Py.strip s) = true.
Proof. intros. by apply all_rstrip, all_lstrip. Qed.

Lemma all_sub_ws P b s :
  P " "%char = true -> Py.all P s = true -> Py.all P (Py.sub_ws_from b s) = true.
Proof.
  intros Hsp. revert b. induction s as [|c s IH]; simpl; [done|].
  intros b [Hc Hs]%andb_prop.
  destruct (Py.isspace c); [destruct b|]; simpl; rewrite ?Hsp, ?Hc, ?IH; done.
Qed.

Lemma replace_absent old new s :
  Py.all (fun c => negb (Ascii.eqb c old)) s = true -> Py.replace old new s = s.
Proof.
  induction s as [|c s IH]; simpl; [done|].
  intros [Hc Hs]%andb_prop. apply negb_true_iff in Hc. by rewrite Hc, IH.
Qed.

Lemma all_impl P1 P2 s :
  (forall c, P1 c = true -> P2 c = true) ->
  Py.all P1 s = true -> Py.all P2 s = true.
Proof.
  intros HP. induction s as [|c s IH]; simpl; [done|].
  intros [Hc Hs]%andb_prop. by rewrite (HP _ Hc), IH.
Qed.

(** White space is single: [tidy b s] says that every white character of
    [s] is a space that follows no other ([b]: one precedes [s]). *)
Lemma tidy_weaken s : tidy true s = true -> tidy false s = true.
Proof.
  destruct s as [|c s]; simpl; [done|].
  destruct (Py.isspace c); [|done]. by rewrite andb_false_r.
Qed.

Lemma tidy_sub_ws b s : Py.all key_char s = true -> tidy b (Py.sub_ws_from b s) = true.
Proof.
  revert b. induction s as [|c s IH]; simpl; [done|].
  intros b [Hc Hs]%andb_prop.
  destruct (Py.isspace c) eqn:E; [destruct b|]; simpl; rewrite ?E; auto.
Qed.

Lemma tidy_fixed b s : tidy b s = true -> Py.sub_ws_from b s = s.
Proof.
  revert b. induction s as [|c s IH]; simpl; [done|].
  intros b. destruct (Py.isspace c).
  - intros [[Hc Hb]%andb_prop Hs]%andb_prop.
    apply negb_true_iff in Hb. subst b.
    apply Ascii.eqb_eq in Hc. subst c. by rewrite IH.
  - intros Hs. by rewrite IH.
Qed.

Lemma tidy_lstrip b s : tidy b s = true -> tidy false (Py.lstrip s) = true.
Proof.
  revert b. induction s as [|c s IH]; simpl; [done|].
  intros b. destruct (Py.isspace c) eqn:E.
  - intros [_ Hs]%andb_prop. by eapply IH.
  - intros Hs. simpl. by rewrite E.
Qed.

Lemma tidy_rstrip b s : tidy b s = true -> tidy b (Py.rstrip s) = true.
Proof.
  revert b. induction s as [|c s IH]; simpl; [done|].
  intros b. destruct (Py.isspace c) eqn:E.
  - intros [H Hs]%andb_prop. specialize (IH _ Hs).
    destruct (Py.rstrip s); [done|]. simpl in *. by rewrite E, H, IH.
  - intros Hs. specialize (IH _ Hs).
    destruct (Py.rstrip s); simpl in *; by rewrite E.
Qed.

Lemma rstrip_idem s : Py.rstrip (Py.rstrip s) = Py.rstrip s.
Proof.
  induction s as [|c s IH]; simpl; [done|].
  destruct (Py.rstrip s) as [|d r] eqn:E.
  - destruct (Py.isspace c) eqn:Ec; simpl; by rewrite ?Ec.
  - change (Py.rstrip (String c (String d r))) with
      (match Py.rstrip (String d r) with
       | EmptyString => if Py.isspace c then EmptyString else String c EmptyString
       | r' => String c r'
       end).
    by rewrite IH.
Qed.

Lemma lstrip_head s : head_clean (Py.lstrip s) = true.
Proof.
  induction s as [|c s IH]; simpl; [done|].
  destruct (Py.isspace c) eqn:E; [done|]. simpl. by rewrite E.
Qed.

Lemma head_clean_lstrip s : head_clean s = true -> Py.lstrip s = s.
Proof.
  destruct s as [|c s]; simpl; [done|]. by intros ->%negb_true_iff.
Qed.

Lemma head_clean_rstrip s : head_clean s = true -> head_clean (Py.rstrip s) = true.
Proof.
  destruct s as [|c s]; simpl; [done|]. intros H.
  destruct (Py.rstrip s); [|done].
  apply negb_true_iff in H. rewrite H. simpl. by rewrite H.
Qed.

Lemma strip_idem s : Py.strip (Py.strip s) = Py.strip s.
Proof.
  unfold Py.strip.
  rewrite (head_clean_lstrip (Py.rstrip _)); [apply rstrip_idem|].
  apply head_clean_rstrip, lstrip_head.
Qed.

(** A string of key characters that is trimmed and single-spaced is its
    own key. *)
Lemma normalize_key_fixed s :
  Py.all key_char s = true -> tidy false s = true -> Py.strip s = s ->
  normalize_key s = s.
Proof.
  intros Hall Htidy Hstrip. unfold normalize_key.
  rewrite Hstrip, (all_lower_fixed _ Hall).
  unfold Py.sub_ws. rewrite (tidy_fixed _ _ Htidy).
  assert (Hno : forall old new, key_char old = false -> Py.replace old new s = s).
  { intros old new Hold. apply replace_absent. revert Hall. apply all_impl.
    intros c Hc. destruct (Ascii.eqb_spec c old); [congruence|done]. }
  rewrite !Hno by reflexivity.
  rewrite (keep_fixed _ _ Hall), (tidy_fixed _ _ Htidy). done.
Qed.

End StringFacts.

(** C3. The normalizer is idempotent: normalizing a key that is already
    normalized changes nothing. *)
Theorem normalize_key_idempotent (x : string) :
  normalize_key (normalize_key x) = normalize_key x.
Proof.
  apply normalize_key_fixed.
  - apply all_strip, all_sub_ws; [done|apply all_keep].
  - apply tidy_rstrip with (b := false).
    apply tidy_lstrip with (b := false).
    apply tidy_sub_ws, all_keep.
  - unfold normalize_key. apply strip_idem.
Qed.

(** ** The matcher against the language of a pattern *)

Section RegexFacts.

Implicit Types (s t pre rest : string) (r : Re.regex) (b : bool).

Lemma append_nil_r s : s +:+ "" = s.
Proof. induction s as [|c s IH]; simpl; congruence. Qed.

Lemma append_assoc s t u : (s +:+ t) +:+ u = s +:+ (t +:+ u).
Proof. induction s as [|c s IH]; simpl; congruence. Qed.

Lemma lower_append s t : Py.lower (s +:+ t) = Py.lower s +:+ Py.lower t.
Proof. induction s as [|c s IH]; simpl; congruence. Qed.

Lemma lower_split s a c :
  Py.lower s = a +:+ c ->
  exists s1 s2, s = s1 +:+ s2 /\ Py.lower s1 = a /\ Py.lower s2 = c.
Proof.
  revert s. induction a as [|x a IH]; simpl; intros s H.
  - by exists "", s.
  - destruct s as [|y s]; simpl in H; [done|].
    injection H as Hy Hs. destruct (IH _ Hs) as (s1 & s2 & -> & <- & <-).
    exists (String y s1), s2. simpl. by rewrite Hy.
Qed.

Lemma eqb_append_nil s t :
  String.eqb (s +:+ t) "" = String.eqb s "" && String.eqb t "".
Proof. destruct s; simpl; [by destruct t|done]. Qed.

Lemma is_Some_first {A} (o1 o2 : option A) :
  is_Some (match o1 with Some a => Some a | None => o2 end)
  <-> is_Some o1 \/ is_Some o2.
Proof.
  destruct o1; split; eauto.
  intros [[? [=]]|?]; done.
Qed.

(** A pattern without anchors matches at the head of [s] exactly when a
    prefix of [s], in lower case, is in its language and the rest
    satisfies the continuation. *)
Lemma matches_lang {A} r :
  Re.anchor_free r = true ->
  forall b s (k : bool -> string -> option A),
    is_Some (Re.matches r b s k) <->
    exists pre rest,
      s = pre +:+ rest /\ In (Py.lower pre) (Re.lang r) /\
      is_Some (k (b && String.eqb pre "") rest).
Proof.
  induction r as [| c | | | r1 IH1 r2 IH2 | r1 IH1 r2 IH2 | r1 IH1];
    simpl; intros Hfree b s k; try done.
  - split.
    + intros H. exists "", s. rewrite andb_true_r. auto.
    + intros (pre & rest & -> & [Hpre|[]] & H).
      destruct pre; [|done]. by rewrite andb_true_r in H.
  - destruct s as [|x s].
    + split; [by intros [? [=]]|].
      intros (pre & rest & Hs & [Hpre|[]] & _).
      destruct pre; [done|]. done.
    + destruct (Ascii.eqb_spec (Py.lower_char x) (Py.lower_char c)) as [E|E].
      * split.
        -- intros H. exists (String x ""), s. simpl. rewrite E, andb_false_r. auto.
        -- intros (pre & rest & Hs & [Hpre|[]] & H).
           destruct pre as [|y [|z pre]]; simpl in Hpre; try done.
           simpl in Hs. injection Hs as -> ->. by rewrite andb_false_r in H.
      * split; [by intros [? [=]]|].
        intros (pre & rest & Hs & [Hpre|[]] & _).
        destruct pre as [|y [|z pre]]; simpl in Hpre; try done.
        simpl in Hs. injection Hs as -> ->. congruence.
  - apply andb_prop in Hfree as [H1 H2].
    rewrite (IH1 H1). split.
    + intros (pre1 & rest1 & -> & Hin1 & H).
      rename H1 into Hf1, H2 into Hf2.
      apply (IH2 Hf2) in H as (pre2 & rest & -> & Hin2 & Hk).
      exists (pre1 +:+ pre2), rest. rewrite append_assoc. split; [done|].
      split.
      * rewrite lower_append. apply in_flat_map. exists (Py.lower pre1).
        split; [done|]. by apply in_map.
      * by rewrite eqb_append_nil, andb_assoc.
    + rename H1 into Hf1, H2 into Hf2. intros (pre & rest & -> & Hin & H).
      apply in_flat_map in Hin as (a & Ha & Hin).
      apply in_map_iff in Hin as (c & Hc & Hin).
      symmetry in Hc. apply lower_split in Hc as (p1 & p2 & -> & <- & <-).
      exists p1, (p2 +:+ rest). rewrite append_assoc. split; [done|].
      split; [done|]. apply (IH2 Hf2). exists p2, rest.
      rewrite eqb_append_nil, andb_assoc in H. auto.
  - apply andb_prop in Hfree as [H1 H2].
    rewrite is_Some_first, (IH1 H1), (IH2 H2). split.
    + intros [(pre & rest & ? & ? & ?)|(pre & rest & ? & ? & ?)];
        exists pre, rest; rewrite in_app_iff; auto.
    + intros (pre & rest & ? & [?|?]%in_app_iff & ?); [left|right]; eauto.
  - rewrite is_Some_first, (IH1 Hfree). split.
    + intros [(pre & rest & ? & ? & ?)|H].
      * exists pre, rest. rewrite in_app_iff. auto.
      * exists "", s. rewrite andb_true_r, in_app_iff. simpl. auto.
    + intros (pre & rest & -> & [Hin|[Hpre|[]]]%in_app_iff & Hk).
      * left. eauto.
      * right. destruct pre; [|done]. by rewrite andb_true_r in Hk.
Qed.

Lemma lower_char_slash x :
  Py.lower_char x = Py.lower_char "/" <-> x = "/"%char.
Proof.
  split; [|by intros ->].
  destruct x as [[] [] [] [] [] [] [] []]; vm_compute; congruence.
Qed.

Lemma match_anchored body b s :
  Re.anchor_free body = true ->
  is_Some (Re.match_here (anchored body) b s) <->
  (b = true /\ to_end body s) \/ (exists s', s = String "/" s' /\ to_end body s').
Proof.
  intros Hfree. unfold Re.match_here, anchored, sep_or_start. simpl.
  assert (Hbody : forall b' s',
    is_Some (Re.matches body b' s'
               (fun b0 s0 => if Re.at_eol s0 then Some s0 else None))
    <-> to_end body s').
  { intros b' s'. rewrite (matches_lang _ Hfree). unfold to_end.
    split; intros (w & rest & -> & Hin & H); exists w, rest;
      (split; [done|split; [done|]]).
    - destruct (Re.at_eol rest); [done|by destruct H].
    - by rewrite H. }
  rewrite is_Some_first. split.
  - intros [H|H].
    + destruct b; [|by destruct H]. left. split; [done|]. by apply Hbody in H.
    + destruct s as [|x s']; [by destruct H|].
      destruct (Ascii.eqb_spec (Py.lower_char x) (Py.lower_char "/")) as [E|E];
        [|by destruct H].
      apply lower_char_slash in E as ->. right. exists s'.
      split; [done|]. by apply Hbody in H.
  - intros [[-> H]|(s' & -> & H)].
    + left. by apply Hbody.
    + right. rewrite Ascii.eqb_refl. by apply Hbody.
Qed.

(** [re.search] tries every position; only the first one is the start. *)
Lemma search_from_spec r b s :
  Re.search_from r b s = true <->
  exists pre suf,
    s = pre +:+ suf /\ is_Some (Re.match_here r (b && String.eqb pre "") suf).
Proof.
  revert b. induction s as [|c s IH]; intros b; simpl.
  - destruct (Re.match_here r b "") eqn:E.
    + split; [|done]. intros _. exists "", "". rewrite andb_true_r, E. eauto.
    + split; [done|]. intros (pre & suf & Hs & H).
      destruct pre; [|done]. simpl in Hs. subst suf.
      rewrite andb_true_r, E in H. by destruct H.
  - destruct (Re.match_here r b (String c s)) eqn:E.
    + split; [|done]. intros _. exists "", (String c s).
      rewrite andb_true_r, E. eauto.
    + rewrite IH. split.
      * intros (pre & suf & -> & H). exists (String c pre), suf.
        by rewrite andb_false_r.
      * intros (pre & suf & Hs & H). destruct pre as [|x pre].
        -- simpl in Hs. subst suf. rewrite andb_true_r, E in H. by destruct H.
        -- simpl in Hs. injection Hs as -> ->. exists pre, suf.
           by rewrite andb_false_r in H.
Qed.

Lemma rstrip_tail_clean s : tail_clean (Py.rstrip s) = true.
Proof.
  induction s as [|c s IH]; simpl; [done|].
  destruct (Py.rstrip s) as [|d r] eqn:E.
  - destruct (Py.isspace c) eqn:Ec; simpl; by rewrite ?Ec.
  - done.
Qed.

Lemma tail_clean_snoc s c :
  tail_clean (s +:+ String c "") = negb (Py.isspace c).
Proof.
  induction s as [|d s IH]; simpl; [done|].
  destruct (s +:+ String c "") eqn:E; [by destruct s|done].
Qed.

(** In a trimmed string the match ends at the very end. *)
Lemma to_end_trimmed body v p s :
  Py.strip v = p +:+ s ->
  to_end body s <-> In (Py.lower s) (Re.lang body).
Proof.
  intros Hv. split.
  - intros (w & rest & -> & Hin & Hrest).
    unfold Re.at_eol in Hrest. apply orb_prop in Hrest as [H|H].
    + apply String.eqb_eq in H as ->. by rewrite append_nil_r.
    + apply String.eqb_eq in H as ->.
      pose proof (rstrip_tail_clean (Py.lstrip v)) as Hc.
      fold (Py.strip v) in Hc.
      rewrite Hv, <- !append_assoc, tail_clean_snoc in Hc. done.
  - intros Hin. exists s, "". by rewrite append_nil_r.
Qed.

Lemma search_anchored body v :
  Re.anchor_free body = true ->
  Re.search (anchored body) (Py.strip v) = true <->
  exists pre w,
    Py.strip v = pre +:+ w /\
    (pre = "" \/ exists p, pre = p +:+ "/") /\
    In (Py.lower w) (Re.lang body).
Proof.
  intros Hfree. unfold Re.search. rewrite search_from_spec. split.
  - intros (pre & suf & Hv & H).
    apply (match_anchored _ _ _ Hfree) in H as [[Hb H]|(s' & -> & H)].
    + exists pre, suf. split; [done|].
      apply String.eqb_eq in Hb. split; [auto|].
      by apply (to_end_trimmed _ _ _ _ Hv).
    + exists (pre +:+ "/"), s'. rewrite append_assoc. split; [done|].
      split; [eauto|]. eapply to_end_trimmed; [|done].
      instantiate (1 := pre +:+ "/"). by rewrite append_assoc.
  - intros (pre & w & Hv & Hpre & Hin).
    destruct Hpre as [->|(p & ->)].
    + exists "", w. split; [done|]. apply (match_anchored _ _ _ Hfree).
      left. split; [done|]. by apply (to_end_trimmed _ _ _ _ Hv).
    + exists p, (String "/" w). rewrite append_assoc in Hv. split; [done|].
      apply (match_anchored _ _ _ Hfree). right. exists w. split; [done|].
      eapply to_end_trimmed; [|done].
      instantiate (1 := p +:+ "/"). by rewrite append_assoc.
Qed.

(** The names of the contract are the languages of the three bodies. *)
Lemma placeholder_names_lang w :
  In w placeholder_names <->
  In w (Re.lang logo_body) \/ In w (Re.lang default_body) \/
  In w (Re.lang download_body).
Proof.
  change placeholder_names with
    (Re.lang logo_body ++ Re.lang default_body ++ Re.lang download_body).
  by rewrite !in_app_iff.
Qed.

End RegexFacts.

(** C9. The placeholder detector answers true exactly for a missing or
    empty value and for a value whose trimmed form ends, at its start or
    after a path separator, with [logo] or [default] with or without a
    known image extension, or with [download.jpg], in any case of letters;
    so it holds of the empty value, of [logo.png] and of [download.jpg],
    and not of [https://cdn/x/ESPN.png]. *)
Theorem is_placeholder_spec :
  (forall value, is_placeholder value = true <-> placeholder_spec value) /\
  is_placeholder None = true /\
  is_placeholder (Some "") = true /\
  is_placeholder (Some "logo.png") = true /\
  is_placeholder (Some "download.jpg") = true /\
  is_placeholder (Some "https://cdn/x/ESPN.png") = false.
Proof.
  split; [|by vm_compute].
  intros [v|]; [|done]. unfold is_placeholder, placeholder_spec.
  change (truthy (Some v)) with (negb (String.eqb v "")).
  destruct (String.eqb_spec v "") as [->|Hv]; [simpl; split; auto|].
  cbn [negb existsb PLACEHOLDER_PATTERNS].
  rewrite !orb_true_iff, !search_anchored by reflexivity.
  split.
  - intros H. right.
    destruct H as [H|[H|[H|H]]]; [| | |done];
      destruct H as (pre & w & Hs & Hpre & Hin); exists pre, w;
      (split; [done|split; [done|]]); apply placeholder_names_lang; auto.
  - intros [?|(pre & w & Hs & Hpre & Hin)]; [done|].
    apply placeholder_names_lang in Hin as [H|[H|H]];
      [left|right; left|right; right; left]; eauto.
Qed.

(** ** The key of a remote path *)

Section KeyFacts.

Implicit Types (s t stem e : string) (r : Re.regex) (b : bool).

(** What a match of a pattern without anchors hands to its continuation. *)
Lemma matches_sound {A} r :
  Re.anchor_free r = true ->
  forall b s (k : bool -> string -> option A) a,
    Re.matches r b s k = Some a ->
    exists pre rest,
      s = pre +:+ rest /\ In (Py.lower pre) (Re.lang r) /\
      k (b && String.eqb pre "") rest = Some a.
Proof.
  induction r as [| c | | | r1 IH1 r2 IH2 | r1 IH1 r2 IH2 | r1 IH1];
    simpl; intros Hfree b s k a H; try done.
  - exists "", s. rewrite andb_true_r. auto.
  - destruct s as [|x s]; [done|].
    destruct (Ascii.eqb_spec (Py.lower_char x) (Py.lower_char c)) as [E|E];
      [|done].
    exists (String x ""), s. simpl. rewrite E, andb_false_r. auto.
  - apply andb_prop in Hfree as [Hf1 Hf2].
    apply (IH1 Hf1) in H as (pre1 & rest1 & -> & Hin1 & H).
    apply (IH2 Hf2) in H as (pre2 & rest & -> & Hin2 & H).
    exists (pre1 +:+ pre2), rest. rewrite append_assoc. split; [done|].
    split.
    + rewrite lower_append. apply in_flat_map. exists (Py.lower pre1).
      split; [done|]. by apply in_map.
    + by rewrite eqb_append_nil, andb_assoc.
  - apply andb_prop in Hfree as [Hf1 Hf2].
    destruct (Re.matches r1 b s k) as [a'|] eqn:E.
    + injection H as ->. apply (IH1 Hf1) in E as (pre & rest & ? & ? & ?).
      exists pre, rest. rewrite in_app_iff. auto.
    + apply (IH2 Hf2) in H as (pre & rest & ? & ? & ?).
      exists pre, rest. rewrite in_app_iff. auto.
  - destruct (Re.matches r1 b s k) as [a'|] eqn:E.
    + injection H as ->. apply (IH1 Hfree) in E as (pre & rest & ? & ? & ?).
      exists pre, rest. rewrite in_app_iff. auto.
    + exists "", s. rewrite andb_true_r, in_app_iff. simpl. auto.
Qed.

Lemma match_here_to_end body b s :
  Re.match_here (Re.Cat body Re.Eol) b s =
  Re.matches body b s (fun _ s' => if Re.at_eol s' then Some s' else None).
Proof. reflexivity. Qed.

Lemma match_ext_here b s rest :
  Re.match_here EXT_RE b s = Some rest ->
  exists pre, s = pre +:+ rest /\ In (Py.lower pre) exts /\ Re.at_eol rest = true.
Proof.
  unfold EXT_RE. rewrite match_here_to_end. intros H.
  apply (matches_sound ext_body eq_refl) in H as (pre & rest' & -> & Hin & H).
  destruct (Re.at_eol rest') eqn:E; [|done]. injection H as ->. eauto.
Qed.

(** No extension is a proper end of an extension, with or without a
    newline after it. *)
Lemma ext_not_proper_end x y rest a u :
  In x exts -> In y exts -> Re.at_eol rest = true ->
  y +:+ rest = String a (u +:+ x) -> False.
Proof.
  intros Hx Hy Hrest H.
  assert (rest = "" \/ rest = String Re.newline "") as Hr.
  { unfold Re.at_eol in Hrest. apply orb_prop in Hrest as [E|E];
      apply String.eqb_eq in E; auto. }
  unfold exts in Hx, Hy. simpl in Hx, Hy.
  destruct Hr as [-> | ->];
    repeat (destruct Hy as [<-|Hy]; [|]); try done;
    repeat (destruct Hx as [<-|Hx]; [|]); try done;
    simpl in H; injection H as _ H;
    repeat (destruct u as [|? u]; simpl in H;
            [discriminate H|injection H as _ H]);
    destruct u; discriminate H.
Qed.

Lemma ext_not_with_newline x y :
  In x exts -> In y exts -> x = y +:+ String Re.newline "" -> False.
Proof.
  unfold exts. simpl. intros Hx Hy H.
  repeat (destruct Hy as [<-|Hy]; [|]); try done;
    repeat (destruct Hx as [<-|Hx]; [|]); try done; discriminate H.
Qed.

Lemma match_ext_whole b e :
  In (Py.lower e) exts -> Re.match_here EXT_RE b e = Some "".
Proof.
  intros He.
  assert (is_Some (Re.match_here EXT_RE b e)) as [rest Hrest].
  { unfold EXT_RE. rewrite match_here_to_end.
    apply (matches_lang ext_body eq_refl). exists e, "".
    rewrite append_nil_r. split; [done|]. split; [done|]. by eexists. }
  rewrite Hrest. f_equal.
  apply match_ext_here in Hrest as (pre & -> & Hpre & Heol).
  unfold Re.at_eol in Heol. apply orb_prop in Heol as [E|E];
    apply String.eqb_eq in E; [done|]. subst rest.
  rewrite lower_append in He. by destruct (ext_not_with_newline _ _ He Hpre).
Qed.

Lemma match_ext_none b c stem e :
  In (Py.lower e) exts ->
  Re.match_here EXT_RE b (String c (stem +:+ e)) = None.
Proof.
  intros He. destruct (Re.match_here _ _ _) as [rest|] eqn:E; [|done].
  apply match_ext_here in E as (pre & Hs & Hpre & Heol).
  apply (f_equal Py.lower) in Hs. simpl in Hs. rewrite !lower_append in Hs.
  assert (Py.lower rest = rest) as Hrest.
  { unfold Re.at_eol in Heol. apply orb_prop in Heol as [H|H];
      apply String.eqb_eq in H; by subst. }
  rewrite Hrest in Hs. symmetry in Hs.
  by destruct (ext_not_proper_end _ _ _ _ _ He Hpre Heol Hs).
Qed.

Lemma sub_from_unfold r b s :
  Re.sub_from r b s =
  match Re.match_here r b s with
  | Some rest => rest
  | None =>
      match s with
      | EmptyString => EmptyString
      | String c s' => String c (Re.sub_from r false s')
      end
  end.
Proof. by destruct s. Qed.

(** [re.sub] with the pattern of the extensions takes the extension off. *)
Lemma sub_ext_strips b stem e :
  In (Py.lower e) exts -> Re.sub_from EXT_RE b (stem +:+ e) = stem.
Proof.
  intros He. revert b. induction stem as [|c stem IH]; intros b.
  - change ("" +:+ e) with e.
    by rewrite sub_from_unfold, (match_ext_whole b e He).
  - change (String c stem +:+ e) with (String c (stem +:+ e)).
    by rewrite sub_from_unfold, (match_ext_none _ _ _ _ He), IH.
Qed.

Lemma endswith_unfold s p :
  Py.endswith s p =
  String.eqb s p ||
  match s with
  | EmptyString => false
  | String _ r => Py.endswith r p
  end.
Proof. by destruct s. Qed.

Lemma endswith_split s p :
  Py.endswith s p = true -> exists u, s = u +:+ p.
Proof.
  induction s as [|c s IH]; rewrite endswith_unfold;
    intros [H|H]%orb_prop; try done.
  - apply String.eqb_eq in H as <-. by exists "".
  - apply String.eqb_eq in H as <-. by exists "".
  - destruct (IH H) as [u ->]. by exists (String c u).
Qed.

Lemma image_path_split path :
  image_path path = true ->
  exists p e, path = p +:+ e /\ In (Py.lower e) exts.
Proof.
  unfold image_path. intros (x & Hx & H)%existsb_exists.
  apply endswith_split in H as [u Hu].
  apply lower_split in Hu as (p & e & -> & _ & <-). eauto.
Qed.

Lemma has_char_lower_slash s :
  existsb (Ascii.eqb "/") (list_ascii_of_string (Py.lower s)) =
  existsb (Ascii.eqb "/") (list_ascii_of_string s).
Proof.
  induction s as [|c s IH]; simpl; [done|]. rewrite IH. f_equal.
  destruct c as [[] [] [] [] [] [] [] []]; reflexivity.
Qed.

Lemma has_char_app (sep : ascii) s t :
  existsb (Ascii.eqb sep) (list_ascii_of_string (s +:+ t)) =
  existsb (Ascii.eqb sep) (list_ascii_of_string s)
  || existsb (Ascii.eqb sep) (list_ascii_of_string t).
Proof. induction s as [|c s IH]; simpl; [done|]. by rewrite IH, orb_assoc. Qed.

Lemma rsplit_last_app (sep : ascii) s e :
  existsb (Ascii.eqb sep) (list_ascii_of_string e) = false ->
  Py.rsplit_last sep (s +:+ e) = Py.rsplit_last sep s +:+ e.
Proof.
  intros He. induction s as [|c s IH]; simpl.
  - destruct e as [|x e]; simpl; [done|]. simpl in He.
    apply orb_false_elim in He as [Hx He]. rewrite He.
    by rewrite Ascii.eqb_sym, Hx.
  - rewrite has_char_app, He, orb_false_r, IH.
    destruct (existsb _ (list_ascii_of_string s)); [done|].
    by destruct (Ascii.eqb c sep).
Qed.

(** The key of an image path is the normal form of its last segment
    without the extension. *)
Lemma key_of_path_stem path :
  image_path path = true ->
  exists stem e,
    Py.rsplit_last "/" path = stem +:+ e /\ In (Py.lower e) exts /\
    key_of_path path = normalize_key stem.
Proof.
  intros (p & e & -> & He)%image_path_split.
  assert (existsb (Ascii.eqb "/") (list_ascii_of_string e) = false) as Hsep.
  { rewrite <- has_char_lower_slash. unfold exts in He. simpl in He.
    repeat (destruct He as [<-|He]; [reflexivity|]). done. }
  exists (Py.rsplit_last "/" p), e. unfold key_of_path.
  rewrite (rsplit_last_app _ _ _ Hsep). split; [done|]. split; [done|].
  unfold Re.sub. by rewrite sub_ext_strips.
Qed.

End KeyFacts.

(** ** The resolver *)

Lemma dict_get_of_index (index : gmap string string) k :
  dict_get (of_index index) k = Ok (JStr <$> index !! k).
Proof. unfold of_index, dict_get. by rewrite lookup_fmap. Qed.

Lemma pick_logo_path_cons index c cs :
  pick_logo_path index (c :: cs) =
  match dict_get index (normalize_key c) with
  | Raise e => Raise e
  | Ok path => if truthy path then Ok path else pick_logo_path index cs
  end.
Proof. reflexivity. Qed.

Lemma pick_logo_path_hit (index : gmap string string) c cs p :
  path_at index c = Some p ->
  pick_logo_path (of_index index) (c :: cs) = Ok (Some (JStr p)).
Proof.
  unfold path_at. rewrite pick_logo_path_cons, dict_get_of_index.
  destruct (index !! normalize_key c) as [q|]; [|done]. cbn [fmap option_fmap option_map].
  change (truthy (Some (JStr q))) with (truthy q).
  destruct (truthy q); [|done]. by intros [= ->].
Qed.

Lemma pick_logo_path_miss (index : gmap string string) c cs :
  path_at index c = None ->
  pick_logo_path (of_index index) (c :: cs) = pick_logo_path (of_index index) cs.
Proof.
  unfold path_at. rewrite pick_logo_path_cons, dict_get_of_index.
  destruct (index !! normalize_key c) as [q|]; [|done]. cbn [fmap option_fmap option_map].
  change (truthy (Some (JStr q))) with (truthy q).
  by destruct (truthy q).
Qed.

(** C2, as it is stated, fails where the index binds a key to the empty
    string: the candidate is bound, and the resolver reports no match. *)
Lemma pick_logo_path_skips_empty_value :
  let index : gmap string string := {[ "espn" := "" ]} in
  bound_at index "ESPN" = Some "" /\
  pick_logo_path (of_index index) ["ESPN"] = Ok None /\
  ~ first_match (bound_at index) ["ESPN"] None.
Proof.
  split; [by vm_compute|]. split; [by vm_compute|].
  simpl. intros H. apply Forall_cons in H as [H _]. by vm_compute in H.
Qed.

(** C2, amended. The resolver returns the index value of the first
    candidate, in list order, whose normalized form is bound to a path that
    is not empty, and no match only if every candidate is unbound or bound
    to the empty path; with the index espn -> Sports/ESPN.png, the
    candidates ESPN US, ESPN resolve to Sports/ESPN.png. *)
Theorem pick_logo_path_first_path :
  (forall (index : gmap string string) (candidates : list string),
     exists r,
       pick_logo_path (of_index index) candidates = Ok (JStr <$> r) /\
       first_match (path_at index) candidates r) /\
  pick_logo_path (of_index {[ "espn" := "Sports/ESPN.png" ]}) ["ESPN US"; "ESPN"]
  = Ok (Some (JStr "Sports/ESPN.png")).
Proof.
  split; [|by vm_compute].
  intros index candidates. induction candidates as [|c cs (r & Hr & Hfirst)].
  - exists None. split; [done|]. constructor.
  - destruct (path_at index c) as [p|] eqn:E.
    + exists (Some p). split; [by apply pick_logo_path_hit|].
      exists [], c, cs. split; [done|]. split; [done|]. constructor.
    + exists r. split; [by rewrite pick_logo_path_miss|].
      destruct r as [p|]; simpl in *.
      * destruct Hfirst as (before & c' & after & -> & Hc' & Hbefore).
        exists (c :: before), c', after. split; [done|]. split; [done|].
        by constructor.
      * by constructor.
Qed.

(** ** The index of a listing *)

#[local] Arguments image_path : simpl never.

Lemma setdefault_lookup k v (index : gmap string string) k' :
  setdefault k v index !! k' =
  match index !! k' with
  | Some p => Some p
  | None => if decide (k = k') then Some v else None
  end.
Proof.
  unfold setdefault. destruct (index !! k) as [q|] eqn:E.
  - destruct (index !! k') eqn:E'; [done|].
    case_decide; [congruence|done].
  - rewrite lookup_insert. case_decide; subst.
    + by rewrite E.
    + by destruct (index !! k').
Qed.

(** One turn of the loop files the entry of the node, if it has one. *)
Lemma index_node_entry index node index' :
  index_node index node = Ok index' ->
  index' = match entry_of node with
           | Some (k, p) => setdefault k p index
           | None => index
           end.
Proof.
  unfold index_node, entry_of.
  destruct node as [| | | | |m]; try done. simpl.
  destruct (m !! "type") as [[| | |ty| |]|]; simpl; try by intros [= <-].
  destruct (String.eqb ty "blob"); simpl.
  2: by destruct (m !! "path") as [[]|]; intros [= <-].
  destruct (m !! "path") as [[|b|n|path|l|m']|]; simpl.
  - by intros [= <-].
  - destruct b; simpl; [done|by intros [= <-]].
  - change (truthy (JNum n)) with (negb (Qeq_bool n 0)).
    destruct (Qeq_bool n 0); simpl; [by intros [= <-]|done].
  - change (truthy (JStr path)) with (negb (String.eqb path "")).
    destruct (String.eqb_spec path "") as [->|_]; cbn [negb];
      [by intros [= <-]|].
    destruct (image_path path); simpl; by intros [= <-].
  - destruct l; simpl; [by intros [= <-]|done].
  - change (truthy (JObj m')) with (negb (bool_decide (m' = ∅))).
    destruct (bool_decide (m' = ∅)); simpl; [by intros [= <-]|done].
  - by intros [= <-].
Qed.

Lemma entry_of_image node k path :
  entry_of node = Some (k, path) ->
  image_path path = true /\ k = key_of_path path.
Proof.
  unfold entry_of. destruct node as [| | | | |m]; try done.
  destruct (m !! "type") as [[| | |ty| |]|]; try done.
  destruct (m !! "path") as [[| | |p| |]|]; try done.
  destruct (String.eqb ty "blob"); simpl; [|done].
  destruct (image_path p) eqn:E; [|done]. by intros [= <- <-].
Qed.

Lemma first_writer_cons k node nodes :
  first_writer k (node :: nodes) =
  match entry_of node with
  | Some (k', p) => if decide (k' = k) then Some p else first_writer k nodes
  | None => first_writer k nodes
  end.
Proof.
  unfold first_writer. simpl. destruct (entry_of node) as [[k' p]|]; [|done].
  rewrite filter_cons. simpl. by case_decide.
Qed.

Lemma index_nodes_lookup nodes : forall index0 index,
  index_nodes index0 nodes = Ok index ->
  forall k, index !! k = match index0 !! k with
                         | Some p => Some p
                         | None => first_writer k nodes
                         end.
Proof.
  induction nodes as [|node nodes IH]; simpl; intros index0 index H k.
  - injection H as <-. by destruct (index0 !! k).
  - destruct (index_node index0 node) as [index1|] eqn:E; [|done].
    apply index_node_entry in E. rewrite (IH _ _ H k), first_writer_cons. subst.
    destruct (entry_of node) as [[k' p]|]; [|done].
    rewrite setdefault_lookup. destruct (index0 !! k); [done|].
    by case_decide.
Qed.

(** A listing whose nodes are objects with a string, or nothing, for a
    path is indexed without an exception. *)
Lemma index_nodes_total nodes : forall index0,
  Forall (fun node => exists m, node = JObj m /\
            match m !! "path" with
            | Some (JStr _) | None => True
            | Some _ => False
            end) nodes ->
  exists index, index_nodes index0 nodes = Ok index.
Proof.
  induction nodes as [|node nodes IH]; simpl; intros index0 H; [by eauto|].
  apply Forall_cons in H as [(m & -> & Hm) H].
  assert (exists index1, index_node index0 (JObj m) = Ok index1) as [index1 ->].
  { unfold index_node. simpl. destruct (eq_str _ _); simpl; [|by eauto].
    destruct (m !! "path") as [[]|]; try done; simpl.
    - destruct (truthy _); destruct (image_path _); simpl; eauto.
    - eauto. }
  by apply IH.
Qed.

(** ** The index builder *)

Lemma Qltb_lt (a b : Q) : Qltb a b = true <-> (a < b)%Q.
Proof.
  unfold Qltb. rewrite negb_true_iff, <- not_true_iff_false, Qle_bool_iff.
  split; [apply Qnot_le_lt|apply Qlt_not_le].
Qed.

Lemma load_cache_eq cp w :
  load_cache cp w =
  (match cached_value cp w with
   | Some idx => Ok idx
   | None =>
       match files w !! cp with
       | None => Raise OSError
       | Some f => match content f with
                   | None => Raise JSONDecodeError
                   | Some _ => Raise TypeError
                   end
       end
   end, w).
Proof.
  unfold load_cache, cached_value.
  destruct (files w !! cp) as [f|]; [|done].
  destruct (content f) as [idx|]; [|done]. by destruct (has_len idx).
Qed.

Lemma fresh_cache_eq cp w : fresh_cache cp w = (Ok (fresh_value cp w), w).
Proof.
  unfold fresh_cache, try_except, fresh_value, is_fresh.
  destruct (files w !! cp) as [f|] eqn:E; [|done].
  destruct (Qltb _ _); [|done].
  unfold bind. rewrite load_cache_eq.
  destruct (cached_value cp w); [done|].
  rewrite E. by destruct (content f).
Qed.

Lemma stale_cache_eq cp w :
  stale_cache cp w = (Ok (default (JObj ∅) (cached_value cp w)), w).
Proof.
  unfold stale_cache, try_except. rewrite load_cache_eq.
  destruct (cached_value cp w) eqn:E.
  - unfold cached_value in E. by destruct (files w !! cp).
  - destruct (files w !! cp) as [f|]; [|done]. by destruct (content f).
Qed.

(** The four ways through [build_index]. *)
Lemma build_index_cached dir w idx :
  fresh_value (path_join dir INDEX_BASENAME) w = Some idx ->
  build_index dir w = (Ok idx, w).
Proof. intros H. unfold build_index, bind. by rewrite fresh_cache_eq, H. Qed.

Lemma build_index_fetch_failed dir w e :
  fresh_value (path_join dir INDEX_BASENAME) w = None ->
  listing w = Raise e ->
  build_index dir w =
  (Ok (default (JObj ∅) (cached_value (path_join dir INDEX_BASENAME) w)),
   emit ListingFetched w).
Proof.
  intros H He. unfold build_index, bind. rewrite fresh_cache_eq, H.
  unfold _http_get_tree. rewrite He.
  destruct e; by rewrite stale_cache_eq.
Qed.

Lemma build_index_built dir w tree index :
  fresh_value (path_join dir INDEX_BASENAME) w = None ->
  listing w = Ok tree ->
  index_of_tree tree = Ok index ->
  build_index dir w =
  (Ok (of_index index), built (path_join dir INDEX_BASENAME) index w).
Proof.
  intros H Ht Hi. unfold build_index, bind. rewrite fresh_cache_eq, H.
  unfold _http_get_tree. rewrite Ht. unfold lift. rewrite Hi.
  unfold try_except, write_cache, built. by destruct (writable _ _).
Qed.

Lemma build_index_payload_raises dir w tree e :
  fresh_value (path_join dir INDEX_BASENAME) w = None ->
  listing w = Ok tree ->
  index_of_tree tree = Raise e ->
  build_index dir w = (Raise e, emit ListingFetched w).
Proof.
  intros H Ht Hi. unfold build_index, bind. rewrite fresh_cache_eq, H.
  unfold _http_get_tree. rewrite Ht. unfold lift. by rewrite Hi.
Qed.

(** What [build_index] returns is a matter of the cache file, the clock
    and the listing alone. *)
Lemma build_index_result dir w :
  fst (build_index dir w) =
  match fresh_value (path_join dir INDEX_BASENAME) w with
  | Some idx => Ok idx
  | None =>
      match listing w with
      | Raise _ => Ok (default (JObj ∅)
                         (cached_value (path_join dir INDEX_BASENAME) w))
      | Ok tree =>
          match index_of_tree tree with
          | Ok index => Ok (of_index index)
          | Raise e => Raise e
          end
      end
  end.
Proof.
  destruct (fresh_value _ w) as [idx|] eqn:E.
  { by rewrite (build_index_cached _ _ _ E). }
  destruct (listing w) as [tree|e] eqn:El.
  - destruct (index_of_tree tree) as [index|e] eqn:Ei.
    + by rewrite (build_index_built _ _ _ _ E El Ei).
    + by rewrite (build_index_payload_raises _ _ _ _ E El Ei).
  - by rewrite (build_index_fetch_failed _ _ _ E El).
Qed.

Lemma build_index_result_ext dir w1 w2 :
  files w1 = files w2 -> now w1 = now w2 -> listing w1 = listing w2 ->
  fst (build_index dir w1) = fst (build_index dir w2).
Proof.
  intros Hf Hn Hl. rewrite !build_index_result.
  unfold fresh_value, is_fresh, cached_value. by rewrite Hf, Hn, Hl.
Qed.

(** C1, as it is stated, fails on a payload that decodes but is not the
    object of the listing: with a cache file at hand, a payload that is a
    JSON array raises [AttributeError] out of [build_index], and a payload
    that is an object without a [tree] member yields a new empty index
    rather than the cached one. *)
Lemma build_index_malformed_payload :
  cached_value sample_cache_path stale_world
  = Some (of_index {[ "espn" := "Sports/ESPN.png" ]}) /\
  fst (build_index "/data/logos" (with_listing (Ok (JArr [])) stale_world))
  = Raise AttributeError /\
  fst (build_index "/data/logos" (with_listing (Ok (JObj ∅)) stale_world))
  = Ok (of_index ∅).
Proof. split; [|split]; by vm_compute. Qed.

(** C1, amended. Whenever the fetch of the listing raises, be it a
    transport or HTTP error or a payload that does not decode as JSON,
    [build_index] raises nothing: it returns what the cache file holds if
    one exists, of any age, that parses to a value with a length, and the
    empty mapping otherwise. A payload that decodes to an object without
    a [tree] member is no error to it: it is an empty listing and yields
    a new, empty index. *)
Theorem build_index_stale_on_error (dir : string) (w : world) :
  let cache_path := path_join dir INDEX_BASENAME in
  (forall e,
     listing w = Raise e ->
     fst (build_index dir w) = Ok (default (JObj ∅) (cached_value cache_path w)))
  /\
  (forall tree : gmap string json,
     fresh_value cache_path w = None ->
     listing w = Ok (JObj tree) ->
     tree !! "tree" = None ->
     fst (build_index dir w) = Ok (of_index ∅)).
Proof.
  intros cache_path. split.
  - intros e He.
    destruct (fresh_value cache_path w) as [idx|] eqn:E.
    + rewrite (build_index_cached _ _ _ E). unfold fresh_value in E.
      destruct (is_fresh _ _); [|done]. by rewrite E.
    + by rewrite (build_index_fetch_failed _ _ _ E He).
  - intros tree Hfresh Hlisting Htree.
    rewrite (build_index_built _ _ _ ∅ Hfresh Hlisting); [done|].
    unfold index_of_tree. simpl. by rewrite Htree.
Qed.

Lemma build_index_stale_on_error_witness :
  let w1 := with_listing (Raise (HTTPError 403)) stale_world in
  let w2 := with_listing (Ok (JObj ∅)) stale_world in
  fst (build_index "/data/logos" w1)
  = Ok (of_index {[ "espn" := "Sports/ESPN.png" ]}) /\
  fst (build_index "/data/logos" w2) = Ok (of_index ∅).
Proof.
  intros w1 w2. split.
  - destruct (build_index_stale_on_error "/data/logos" w1) as [H _].
    rewrite (H (HTTPError 403)); [|reflexivity]. vm_compute. reflexivity.
  - destruct (build_index_stale_on_error "/data/logos" w2) as [_ H].
    apply (H ∅); vm_compute; reflexivity.
Defined.

(** C4. When the index is built from a fetched listing, each key is bound
    to the path of the first node, in listing order, that is a leaf file
    with a path ending in an image extension, in any case of letters, and
    whose base name, without the extension, normalizes to the key; no
    other node contributes an entry. *)
Theorem build_index_first_writer_wins (dir : string) (w : world)
    (tree : gmap string json) (nodes : list json) (index : gmap string string) :
  fresh_value (path_join dir INDEX_BASENAME) w = None ->
  listing w = Ok (JObj tree) ->
  tree !! "tree" = Some (JArr nodes) ->
  index_nodes ∅ nodes = Ok index ->
  fst (build_index dir w) = Ok (of_index index) /\
  (forall k, index !! k = first_writer k nodes) /\
  (forall node k path,
     entry_of node = Some (k, path) ->
     exists stem e,
       Py.rsplit_last "/" path = stem +:+ e /\ In (Py.lower e) exts /\
       k = normalize_key stem).
Proof.
  intros Hfresh Hlisting Htree Hnodes. split; [|split].
  - rewrite (build_index_built _ _ _ index Hfresh Hlisting); [done|].
    unfold index_of_tree. simpl. by rewrite Htree.
  - intros k. by rewrite (index_nodes_lookup _ _ _ Hnodes k), lookup_empty.
  - intros node k path (Himg & ->)%entry_of_image.
    by apply key_of_path_stem.
Qed.

Lemma build_index_first_writer_wins_witness :
  let nodes := [ node "blob" "Sports/ESPN.png"; node "tree" "Sports";
                 node "blob" "Other/espn.JPG"; node "blob" "News/CNN.svg";
                 node "blob" "README.md" ] in
  let index : gmap string string :=
    {[ "espn" := "Sports/ESPN.png"; "cnn" := "News/CNN.svg" ]} in
  fst (build_index "/data/logos" sample_world) = Ok (of_index index) /\
  index !! "espn" = first_writer "espn" nodes.
Proof.
  intros nodes index.
  destruct (build_index_first_writer_wins "/data/logos" sample_world
              {[ "tree" := JArr nodes ]} nodes index) as (H1 & H2 & _);
    try (vm_compute; reflexivity).
  split; [exact H1|apply H2].
Defined.

(** C7. After [build_index] has built a mapping from a fetched listing and
    written it to the cache file, a later call that finds this file
    younger than the TTL of six hours returns the same mapping and leaves
    the world as it is: nothing is fetched. *)
Theorem build_index_cache_round_trip (dir : string) (w w2 : world)
    (tree : json) (index : gmap string string) :
  let cache_path := path_join dir INDEX_BASENAME in
  fresh_value cache_path w = None ->
  listing w = Ok tree ->
  index_of_tree tree = Ok index ->
  writable w cache_path = true ->
  files w2 !! cache_path = files (snd (build_index dir w)) !! cache_path ->
  (now w2 - now w < INDEX_TTL_SECS)%Q ->
  fst (build_index dir w) = Ok (of_index index) /\
  build_index dir w2 = (Ok (of_index index), w2).
Proof.
  intros cache_path Hfresh Hlisting Hindex Hwr Hfile Hage.
  rewrite (build_index_built _ _ _ _ Hfresh Hlisting Hindex) in Hfile |- *.
  split; [done|]. apply build_index_cached. fold cache_path.
  unfold built in Hfile. simpl in Hfile. fold cache_path in Hfile.
  rewrite Hwr in Hfile. simpl in Hfile. rewrite lookup_insert_eq in Hfile.
  unfold fresh_value, is_fresh, cached_value. rewrite Hfile. simpl.
  apply Qltb_lt in Hage. by rewrite Hage.
Qed.

Lemma build_index_cache_round_trip_witness :
  let w1 := snd (build_index "/data/logos" sample_world) in
  let w2 := with_listing (Raise URLError) (with_now 21699 w1) in
  build_index "/data/logos" w2
  = (Ok (of_index {[ "espn" := "Sports/ESPN.png"; "cnn" := "News/CNN.svg" ]}), w2).
Proof.
  intros w1 w2.
  apply (build_index_cache_round_trip "/data/logos" sample_world w2 sample_tree).
  - vm_compute. reflexivity.
  - reflexivity.
  - vm_compute. reflexivity.
  - reflexivity.
  - reflexivity.
  - vm_compute. reflexivity.
Defined.

(** ** Effects of the steps of a pass *)

Section Effects.

Context (P : event -> Prop).

Lemma emits_ret {A} (a : A) : emits P (ret a).
Proof. intros w. split; [done|]. exists []. by rewrite app_nil_r. Qed.

Lemma emits_raise {A} e : emits P (raise (A := A) e).
Proof. intros w. split; [done|]. exists []. by rewrite app_nil_r. Qed.

Lemma emits_lift {A} (r : result A) : emits P (lift r).
Proof. intros w. split; [done|]. exists []. by rewrite app_nil_r. Qed.

Lemma emits_pure {A} (f : world -> result A) : emits P (fun w => (f w, w)).
Proof. intros w. split; [done|]. exists []. by rewrite app_nil_r. Qed.

Lemma emits_bind {A B} (m : M A) (k : A -> M B) :
  emits P m -> (forall a, emits P (k a)) -> emits P (bind m k).
Proof.
  intros Hm Hk w. unfold bind.
  destruct (Hm w) as (Hq & new & Ht & Hnew).
  destruct (m w) as [[a|e] w1]; simpl in *.
  - destruct (Hk a w1) as (Hq' & new' & Ht' & Hnew').
    split; [congruence|]. exists (new ++ new').
    rewrite Ht', Ht, app_assoc. split; [done|]. by apply Forall_app.
  - eauto.
Qed.

Lemma emits_try_except {A} (m : M A) (h : exn -> M A) :
  emits P m -> (forall e, emits P (h e)) -> emits P (try_except m h).
Proof.
  intros Hm Hh w. unfold try_except.
  destruct (Hm w) as (Hq & new & Ht & Hnew).
  destruct (m w) as [[a|e] w1]; simpl in *.
  - eauto.
  - destruct (Hh e w1) as (Hq' & new' & Ht' & Hnew').
    split; [congruence|]. exists (new ++ new').
    rewrite Ht', Ht, app_assoc. split; [done|]. by apply Forall_app.
Qed.

Lemma emits_one {A} (e : event) (f : world -> result A) (g : world -> world) :
  P e ->
  (forall w, query (g w) = query w) -> (forall w, trace (g w) = trace w) ->
  emits P (fun w => (f w, emit e (g w))).
Proof.
  intros He Hq Ht w. simpl. split; [done|]. exists [e].
  rewrite Ht. split; [done|]. by constructor.
Qed.

Lemma emits_if {A} (c : world -> bool) (m1 m2 : M A) :
  emits P m1 -> emits P m2 -> emits P (fun w => if c w then m1 w else m2 w).
Proof. intros H1 H2 w. destruct (c w); [apply H1|apply H2]. Qed.

End Effects.

Lemma emits_weaken {A} (P Q : event -> Prop) (m : M A) :
  (forall e, P e -> Q e) -> emits P m -> emits Q m.
Proof.
  intros HPQ Hm w. destruct (Hm w) as (Hq & new & Ht & Hnew).
  split; [done|]. exists new. split; [done|].
  eapply Forall_impl; [exact Hnew|done].
Qed.

Lemma acquire_lock_emits : emits setup_event _acquire_lock.
Proof.
  unfold _acquire_lock. apply emits_if; [apply emits_ret|].
  apply emits_if; [|apply emits_ret].
  by apply (emits_one _ LockWritten (fun _ => Ok true) (fun w => set_lock (now w) w)).
Qed.

Lemma ensure_dir_emits P dir : P (DirMade dir) -> emits P (ensure_dir dir).
Proof.
  intros HP. unfold ensure_dir.
  apply (emits_if _ (fun w => mkdir_ok w dir)); [|apply emits_raise].
  by apply (emits_one _ (DirMade dir) (fun _ => Ok tt) (fun w => w)).
Qed.

Lemma build_index_emits dir : emits setup_event (build_index dir).
Proof.
  intros w.
  destruct (fresh_value (path_join dir INDEX_BASENAME) w) as [idx|] eqn:E.
  { rewrite (build_index_cached _ _ _ E). split; [done|].
    exists []. by rewrite app_nil_r. }
  destruct (listing w) as [tree|e] eqn:El.
  - destruct (index_of_tree tree) as [index|e] eqn:Ei.
    + rewrite (build_index_built _ _ _ _ E El Ei). unfold built. simpl.
      destruct (writable w _); simpl; (split; [done|]).
      * exists [ListingFetched; CacheWritten (path_join dir INDEX_BASENAME)].
        rewrite <- app_assoc. split; [done|]. by repeat constructor.
      * exists [ListingFetched]. split; [done|]. by repeat constructor.
    + rewrite (build_index_payload_raises _ _ _ _ E El Ei). split; [done|].
      exists [ListingFetched]. split; [done|]. by repeat constructor.
  - rewrite (build_index_fetch_failed _ _ _ E El). split; [done|].
    exists [ListingFetched]. split; [done|]. by repeat constructor.
Qed.

(** ** The run lock *)

(** C5. If at the entry of a pass the lock marker is there and younger
    than 60 seconds, the pass returns at once the summary with every
    counter at zero and the reason locked, and the world is as before: no
    index was built, nothing downloaded, nothing assigned. *)
Theorem do_pass_locked (w : world) (t : Q) :
  lock w = Some t ->
  (now w - t < 60)%Q ->
  _do_pass w = (Ok (Summary true (Some "locked") zero (DEFAULT_LOGOS_DIR w)), w).
Proof.
  intros Hlock Hage. apply Qltb_lt in Hage.
  unfold _do_pass, bind, _acquire_lock, lock_fresh, locked.
  by rewrite Hlock, Hage.
Qed.

Lemma do_pass_locked_witness :
  lock locked_world = Some 100%Q /\
  (now locked_world - 100 < 60)%Q /\
  _do_pass locked_world
  = (Ok (Summary true (Some "locked") zero "/data/logos"), locked_world).
Proof.
  split; [reflexivity|]. split; [by vm_compute|].
  apply (do_pass_locked locked_world 100); [reflexivity|by vm_compute].
Defined.

(** ** The loop over the entities *)

Lemma download_logo_emits path dir :
  emits (fun e => ~ is_assignment e) (download_logo path dir).
Proof.
  unfold download_logo.
  apply emits_bind; [apply ensure_dir_emits; simpl; tauto|]. intros _.
  apply emits_bind.
  { unfold _http_get_raw. destruct path; try apply emits_raise.
    apply (emits_one _ (RawFetched s) (fun w => raw w s) (fun w => w));
      simpl; tauto. }
  intros data. destruct path; try apply emits_raise.
  apply emits_bind; [|intros _; apply emits_ret].
  unfold write_logo.
  apply (emits_if _ (fun w => writable w _)); [|apply emits_raise].
  apply (emits_one _ (LogoWritten _) (fun _ => Ok tt) (fun w => w));
    simpl; tauto.
Qed.

Lemma keeps_logo_spec ch :
  keeps_logo ch = true <->
  truthy (logo_val ch) = true /\ is_placeholder (logo_val ch) = false.
Proof.
  unfold keeps_logo. destruct (logo_val ch) as [s|]; simpl.
  - by rewrite andb_true_iff, negb_true_iff.
  - split; [done|by intros [? _]].
Qed.

(** No event of a turn of the loop assigns to an entity that keeps its
    logo. *)
Lemma scan_channel_emits ch0 index dir c ch :
  keeps_logo ch0 = true ->
  emits (fun e => forall lp ln, e <> Assigned ch0 lp ln)
        (scan_channel index dir c ch).
Proof.
  intros H0. unfold scan_channel.
  destruct (keeps_logo ch) eqn:Hch; [apply emits_ret|].
  apply emits_bind; [apply emits_lift|]. intros [path|]; [|apply emits_ret].
  destruct (negb (truthy path)); [apply emits_ret|].
  apply emits_bind.
  { apply emits_try_except.
    - apply emits_bind; [|intros ?; apply emits_ret].
      eapply emits_weaken; [|apply download_logo_emits].
      intros e He lp ln ->. by apply He.
    - intros []; apply emits_ret. }
  intros [[lp ln]|]; [|apply emits_ret].
  apply emits_bind.
  { unfold _assign_logo.
    apply (emits_one _ (Assigned ch lp ln) (fun w => Ok (assign_ok w ch lp ln))
             (fun w => w)); [|done..].
    intros lp' ln' [= -> _ _]. congruence. }
  intros []; apply emits_ret.
Qed.

Lemma scan_emits ch0 index dir qs : forall c,
  keeps_logo ch0 = true ->
  emits (fun e => forall lp ln, e <> Assigned ch0 lp ln) (scan index dir c qs).
Proof.
  induction qs as [|ch qs IH]; simpl; intros c H0; [apply emits_ret|].
  apply emits_bind; [by apply scan_channel_emits|]. intros c'. by apply IH.
Qed.

Lemma do_pass_emits ch0 :
  keeps_logo ch0 = true ->
  emits (fun e => forall lp ln, e <> Assigned ch0 lp ln) _do_pass.
Proof.
  intros H0. unfold _do_pass.
  apply emits_bind.
  { eapply emits_weaken; [|apply acquire_lock_emits]. by intros [] H ??. }
  intros acquired. destruct (negb acquired); [apply emits_pure|].
  apply emits_bind; [apply emits_pure|].
  intros dir. apply emits_bind; [by apply ensure_dir_emits|]. intros _.
  apply emits_bind; [apply emits_pure|].
  intros models. destruct (_ || _); [apply emits_ret|].
  apply emits_bind.
  { eapply emits_weaken; [|apply build_index_emits]. by intros [] H ??. }
  intros index. apply emits_bind.
  { apply emits_try_except; [|intros ?; apply emits_ret].
    apply emits_bind; [apply emits_pure|intros ?; apply emits_ret]. }
  intros [qs|]; [|apply emits_ret].
  apply emits_bind; [by apply scan_emits|]. intros c.
  apply emits_bind; [|intros ?; apply emits_ret].
  unfold end_of. destruct (ends qs); [apply emits_raise|apply emits_ret].
Qed.

(** C8. An entity whose logo reference is present and no placeholder is
    counted as skipped and nothing else happens in its turn: no lookup, no
    download, no assignment; and no pass ever assigns a logo to it. *)
Theorem scan_channel_keeps_logo (index : json) (dir : string) (ch : channel) :
  truthy (logo_val ch) = true ->
  is_placeholder (logo_val ch) = false ->
  (forall c w, scan_channel index dir c ch w = (Ok (incr_skipped c), w)) /\
  (forall w, exists new,
      trace (snd (_do_pass w)) = trace w ++ new /\
      forall lp ln, ~ In (Assigned ch lp ln) new).
Proof.
  intros Htruthy Hreal.
  assert (keeps_logo ch = true) as Hkeep by by apply keeps_logo_spec.
  split.
  - intros c w. unfold scan_channel. by rewrite Hkeep.
  - intros w. destruct (do_pass_emits ch Hkeep w) as (_ & new & Ht & Hnew).
    exists new. split; [done|]. intros lp ln Hin.
    apply list_elem_of_In in Hin.
    rewrite Forall_forall in Hnew. by apply (Hnew _ Hin lp ln).
Qed.

Lemma scan_channel_keeps_logo_witness :
  let ch := Channel None (Some "HBO") (Some "https://cdn/x/HBO.png") in
  scan_channel (of_index {[ "hbo" := "Movies/HBO.png" ]}) "/data/logos" zero ch
    sample_world
  = (Ok (Counters 0 0 1 0), sample_world).
Proof.
  intros ch.
  apply (scan_channel_keeps_logo (of_index {[ "hbo" := "Movies/HBO.png" ]})
           "/data/logos" ch); by vm_compute.
Defined.


(** ** The pass, step by step *)

Lemma after_setup_same w :
  lock_fresh w = false ->
  files (after_setup w) = files w /\ now (after_setup w) = now w /\
  listing (after_setup w) = listing w /\ query (after_setup w) = query w /\
  assign_ok (after_setup w) = assign_ok w /\
  exists new, trace (after_setup w) = trace w ++ new /\ Forall setup_event new.
Proof.
  intros Hlock. unfold after_setup, _acquire_lock. rewrite Hlock.
  destruct (lock_writable w); simpl; repeat split.
  - exists [LockWritten; DirMade (logos_dir_of w)].
    rewrite <- app_assoc. split; [done|]. by repeat constructor.
  - exists [DirMade (logos_dir_of w)]. split; [done|]. by repeat constructor.
Qed.

Lemma bind_ok {A B} (m : M A) (k : A -> M B) w a w1 :
  m w = (Ok a, w1) -> bind m k w = k a w1.
Proof. intros H. unfold bind. by rewrite H. Qed.

Lemma acquire_lock_taken w :
  lock_fresh w = false -> _acquire_lock w = (Ok true, snd (_acquire_lock w)).
Proof.
  intros H. unfold _acquire_lock. rewrite H. by destruct (lock_writable w).
Qed.

Lemma acquire_lock_same w :
  mkdir_ok (snd (_acquire_lock w)) = mkdir_ok w /\
  logos_dir_of (snd (_acquire_lock w)) = logos_dir_of w /\
  channel_model (snd (_acquire_lock w)) = channel_model w /\
  logo_model (snd (_acquire_lock w)) = logo_model w.
Proof.
  unfold _acquire_lock. destruct (lock_fresh w); [done|].
  by destruct (lock_writable w).
Qed.

(** A pass that takes the lock, makes the directory and finds the models
    goes on with the index. *)
Lemma do_pass_main w :
  lock_fresh w = false ->
  mkdir_ok w (logos_dir_of w) = true ->
  channel_model w = true -> logo_model w = true ->
  _do_pass w = main_pass (logos_dir_of w) (after_setup w).
Proof.
  intros Hlock Hmk Hch Hlg.
  destruct (acquire_lock_same w) as (Hmk1 & Hdir1 & Hch1 & Hlg1).
  unfold _do_pass. rewrite (bind_ok _ _ _ _ _ (acquire_lock_taken w Hlock)).
  cbn [negb]. set (w1 := snd (_acquire_lock w)) in *.
  rewrite (bind_ok _ _ w1 (logos_dir_of w) w1) by (by rewrite <- Hdir1).
  rewrite (bind_ok _ _ w1 tt (emit (DirMade (logos_dir_of w)) w1)).
  2: { unfold ensure_dir. by rewrite Hmk1, Hmk. }
  rewrite (bind_ok _ _ _ (true, true) (emit (DirMade (logos_dir_of w)) w1)).
  2: { unfold _get_channel_and_logo_models. simpl. by rewrite Hch1, Hch, Hlg1, Hlg. }
  done.
Qed.

Lemma do_pass_no_models w :
  lock_fresh w = false ->
  mkdir_ok w (logos_dir_of w) = true ->
  channel_model w && logo_model w = false ->
  _do_pass w
  = (Ok (Summary false (Some "models-not-found") zero (logos_dir_of w)),
     after_setup w).
Proof.
  intros Hlock Hmk Hfound.
  destruct (acquire_lock_same w) as (Hmk1 & Hdir1 & Hch1 & Hlg1).
  unfold _do_pass. rewrite (bind_ok _ _ _ _ _ (acquire_lock_taken w Hlock)).
  cbn [negb]. set (w1 := snd (_acquire_lock w)) in *.
  rewrite (bind_ok _ _ w1 (logos_dir_of w) w1) by (by rewrite <- Hdir1).
  rewrite (bind_ok _ _ w1 tt (emit (DirMade (logos_dir_of w)) w1)).
  2: { unfold ensure_dir. by rewrite Hmk1, Hmk. }
  rewrite (bind_ok _ _ _ (channel_model w, logo_model w)
             (emit (DirMade (logos_dir_of w)) w1)).
  2: { unfold _get_channel_and_logo_models. simpl. by rewrite Hch1, Hlg1. }
  simpl. by destruct (channel_model w), (logo_model w).
Qed.


Lemma do_pass_cases w :
  let dir := logos_dir_of w in
  (lock_fresh w = true /\
   _do_pass w = (Ok (Summary true (Some "locked") zero (DEFAULT_LOGOS_DIR w)), w))
  \/
  (lock_fresh w = false /\ mkdir_ok w dir = false /\
   _do_pass w = (Raise OSError, snd (_acquire_lock w)))
  \/
  (lock_fresh w = false /\ mkdir_ok w dir = true /\
   channel_model w && logo_model w = false /\
   _do_pass w
   = (Ok (Summary false (Some "models-not-found") zero dir), after_setup w))
  \/
  (lock_fresh w = false /\ mkdir_ok w dir = true /\
   channel_model w && logo_model w = true /\
   _do_pass w = main_pass dir (after_setup w)).
Proof.
  intros dir. destruct (lock_fresh w) eqn:Hlock.
  { left. split; [done|]. unfold _do_pass, bind, _acquire_lock.
    by rewrite Hlock. }
  right. destruct (mkdir_ok w dir) eqn:Hmk.
  - right. destruct (channel_model w && logo_model w) eqn:Hfound.
    + right. apply andb_prop in Hfound as [Hch Hlg].
      by rewrite (do_pass_main w Hlock Hmk Hch Hlg).
    + left. by rewrite (do_pass_no_models w Hlock Hmk Hfound).
  - left. repeat split.
    destruct (acquire_lock_same w) as (Hmk1 & Hdir1 & _).
    unfold _do_pass. rewrite (bind_ok _ _ _ _ _ (acquire_lock_taken w Hlock)).
    cbn [negb]. set (w1 := snd (_acquire_lock w)) in *.
    rewrite (bind_ok _ _ w1 (logos_dir_of w) w1) by (by rewrite <- Hdir1).
    unfold bind, ensure_dir. fold dir. by rewrite Hmk1, Hmk.
Qed.

Lemma main_pass_cases dir w0 :
  main_pass dir w0 =
  match build_index dir w0 with
  | (Raise e, w3) => (Raise e, w3)
  | (Ok index, w3) =>
      match query w3 with
      | Raise _ => (Ok (Summary false (Some "query-error") zero dir), w3)
      | Ok qs =>
          match scan index dir zero (entities qs) w3 with
          | (Ok c, w4) =>
              (match ends qs with
               | Some e => Raise e
               | None => Ok (Summary true None c dir)
               end, w4)
          | (Raise e, w4) => (Raise e, w4)
          end
      end
  end.
Proof.
  unfold main_pass, bind at 1.
  destruct (build_index dir w0) as [[index|e] w3]; [|done].
  unfold bind at 1, try_except, bind at 1, objects_all, ret.
  destruct (query w3) as [qs|]; [|done]. unfold bind.
  destruct (scan index dir zero (entities qs) w3) as [[c|e] w4]; [|done].
  unfold end_of. by destruct (ends qs).
Qed.

Lemma after_setup_trace w :
  lock_fresh w = false ->
  trace (after_setup w)
  = trace w ++ (if lock_writable w then [LockWritten] else [])
      ++ [DirMade (logos_dir_of w)].
Proof.
  intros Hlock. unfold after_setup, _acquire_lock. rewrite Hlock.
  destruct (lock_writable w); simpl; [|done]. by rewrite <- app_assoc.
Qed.


Lemma new_events_app {A} (m : M A) w new :
  trace (snd (m w)) = trace w ++ new -> new_events m w = new.
Proof. intros H. unfold new_events. by rewrite H, drop_app_length. Qed.

(** ** Missing collaborators *)

(** C6, as it is stated, fails twice. On its last words: when the models
    are not found the lock marker has been written and the logo directory
    made, and when the call of the query raises the listing has been
    fetched and the cache file written as well. And on the query: when
    the call of the query returns and the iteration over its answer
    raises, the pass returns no summary, the exception leaves it. *)
Lemma do_pass_collaborator_missing_effects :
  trace no_models_world = [] /\
  lock no_models_world = None /\
  fst (_do_pass no_models_world)
  = Ok (Summary false (Some "models-not-found") zero "/data/logos") /\
  trace (snd (_do_pass no_models_world))
  = [LockWritten; DirMade "/data/logos"] /\
  lock (snd (_do_pass no_models_world)) = Some 100%Q /\
  trace query_error_world = [] /\
  fst (_do_pass query_error_world)
  = Ok (Summary false (Some "query-error") zero "/data/logos") /\
  trace (snd (_do_pass query_error_world))
  = [LockWritten; DirMade "/data/logos"; ListingFetched;
     CacheWritten "/data/logos/.tvlogos_index.json"] /\
  query broken_query_world = Ok (QuerySet [] (Some OSError)) /\
  fst (_do_pass broken_query_world) = Raise OSError.
Proof. repeat split; by vm_compute. Qed.

(** C6, amended. Once the lock is taken and the logo directory made, a
    pass that finds no Channel or no Logo model returns ok false with the
    reason models-not-found and every counter at zero, and all it has
    done is to write the lock marker, if it can, and to make the logo
    directory. A pass that finds both, whose index builder returns and
    whose call of the query (line 337) then raises returns ok false with
    the reason query-error and every counter at zero, and what it has
    done besides is what the index builder did. In neither case is
    anything downloaded or assigned. *)
Theorem do_pass_collaborator_missing (w : world) :
  let dir := logos_dir_of w in
  let found := channel_model w && logo_model w in
  lock_fresh w = false ->
  mkdir_ok w dir = true ->
  found = false \/
  (returns (fst (build_index dir w)) /\ exists e, query w = Raise e) ->
  fst (_do_pass w)
  = Ok (Summary false
          (Some (if found then "query-error" else "models-not-found"))
          zero dir) /\
  new_events _do_pass w
  = (if lock_writable w then [LockWritten] else []) ++ [DirMade dir]
    ++ (if found then new_events (build_index dir) (after_setup w) else []) /\
  Forall setup_event (new_events _do_pass w).
Proof.
  intros dir found Hlock Hmk Hmissing.
  pose proof (after_setup_trace w Hlock) as Ht0. fold dir in Ht0.
  assert (Forall setup_event
            ((if lock_writable w then [LockWritten] else []) ++ [DirMade dir]))
    as Hsetup0 by (destruct (lock_writable w); by repeat constructor).
  destruct (do_pass_cases w) as
    [[Hl _]|[(_ & Hm & _)|[(_ & _ & Hf & E)|(_ & _ & Hf & E)]]];
    [congruence|fold dir in Hm; congruence| |]; fold dir in E; subst found;
    rewrite Hf in *.
  - rewrite (new_events_app _do_pass w
               ((if lock_writable w then [LockWritten] else []) ++ [DirMade dir]))
      by (rewrite E; cbn [snd]; by rewrite Ht0).
    rewrite E. rewrite !app_nil_r. by repeat split.
  - destruct Hmissing as [?|[Hidx [e He]]]; [done|].
    destruct (after_setup_same w Hlock) as (Hf0 & Hn0 & Hl0 & Hq0 & _).
    rewrite <- (build_index_result_ext dir (after_setup w) w) in Hidx by done.
    destruct (build_index_emits dir (after_setup w)) as (Hq3 & new3 & Ht3 & Hnew3).
    rewrite main_pass_cases in E.
    rewrite (new_events_app (build_index dir) (after_setup w) new3 Ht3).
    destruct (build_index dir (after_setup w)) as [[idx|?] w3]; [|done].
    simpl in *. rewrite Hq3, Hq0, He in E.
    rewrite (new_events_app _do_pass w
               ((if lock_writable w then [LockWritten] else [])
                  ++ [DirMade dir] ++ new3)).
    2: { rewrite E. simpl. by rewrite Ht3, Ht0, <- !app_assoc. }
    rewrite E. split; [done|]. split; [done|].
    rewrite app_assoc. by apply Forall_app.
Qed.

Lemma do_pass_collaborator_missing_witness :
  fst (_do_pass query_error_world)
  = Ok (Summary false (Some "query-error") zero "/data/logos") /\
  new_events _do_pass query_error_world
  = [LockWritten] ++ [DirMade "/data/logos"]
    ++ new_events (build_index "/data/logos") (after_setup query_error_world) /\
  Forall setup_event (new_events _do_pass query_error_world).
Proof.
  apply (do_pass_collaborator_missing query_error_world).
  - reflexivity.
  - reflexivity.
  - right. split; [by vm_compute|]. by exists OSError.
Defined.

(** ** The counters of a pass *)

Lemma scan_channel_bumps index dir c ch w c' w' :
  scan_channel index dir c ch w = (Ok c', w') -> bumps_one c c'.
Proof.
  unfold scan_channel, bumps_one.
  destruct (keeps_logo ch); [intros [= <- _]; simpl; tauto|].
  unfold bind, lift, ret, try_except.
  destruct (pick_logo_path index (candidates_of ch)) as [[path|]|]; [| |done].
  2: intros [= <- _]; simpl; tauto.
  destruct (negb (truthy path)); [intros [= <- _]; simpl; tauto|].
  destruct (download_logo path dir w) as [[[lp ln]|e] w1].
  - unfold _assign_logo. destruct (assign_ok w1 ch lp ln);
      intros [= <- _]; simpl; tauto.
  - destruct e; intros [= <- _]; simpl; tauto.
Qed.

Lemma scan_counts index dir qs : forall c w c' w',
  scan index dir c qs w = (Ok c', w') ->
  skipped c' + miss c' + downloaded c'
  = skipped c + miss c + downloaded c + length qs /\
  updated c <= updated c' /\
  updated c' + downloaded c <= updated c + downloaded c'.
Proof.
  induction qs as [|ch qs IH]; simpl; intros c w c' w'.
  - intros [= <- _]. lia.
  - unfold bind. destruct (scan_channel index dir c ch w) as [[c1|e] w1] eqn:E;
      [|done].
    intros H. apply IH in H. apply scan_channel_bumps in E.
    unfold bumps_one in E. lia.
Qed.

(** C10. In the summary of a pass that came to the loop over the entities,
    the counters skipped, miss and downloaded add up to the number of
    entities the query gave, since each turn of the loop raises exactly one
    of them by one; and updated is at most downloaded, since a turn raises
    updated only together with downloaded. *)
Theorem do_pass_counts (w w' : world) (s : summary) :
  _do_pass w = (Ok s, w') ->
  reason s = None ->
  (exists qs,
     query w = Ok (QuerySet qs None) /\
     skipped (counts s) + miss (counts s) + downloaded (counts s) = length qs) /\
  updated (counts s) <= downloaded (counts s) /\
  (forall index dir c ch w1 c' w1',
     scan_channel index dir c ch w1 = (Ok c', w1') -> bumps_one c c').
Proof.
  intros Hpass Hreason. split; [|split]; [| |apply scan_channel_bumps].
  all: revert Hpass; unfold _do_pass, bind, locked, environ_get_logo_dir,
    _get_channel_and_logo_models, try_except, objects_all.
  all: pose proof (acquire_lock_emits w) as (Hq1 & _).
  all: destruct (_acquire_lock w) as [[[]|] w1]; simpl;
    try (intros [= <- _]; done); try done.
  all: pose proof (ensure_dir_emits setup_event (logos_dir_of w1) I w1) as (Hq2 & _).
  all: destruct (ensure_dir (logos_dir_of w1) w1) as [[[]|] w2]; simpl; [|done].
  all: destruct (_ || _); simpl; [intros [= <- _]; done|].
  all: pose proof (build_index_emits (logos_dir_of w1) w2) as (Hq3 & _).
  all: destruct (build_index (logos_dir_of w1) w2) as [[index|] w3]; simpl; [|done].
  all: simpl in *; destruct (query w3) as [qs|] eqn:Hqs; simpl;
    [|intros [= <- _]; done].
  all: destruct qs as [qs ending]; simpl.
  all: destruct (scan index (logos_dir_of w1) zero qs w3) as [[c|] w4] eqn:Hscan;
    simpl; [|done].
  all: unfold end_of; destruct ending; simpl; [done|].
  all: intros [= <- _]; simpl; apply scan_counts in Hscan; simpl in Hscan.
  - exists qs. split; [congruence|lia].
  - lia.
Qed.

Lemma do_pass_counts_witness :
  fst (_do_pass sample_world)
  = Ok (Summary true None (Counters 2 2 1 1) "/data/logos") /\
  (exists qs,
     query sample_world = Ok (QuerySet qs None) /\ 1 + 1 + 2 = length qs) /\
  2 <= 2.
Proof.
  split; [by vm_compute|].
  destruct (do_pass_counts sample_world (snd (_do_pass sample_world))
              (Summary true None (Counters 2 2 1 1) "/data/logos"))
    as (H1 & H2 & _); [by vm_compute|reflexivity|].
  split; [exact H1|exact H2].
Defined.

(** * Further properties *)

(** ** The normalizer: what a key looks like and what it forgets *)

Section NormalizerFacts.

Implicit Types (s t : string) (c : ascii) (b : bool).

Lemma isspace_lower_char c : Py.isspace (Py.lower_char c) = Py.isspace c.
Proof. destruct c as [[] [] [] [] [] [] [] []]; reflexivity. Qed.

Lemma lower_char_idem c : Py.lower_char (Py.lower_char c) = Py.lower_char c.
Proof. destruct c as [[] [] [] [] [] [] [] []]; reflexivity. Qed.

Lemma lower_idem s : Py.lower (Py.lower s) = Py.lower s.
Proof.
  induction s as [|c s IH]; simpl; [done|]. by rewrite lower_char_idem, IH.
Qed.

Lemma lower_lstrip s : Py.lower (Py.lstrip s) = Py.lstrip (Py.lower s).
Proof.
  induction s as [|c s IH]; simpl; [done|]. rewrite isspace_lower_char.
  by destruct (Py.isspace c).
Qed.

Lemma lower_rstrip s : Py.lower (Py.rstrip s) = Py.rstrip (Py.lower s).
Proof.
  induction s as [|c s IH]; simpl; [done|]. rewrite <- IH, isspace_lower_char.
  destruct (Py.rstrip s); simpl; [by destruct (Py.isspace c)|done].
Qed.

Lemma lower_strip s : Py.lower (Py.strip s) = Py.strip (Py.lower s).
Proof. unfold Py.strip. by rewrite lower_rstrip, lower_lstrip. Qed.

Lemma lower_sub_ws b s :
  Py.lower (Py.sub_ws_from b s) = Py.sub_ws_from b (Py.lower s).
Proof.
  revert b. induction s as [|c s IH]; simpl; intros b; [done|].
  rewrite isspace_lower_char.
  destruct (Py.isspace c); [destruct b|]; simpl; by rewrite IH.
Qed.

Lemma rstrip_cons_clean c s :
  Py.isspace c = false -> Py.rstrip (String c s) = String c (Py.rstrip s).
Proof. intros H. simpl. rewrite H. by destruct (Py.rstrip s). Qed.

Lemma rstrip_nil s : Py.rstrip s = "" <-> Py.all Py.isspace s = true.
Proof.
  induction s as [|c s IH]; simpl; [done|].
  destruct (Py.rstrip s) eqn:E.
  - destruct (Py.isspace c); simpl; [by rewrite <- IH|done].
  - split; [done|]. intros [_ H]%andb_prop. by apply IH in H.
Qed.

Lemma sub_ws_nil b s :
  Py.sub_ws_from b s = "" -> Py.all Py.isspace s = true.
Proof.
  revert b. induction s as [|c s IH]; simpl; intros b; [done|].
  destruct (Py.isspace c); [|done]. destruct b; [|done]. apply IH.
Qed.

Lemma lstrip_sub_ws b s :
  Py.lstrip (Py.sub_ws_from b s) = Py.sub_ws_from false (Py.lstrip s).
Proof.
  revert b. induction s as [|c s IH]; simpl; intros b; [done|].
  destruct (Py.isspace c) eqn:E.
  - destruct b; simpl; apply IH.
  - simpl. by rewrite E.
Qed.

Lemma rstrip_cons c s :
  Py.rstrip (String c s) =
  match Py.rstrip s with
  | EmptyString => if Py.isspace c then EmptyString else String c EmptyString
  | r' => String c r'
  end.
Proof. reflexivity. Qed.

Lemma sub_ws_from_cons b c s :
  Py.sub_ws_from b (String c s) =
  if Py.isspace c
  then (if b then Py.sub_ws_from true s else String " " (Py.sub_ws_from true s))
  else String c (Py.sub_ws_from false s).
Proof. reflexivity. Qed.

Lemma rstrip_sub_ws b s :
  Py.rstrip (Py.sub_ws_from b s) = Py.sub_ws_from b (Py.rstrip s).
Proof.
  revert b. induction s as [|c s IH]; intros b; [done|].
  destruct (Py.isspace c) eqn:E.
  - rewrite sub_ws_from_cons, rstrip_cons, E.
    destruct (Py.rstrip s) as [|d r] eqn:Er.
    + destruct b; [by rewrite IH|]. by rewrite rstrip_cons, IH.
    + rewrite sub_ws_from_cons, E.
      assert (Py.sub_ws_from true (String d r) <> "") as Hne.
      { intros Ex. apply sub_ws_nil in Ex. apply rstrip_nil in Ex.
        rewrite <- Er, rstrip_idem in Ex. congruence. }
      destruct b; [by rewrite IH|]. rewrite rstrip_cons, IH.
      by destruct (Py.sub_ws_from true (String d r)).
  - rewrite (rstrip_cons_clean _ _ E), !sub_ws_from_cons, E.
    by rewrite (rstrip_cons_clean _ _ E), IH.
Qed.

Lemma strip_sub_ws s : Py.strip (Py.sub_ws s) = Py.sub_ws (Py.strip s).
Proof. unfold Py.strip, Py.sub_ws. by rewrite lstrip_sub_ws, rstrip_sub_ws. Qed.

Lemma tidy_sub_ws_from b s : tidy b (Py.sub_ws_from b s) = true.
Proof.
  revert b. induction s as [|c s IH]; simpl; intros b; [done|].
  destruct (Py.isspace c) eqn:E; [destruct b|]; simpl; rewrite ?E; auto.
Qed.

Lemma sub_ws_idem s : Py.sub_ws (Py.sub_ws s) = Py.sub_ws s.
Proof. unfold Py.sub_ws. apply tidy_fixed, tidy_sub_ws_from. Qed.

(** The ampersand spelled out. *)
Lemma eqb_amp_lower c :
  Ascii.eqb (Py.lower_char c) "&" = Ascii.eqb c "&".
Proof. destruct c as [[] [] [] [] [] [] [] []]; reflexivity. Qed.

Lemma isspace_not_amp c : Py.isspace c = true -> Ascii.eqb c "&" = false.
Proof. destruct c as [[] [] [] [] [] [] [] []]; vm_compute; congruence. Qed.

Lemma replace_cons old new c s :
  Py.replace old new (String c s) =
  if Ascii.eqb c old then new +:+ Py.replace old new s
  else String c (Py.replace old new s).
Proof. reflexivity. Qed.

Lemma lstrip_amp s :
  Py.lstrip (Py.replace "&" "and" s) = Py.replace "&" "and" (Py.lstrip s).
Proof.
  induction s as [|c s IH]; [done|]. rewrite replace_cons.
  destruct (Py.isspace c) eqn:E.
  - rewrite (isspace_not_amp _ E). simpl. by rewrite E.
  - destruct (Ascii.eqb c "&") eqn:Ec; simpl; rewrite E; simpl;
      by rewrite Ec.
Qed.

Lemma rstrip_amp s :
  Py.rstrip (Py.replace "&" "and" s) = Py.replace "&" "and" (Py.rstrip s).
Proof.
  induction s as [|c s IH]; [done|]. rewrite replace_cons.
  destruct (Ascii.eqb c "&") eqn:Ec.
  - apply Ascii.eqb_eq in Ec as ->.
    change ("and" +:+ ?x) with (String "a" (String "n" (String "d" x))).
    rewrite !rstrip_cons_clean by reflexivity. by rewrite IH, replace_cons.
  - rewrite !rstrip_cons, IH.
    destruct (Py.rstrip s) as [|d r] eqn:Er.
    + destruct (Py.isspace c); [done|]. by rewrite replace_cons, Ec.
    + rewrite (replace_cons _ _ c), Ec.
      rewrite replace_cons. by destruct (Ascii.eqb d "&").
Qed.

Lemma lower_amp s :
  Py.lower (Py.replace "&" "and" s) = Py.replace "&" "and" (Py.lower s).
Proof.
  induction s as [|c s IH]; [done|]. simpl. rewrite eqb_amp_lower.
  destruct (Ascii.eqb c "&"); simpl; by rewrite IH.
Qed.

Lemma sub_ws_amp b s :
  Py.sub_ws_from b (Py.replace "&" "and" s)
  = Py.replace "&" "and" (Py.sub_ws_from b s).
Proof.
  revert b. induction s as [|c s IH]; intros b; [done|].
  rewrite replace_cons, sub_ws_from_cons.
  destruct (Py.isspace c) eqn:E.
  - rewrite (isspace_not_amp _ E), sub_ws_from_cons, E.
    destruct b; [apply IH|]. by rewrite replace_cons, IH.
  - destruct (Ascii.eqb c "&") eqn:Ec.
    + rewrite replace_cons, Ec. simpl. by rewrite IH.
    + by rewrite sub_ws_from_cons, E, replace_cons, Ec, IH.
Qed.

Lemma amp_absent s :
  Py.all (fun c => negb (Ascii.eqb c "&")) (Py.replace "&" "and" s) = true.
Proof.
  induction s as [|c s IH]; [done|]. rewrite replace_cons.
  destruct (Ascii.eqb c "&") eqn:Ec; simpl; by rewrite ?Ec, IH.
Qed.

Lemma tidy_no_double b a r : tidy b (a +:+ "  " +:+ r) = false.
Proof.
  revert b. induction a as [|c a IH]; intros b; simpl.
  - by rewrite andb_false_r.
  - destruct (Py.isspace c); [|apply IH]. by rewrite IH, andb_false_r.
Qed.

End NormalizerFacts.

(** X1. A key has characters of the class a-z, 0-9, dot, space, plus,
    underscore, hyphen only; it has no two spaces in a row and neither
    starts nor ends with a space. *)
Theorem normalize_key_canonical (s : string) :
  Py.all key_char (normalize_key s) = true /\
  (forall a r, normalize_key s <> a +:+ "  " +:+ r) /\
  (forall r, normalize_key s <> String " " r) /\
  (forall a, normalize_key s <> a +:+ " ").
Proof.
  assert (tidy false (normalize_key s) = true) as Htidy.
  { apply tidy_rstrip with (b := false). apply tidy_lstrip with (b := false).
    apply tidy_sub_ws_from. }
  split; [|split; [|split]].
  - apply all_strip, all_sub_ws; [done|apply all_keep].
  - intros a r H. rewrite H, tidy_no_double in Htidy. done.
  - intros r H.
    assert (head_clean (normalize_key s) = true) as Hh
      by apply head_clean_rstrip, lstrip_head.
    by rewrite H in Hh.
  - intros a H.
    assert (tail_clean (normalize_key s) = true) as Ht
      by apply rstrip_tail_clean.
    by rewrite H, tail_clean_snoc in Ht.
Qed.

(** X2. The case of letters does not matter to the normalizer: strings
    that agree once in lower case have the same key. *)
Theorem normalize_key_ignores_case (s t : string) :
  Py.lower s = Py.lower t -> normalize_key s = normalize_key t.
Proof.
  intros H. unfold normalize_key. by rewrite !lower_strip, H.
Qed.

Lemma normalize_key_ignores_case_witness :
  Py.lower "ESPN Network" = Py.lower "Espn NETWORK" /\
  normalize_key "ESPN Network" = normalize_key "Espn NETWORK".
Proof.
  split; [reflexivity|].
  apply (normalize_key_ignores_case "ESPN Network" "Espn NETWORK").
  reflexivity.
Defined.

(** X3. White space around a string and the length and kind of the runs
    of white space inside it do not matter to the normalizer. *)
Theorem normalize_key_ignores_spacing (s : string) :
  normalize_key (Py.strip s) = normalize_key s /\
  normalize_key (Py.sub_ws s) = normalize_key s.
Proof.
  unfold normalize_key. split.
  - by rewrite strip_idem.
  - assert (Py.sub_ws (Py.lower (Py.strip (Py.sub_ws s)))
            = Py.sub_ws (Py.lower (Py.strip s))) as H.
    { rewrite strip_sub_ws. unfold Py.sub_ws. rewrite lower_sub_ws.
      apply sub_ws_idem. }
    cbv zeta. by rewrite H.
Qed.

(** X4. The ampersand and the word and are one to the normalizer. *)
Theorem normalize_key_ampersand (s : string) :
  normalize_key (Py.replace "&" "and" s) = normalize_key s.
Proof.
  unfold normalize_key, Py.strip, Py.sub_ws.
  rewrite lstrip_amp, rstrip_amp, lower_amp, sub_ws_amp.
  by rewrite (replace_absent "&" "and" (Py.replace _ _ _)) by apply amp_absent.
Qed.

(** ** The placeholder detector: the last segment decides *)

Section PlaceholderFacts.

Implicit Types (s t w : string) (c sep : ascii).

Lemma rsplit_last_cons sep c s :
  Py.rsplit_last sep (String c s) =
  if existsb (Ascii.eqb sep) (list_ascii_of_string s) then Py.rsplit_last sep s
  else if Ascii.eqb c sep then s else String c s.
Proof. reflexivity. Qed.

Lemma rsplit_last_free sep s : existsb (Ascii.eqb sep) (list_ascii_of_string s) = false -> Py.rsplit_last sep s = s.
Proof.
  destruct s as [|c s]; [done|]. simpl.
  intros [Hc Hs]%orb_false_elim. by rewrite Hs, Ascii.eqb_sym, Hc.
Qed.

Lemma rsplit_last_sep sep s : existsb (Ascii.eqb sep) (list_ascii_of_string (Py.rsplit_last sep s)) = false.
Proof.
  induction s as [|c s IH]; [done|]. rewrite rsplit_last_cons.
  destruct (existsb (Ascii.eqb sep) (list_ascii_of_string s)) eqn:E; [done|].
  destruct (Ascii.eqb_spec c sep) as [->|Hc]; [done|]. simpl. rewrite E.
  by destruct (Ascii.eqb_spec sep c) as [->|_].
Qed.

(** A string is its last segment after nothing or after a separator. *)
Lemma rsplit_last_split sep s :
  exists pre,
    s = pre +:+ Py.rsplit_last sep s /\
    (pre = "" \/ exists p, pre = p +:+ String sep "").
Proof.
  induction s as [|c s (pre & Hs & Hpre)]; [by exists ""; auto|].
  rewrite rsplit_last_cons. destruct (existsb (Ascii.eqb sep) (list_ascii_of_string s)) eqn:E.
  - exists (String c pre). simpl. split; [by rewrite <- Hs|]. right.
    destruct Hpre as [->|[p ->]].
    + simpl in Hs. rewrite Hs, rsplit_last_sep in E. done.
    + by exists (String c p).
  - destruct (Ascii.eqb_spec c sep) as [->|Hc].
    + exists (String sep ""). split; [done|]. right. by exists "".
    + exists "". auto.
Qed.

Lemma rsplit_last_unique sep pre w :
  existsb (Ascii.eqb sep) (list_ascii_of_string w) = false ->
  pre = "" \/ (exists p, pre = p +:+ String sep "") ->
  Py.rsplit_last sep (pre +:+ w) = w.
Proof.
  intros Hw Hpre. rewrite (rsplit_last_app _ _ _ Hw).
  destruct Hpre as [->|[p ->]]; [done|].
  assert (Py.rsplit_last sep (p +:+ String sep "") = "") as ->; [|done].
  induction p as [|c p IH]; simpl.
  - by rewrite Ascii.eqb_refl.
  - rewrite has_char_app. simpl. by rewrite Ascii.eqb_refl, orb_true_r.
Qed.

Lemma eqb_slash_lower c :
  Ascii.eqb (Py.lower_char c) "/" = Ascii.eqb c "/".
Proof. destruct c as [[] [] [] [] [] [] [] []]; reflexivity. Qed.

Lemma lower_rsplit_last s :
  Py.lower (Py.rsplit_last "/" s) = Py.rsplit_last "/" (Py.lower s).
Proof.
  induction s as [|c s IH]; [done|].
  change (Py.lower (String c s)) with (String (Py.lower_char c) (Py.lower s)).
  rewrite !rsplit_last_cons, has_char_lower_slash, eqb_slash_lower.
  destruct (existsb (Ascii.eqb "/"%char) (list_ascii_of_string s)); [done|]. by destruct (Ascii.eqb c "/").
Qed.

Lemma placeholder_name_free w :
  In (Py.lower w) placeholder_names -> existsb (Ascii.eqb "/"%char) (list_ascii_of_string w) = false.
Proof.
  intros H. rewrite <- has_char_lower_slash.
  unfold placeholder_names in H. simpl in H.
  repeat (destruct H as [<-|H]; [reflexivity|]). done.
Qed.

(** The detector on a string that is not empty. *)
Lemma is_placeholder_names v :
  v <> "" ->
  is_placeholder (Some v) = true <->
  exists pre w,
    Py.strip v = pre +:+ w /\
    (pre = "" \/ exists p, pre = p +:+ "/") /\
    In (Py.lower w) placeholder_names.
Proof.
  intros Hv. unfold is_placeholder.
  change (truthy (Some v)) with (negb (String.eqb v "")).
  destruct (String.eqb_spec v "") as [|_]; [done|].
  cbn [negb existsb PLACEHOLDER_PATTERNS py_str].
  rewrite !orb_true_iff, !search_anchored by reflexivity.
  split.
  - intros H.
    destruct H as [H|[H|[H|H]]]; [| | |done];
      destruct H as (pre & w & Hs & Hpre & Hin); exists pre, w;
      (split; [done|split; [done|]]); apply placeholder_names_lang; auto.
  - intros (pre & w & Hs & Hpre & Hin).
    apply placeholder_names_lang in Hin as [H|[H|H]];
      [left|right; left|right; right; left]; eauto.
Qed.

End PlaceholderFacts.

Lemma is_placeholder_segment u :
  is_placeholder (Some u) = true <->
  u = "" \/ In (Py.lower (Py.rsplit_last "/" (Py.strip u))) placeholder_names.
Proof.
  destruct (String.eqb_spec u "") as [->|Hu].
  { split; [auto|done]. }
  rewrite (is_placeholder_names u Hu). split.
  - intros (pre & w & Hs & Hpre & Hin). right.
    rewrite Hs, rsplit_last_unique; [done| |done].
    by apply placeholder_name_free.
  - intros [?|Hin]; [done|].
    destruct (rsplit_last_split "/" (Py.strip u)) as (pre & Hs & Hpre).
    by exists pre, (Py.rsplit_last "/" (Py.strip u)).
Qed.

Lemma placeholder_name_lower n : In n placeholder_names -> Py.lower n = n.
Proof.
  unfold placeholder_names. simpl.
  intros H. repeat (destruct H as [<-|H]; [reflexivity|]). done.
Qed.

(** X5. Whether a value that is not empty is a placeholder is decided by
    the last segment of its trimmed form alone: the value is a placeholder
    exactly when that segment is one of the thirteen names up to the case
    of letters, as [re.IGNORECASE] compares them. Putting a value in
    lower case does not change the verdict. *)
Theorem is_placeholder_last_segment (v : string) :
  (is_placeholder (Some v) = true <->
   v = "" \/
   exists n, In n placeholder_names /\
             same_name (Py.rsplit_last "/" (Py.strip v)) n) /\
  is_placeholder (Some (Py.lower v)) = is_placeholder (Some v).
Proof.
  split.
  - rewrite is_placeholder_segment. unfold same_name. split.
    + intros [?|Hin]; [by left|]. right. eexists. split; [exact Hin|].
      by rewrite (placeholder_name_lower _ Hin).
    + intros [?|(n & Hin & Hn)]; [by left|]. right.
      by rewrite Hn, (placeholder_name_lower _ Hin).
  - apply eq_true_iff_eq. rewrite !is_placeholder_segment.
    rewrite <- lower_strip, <- lower_rsplit_last, lower_idem.
    assert (Py.lower v = "" <-> v = "") as ->; [|done].
    by destruct v.
Qed.

(** ** The index builder: what a new index holds, what a build touches *)

Section IndexFacts.

Lemma first_writer_entry k nodes p :
  first_writer k nodes = Some p ->
  exists node, In node nodes /\ entry_of node = Some (k, p).
Proof.
  induction nodes as [|node nodes IH]; [done|].
  rewrite first_writer_cons.
  destruct (entry_of node) as [[k' p']|] eqn:E.
  - case_decide as Hk.
    + intros [= <-]. subst k'. exists node. split; [by left|done].
    + intros (n & Hn & He)%IH. exists n. split; [by right|done].
  - intros (n & Hn & He)%IH. exists n. split; [by right|done].
Qed.

Lemma first_writer_found k nodes node p :
  In node nodes -> entry_of node = Some (k, p) ->
  is_Some (first_writer k nodes).
Proof.
  induction nodes as [|n nodes IH]; [done|].
  rewrite first_writer_cons. intros [->|Hin] He.
  - rewrite He. by case_decide.
  - destruct (entry_of n) as [[k' p']|]; [case_decide|]; eauto.
Qed.

(** A key that is the key of a path is its own key. *)
Lemma key_of_path_fixed path : normalize_key (key_of_path path) = key_of_path path.
Proof.
  unfold key_of_path. apply normalize_key_fixed.
  - apply all_strip, all_sub_ws; [done|apply all_keep].
  - apply tidy_rstrip with (b := false). apply tidy_lstrip with (b := false).
    apply tidy_sub_ws, all_keep.
  - unfold normalize_key. apply strip_idem.
Qed.

Lemma image_path_not_empty path : image_path path = true -> path <> "".
Proof. by intros H ->. Qed.

Lemma index_nodes_values nodes index k p :
  index_nodes ∅ nodes = Ok index -> index !! k = Some p ->
  exists node, In node nodes /\ entry_of node = Some (k, p).
Proof.
  intros Hnodes Hk.
  rewrite (index_nodes_lookup _ _ _ Hnodes k), lookup_empty in Hk.
  by apply first_writer_entry.
Qed.

End IndexFacts.

(** X6. Every binding of an index built from a listing comes from a node
    of the listing: its value is an image path, never empty, and its key
    is the key of that path, a key that normalization leaves as it is. *)
Theorem index_nodes_sound (nodes : list json) (index : gmap string string)
    (k p : string) :
  index_nodes ∅ nodes = Ok index ->
  index !! k = Some p ->
  (exists node, In node nodes /\ entry_of node = Some (k, p)) /\
  image_path p = true /\ p <> "" /\
  k = key_of_path p /\ normalize_key k = k.
Proof.
  intros Hnodes Hk.
  destruct (index_nodes_values _ _ _ _ Hnodes Hk) as (node & Hin & He).
  split; [eauto|].
  apply entry_of_image in He as [Himg ->].
  split; [done|]. split; [by apply image_path_not_empty|].
  split; [done|apply key_of_path_fixed].
Qed.

Lemma index_nodes_sound_witness :
  let nodes := [ node "blob" "Sports/ESPN.png"; node "blob" "Other/espn.JPG" ] in
  let index : gmap string string := {[ "espn" := "Sports/ESPN.png" ]} in
  index_nodes ∅ nodes = Ok index /\
  image_path "Sports/ESPN.png" = true /\
  "espn" = key_of_path "Sports/ESPN.png".
Proof.
  intros nodes index.
  assert (index_nodes ∅ nodes = Ok index) as H by by vm_compute.
  destruct (index_nodes_sound nodes index "espn" "Sports/ESPN.png" H)
    as (_ & H1 & _ & H2 & _); [by vm_compute|].
  by repeat split.
Defined.

(** X7. On an index built from a listing the resolver returns the value of
    the first candidate, in list order, whose normalized form is bound,
    and no match only if no candidate is bound. *)
Theorem pick_logo_path_on_new_index (nodes : list json)
    (index : gmap string string) (candidates : list string) :
  index_nodes ∅ nodes = Ok index ->
  exists r,
    pick_logo_path (of_index index) candidates = Ok (JStr <$> r) /\
    first_match (bound_at index) candidates r.
Proof.
  intros Hnodes.
  assert (forall c, path_at index c = bound_at index c) as Hat.
  { intros c. unfold path_at, bound_at.
    destruct (index !! normalize_key c) as [p|] eqn:E; [|done].
    destruct (index_nodes_values _ _ _ _ Hnodes E) as (n & _ & He).
    apply entry_of_image in He as [Himg _].
    change (truthy p) with (negb (String.eqb p "")).
    destruct (String.eqb_spec p "") as [->|_]; done. }
  induction candidates as [|c cs (r & Hr & Hfirst)].
  - exists None. split; [done|]. constructor.
  - destruct (bound_at index c) as [p|] eqn:E.
    + exists (Some p). split.
      * apply pick_logo_path_hit. by rewrite Hat.
      * exists [], c, cs. split; [done|]. split; [done|]. constructor.
    + exists r. split.
      * rewrite pick_logo_path_miss; [done|]. by rewrite Hat.
      * destruct r as [p|]; simpl in *.
        -- destruct Hfirst as (before & c' & after & -> & Hc' & Hbefore).
           exists (c :: before), c', after. split; [done|]. split; [done|].
           by constructor.
        -- by constructor.
Qed.

Lemma pick_logo_path_on_new_index_witness :
  exists r,
    pick_logo_path (of_index {[ "espn" := "Sports/ESPN.png" ]}) ["ESPN US"; "ESPN"]
    = Ok (JStr <$> r) /\
    first_match (bound_at {[ "espn" := "Sports/ESPN.png" ]}) ["ESPN US"; "ESPN"] r.
Proof.
  apply (pick_logo_path_on_new_index
           [ node "blob" "Sports/ESPN.png"; node "blob" "Other/espn.JPG" ]).
  by vm_compute.
Defined.

(** X8. Every image file of the listing can be found again by its base
    name: once the index is built, looking up the last segment of its
    path without the extension, in any spelling with the same key, yields
    a path filed under the same key. *)
Theorem indexed_file_is_found (nodes : list json) (index : gmap string string)
    (n : json) (k path stem e c : string) :
  index_nodes ∅ nodes = Ok index ->
  In n nodes ->
  entry_of n = Some (k, path) ->
  Py.rsplit_last "/" path = stem +:+ e ->
  In (Py.lower e) exts ->
  normalize_key c = normalize_key stem ->
  exists path',
    pick_logo_path (of_index index) [c] = Ok (Some (JStr path')) /\
    key_of_path path' = key_of_path path.
Proof.
  intros Hnodes Hin He Hbase Hext Hc.
  apply entry_of_image in He as Hk. destruct Hk as [_ ->].
  assert (key_of_path path = normalize_key c) as Hkey.
  { unfold key_of_path, Re.sub. by rewrite Hbase, sub_ext_strips, Hc. }
  destruct (first_writer_found _ _ _ _ Hin He) as [path' Hw].
  assert (index !! key_of_path path = Some path') as Hidx.
  { by rewrite (index_nodes_lookup _ _ _ Hnodes), lookup_empty. }
  exists path'. split.
  - apply pick_logo_path_hit. unfold path_at. rewrite <- Hkey, Hidx.
    destruct (index_nodes_values _ _ _ _ Hnodes Hidx) as (n' & _ & He').
    apply entry_of_image in He' as [Himg _].
    change (truthy path') with (negb (String.eqb path' "")).
    by destruct (String.eqb_spec path' "") as [->|_].
  - destruct (index_nodes_values _ _ _ _ Hnodes Hidx) as (n' & _ & He').
    by apply entry_of_image in He' as [_ ->].
Qed.

Lemma indexed_file_is_found_witness :
  exists path',
    pick_logo_path (of_index {[ "espn" := "Sports/ESPN.png" ]}) ["  Espn "]
    = Ok (Some (JStr path')) /\
    key_of_path path' = key_of_path "Other/espn.JPG".
Proof.
  apply (indexed_file_is_found
           [ node "blob" "Sports/ESPN.png"; node "blob" "Other/espn.JPG" ]
           {[ "espn" := "Sports/ESPN.png" ]}
           (node "blob" "Other/espn.JPG") "espn" "Other/espn.JPG" "espn" ".JPG").
  - vm_compute. reflexivity.
  - right. left. reflexivity.
  - vm_compute. reflexivity.
  - reflexivity.
  - vm_compute. tauto.
  - reflexivity.
Defined.

(** ** What the steps of a pass leave alone *)

Section Frames.

Context {B : Type} (f : world -> B) (Hf : stable f).

Lemma keeps_ret {A} (a : A) : keeps f (ret a).
Proof. done. Qed.

Lemma keeps_raise {A} e : keeps f (raise (A := A) e).
Proof. done. Qed.

Lemma keeps_lift {A} (r : result A) : keeps f (lift r).
Proof. done. Qed.

Lemma keeps_bind {A C} (m : M A) (k : A -> M C) :
  keeps f m -> (forall a, keeps f (k a)) -> keeps f (bind m k).
Proof.
  intros Hm Hk w. unfold bind. specialize (Hm w).
  destruct (m w) as [[a|e] w1]; simpl in *; [|done].
  by rewrite Hk.
Qed.

Lemma keeps_try_except {A} (m : M A) (h : exn -> M A) :
  keeps f m -> (forall e, keeps f (h e)) -> keeps f (try_except m h).
Proof.
  intros Hm Hh w. unfold try_except. specialize (Hm w).
  destruct (m w) as [[a|e] w1]; simpl in *; [done|].
  by rewrite Hh.
Qed.

Lemma keeps_ensure_dir dir : keeps f (ensure_dir dir).
Proof.
  intros w. unfold ensure_dir. destruct (mkdir_ok w dir); [|done].
  apply Hf.
Qed.

Lemma keeps_build_index dir : keeps f (build_index dir).
Proof.
  intros w. destruct Hf as [He Hs].
  destruct (fresh_value (path_join dir INDEX_BASENAME) w) as [idx|] eqn:E.
  { by rewrite (build_index_cached _ _ _ E). }
  destruct (listing w) as [tree|e] eqn:El.
  - destruct (index_of_tree tree) as [index|e] eqn:Ei.
    + rewrite (build_index_built _ _ _ _ E El Ei). unfold built. simpl.
      destruct (writable w _); by rewrite ?He, ?Hs, ?He.
    + rewrite (build_index_payload_raises _ _ _ _ E El Ei). apply He.
  - rewrite (build_index_fetch_failed _ _ _ E El). apply He.
Qed.

Lemma keeps_download_logo path dir : keeps f (download_logo path dir).
Proof.
  unfold download_logo. apply keeps_bind; [apply keeps_ensure_dir|].
  intros _. apply keeps_bind.
  { unfold _http_get_raw. destruct path; try apply keeps_raise.
    intros w. apply Hf. }
  intros data. destruct path; try apply keeps_raise.
  apply keeps_bind; [|intros _; apply keeps_ret].
  intros w. unfold write_logo. destruct (writable w _); [|done]. simpl.
  destruct Hf as [He Hs]. by rewrite He, Hs.
Qed.

Lemma keeps_scan_channel index dir c ch : keeps f (scan_channel index dir c ch).
Proof.
  unfold scan_channel. destruct (keeps_logo ch); [apply keeps_ret|].
  apply keeps_bind; [apply keeps_lift|]. intros [path|]; [|apply keeps_ret].
  destruct (negb (truthy path)); [apply keeps_ret|].
  apply keeps_bind.
  { apply keeps_try_except.
    - apply keeps_bind; [apply keeps_download_logo|intros ?; apply keeps_ret].
    - intros []; apply keeps_ret. }
  intros [[lp ln]|]; [|apply keeps_ret].
  apply keeps_bind; [intros w; apply Hf|]. intros []; apply keeps_ret.
Qed.

Lemma keeps_scan index dir qs : forall c, keeps f (scan index dir c qs).
Proof.
  induction qs as [|ch qs IH]; simpl; intros c; [apply keeps_ret|].
  apply keeps_bind; [apply keeps_scan_channel|]. intros c'. apply IH.
Qed.

End Frames.

Lemma stable_lock : stable lock.
Proof. by split. Qed.
Lemma stable_now : stable now.
Proof. by split. Qed.
Lemma stable_query : stable query.
Proof. by split. Qed.
Lemma stable_assign_ok : stable assign_ok.
Proof. by split. Qed.

(** After the lock was tried, a pass leaves it as it is. *)
Lemma do_pass_lock w :
  lock (snd (_do_pass w)) = lock (snd (_acquire_lock w)).
Proof.
  pose proof stable_lock as Hl.
  destruct (do_pass_cases w) as
    [[Hlock E]|[(Hlock & Hmk & E)|[(Hlock & Hmk & _ & E)|(Hlock & Hmk & _ & E)]]];
    rewrite E; try done.
  - unfold _acquire_lock. by rewrite Hlock.
  - rewrite main_pass_cases.
    pose proof (keeps_build_index lock Hl (logos_dir_of w) (after_setup w)) as H3.
    destruct (build_index (logos_dir_of w) (after_setup w)) as [[index|] w3];
      simpl in *; [|done].
    destruct (query w3) as [qs|]; simpl; [|done].
    pose proof (keeps_scan lock Hl index (logos_dir_of w) (entities qs) zero w3)
      as H4.
    destruct (scan index (logos_dir_of w) zero (entities qs) w3) as [[c|] w4];
      simpl in *; congruence.
Qed.

(** X9. A pass that took the lock shuts out every pass that starts less
    than 60 seconds after it, be the first one over or not: the second
    returns the summary locked and touches nothing. *)
Theorem do_pass_shuts_out (w w2 : world) :
  lock_fresh w = false ->
  lock_writable w = true ->
  lock w2 = lock (snd (_do_pass w)) ->
  (now w2 - now w < 60)%Q ->
  _do_pass w2
  = (Ok (Summary true (Some "locked") zero (DEFAULT_LOGOS_DIR w2)), w2).
Proof.
  intros Hfresh Hwr Hlock Hage. rewrite do_pass_lock in Hlock.
  unfold _acquire_lock in Hlock. rewrite Hfresh, Hwr in Hlock. simpl in Hlock.
  apply Qltb_lt in Hage.
  unfold _do_pass, bind, _acquire_lock, lock_fresh, locked.
  by rewrite Hlock, Hage.
Qed.

Lemma do_pass_shuts_out_witness :
  let w2 := with_now 159 (snd (_do_pass sample_world)) in
  fst (_do_pass sample_world)
  = Ok (Summary true None (Counters 2 2 1 1) "/data/logos") /\
  _do_pass w2 = (Ok (Summary true (Some "locked") zero "/data/logos"), w2).
Proof.
  intros w2. split; [by vm_compute|].
  apply (do_pass_shuts_out sample_world w2); by vm_compute.
Defined.

(** ** The index builder: files and fetches *)

(** X10. A call of [build_index] fetches the listing once at most and
    writes no file but the cache file of its directory; and it writes
    that file only when it has built an index from the listing, which is
    then what the file holds and what the call returns. *)
Theorem build_index_touches (dir : string) (w : world) :
  let cache_path := path_join dir INDEX_BASENAME in
  let w' := snd (build_index dir w) in
  (forall p, p <> cache_path -> files w' !! p = files w !! p) /\
  (new_events (build_index dir) w = [] \/
   new_events (build_index dir) w = [ListingFetched] \/
   new_events (build_index dir) w = [ListingFetched; CacheWritten cache_path]) /\
  (files w' !! cache_path = files w !! cache_path \/
   exists index,
     fst (build_index dir w) = Ok (of_index index) /\
     files w' !! cache_path = Some (File (now w) (Some (of_index index)))).
Proof.
  intros cache_path w'. subst w'.
  destruct (fresh_value cache_path w) as [idx|] eqn:E.
  { rewrite (new_events_app _ _ []), (build_index_cached _ _ _ E);
      [by auto|].
    rewrite (build_index_cached _ _ _ E). by rewrite app_nil_r. }
  destruct (listing w) as [tree|e] eqn:El.
  - destruct (index_of_tree tree) as [index|e] eqn:Ei.
    + rewrite (build_index_built _ _ _ _ E El Ei). unfold built. simpl.
      fold cache_path. destruct (writable w cache_path) eqn:Hwr.
      * rewrite (new_events_app _ _ [ListingFetched; CacheWritten cache_path]).
        2: { rewrite (build_index_built _ _ _ _ E El Ei). unfold built. simpl.
             fold cache_path. rewrite Hwr. simpl. by rewrite <- app_assoc. }
        simpl. split; [|split; [auto|]].
        -- intros p Hp. by rewrite lookup_insert_ne.
        -- right. exists index. by rewrite lookup_insert_eq.
      * rewrite (new_events_app _ _ [ListingFetched]); [by auto|].
        rewrite (build_index_built _ _ _ _ E El Ei). unfold built. simpl.
        fold cache_path. by rewrite Hwr.
    + rewrite (new_events_app _ _ [ListingFetched]),
        (build_index_payload_raises _ _ _ _ E El Ei); [by auto|].
      by rewrite (build_index_payload_raises _ _ _ _ E El Ei).
  - rewrite (new_events_app _ _ [ListingFetched]),
      (build_index_fetch_failed _ _ _ E El); [by auto|].
    by rewrite (build_index_fetch_failed _ _ _ E El).
Qed.

(** X11. That the cache file cannot be written does not fail the build:
    the index built from the listing is returned all the same, and no file
    is changed. *)
Theorem build_index_unwritable (dir : string) (w : world) (tree : json)
    (index : gmap string string) :
  let cache_path := path_join dir INDEX_BASENAME in
  fresh_value cache_path w = None ->
  listing w = Ok tree ->
  index_of_tree tree = Ok index ->
  writable w cache_path = false ->
  build_index dir w = (Ok (of_index index), emit ListingFetched w).
Proof.
  intros cache_path Hfresh Hlisting Hindex Hwr.
  rewrite (build_index_built _ _ _ _ Hfresh Hlisting Hindex).
  unfold built. simpl. fold cache_path. by rewrite Hwr.
Qed.

Lemma build_index_unwritable_witness :
  build_index "/data/logos" read_only_world
  = (Ok (of_index {[ "espn" := "Sports/ESPN.png"; "cnn" := "News/CNN.svg" ]}),
     emit ListingFetched read_only_world).
Proof.
  apply (build_index_unwritable "/data/logos" read_only_world sample_tree);
    by vm_compute.
Defined.

(** X12. Stale on error: after [build_index] has built a mapping and
    written it to the cache file, a later call, however much later, whose
    fetch of the listing raises returns that same mapping. *)
Theorem build_index_then_fetch_fails (dir : string) (w w2 : world)
    (tree : json) (index : gmap string string) (e : exn) :
  let cache_path := path_join dir INDEX_BASENAME in
  fresh_value cache_path w = None ->
  listing w = Ok tree ->
  index_of_tree tree = Ok index ->
  writable w cache_path = true ->
  files w2 !! cache_path = files (snd (build_index dir w)) !! cache_path ->
  listing w2 = Raise e ->
  fst (build_index dir w2) = Ok (of_index index).
Proof.
  intros cache_path Hfresh Hlisting Hindex Hwr Hfile He.
  rewrite (build_index_built _ _ _ _ Hfresh Hlisting Hindex) in Hfile.
  unfold built in Hfile. simpl in Hfile. fold cache_path in Hfile.
  rewrite Hwr in Hfile. simpl in Hfile. rewrite lookup_insert_eq in Hfile.
  rewrite build_index_result. fold cache_path.
  unfold fresh_value, is_fresh, cached_value. rewrite Hfile, He. simpl.
  by destruct (Qltb _ _).
Qed.

Lemma build_index_then_fetch_fails_witness :
  let w1 := snd (build_index "/data/logos" sample_world) in
  let w2 := with_listing (Raise (HTTPError 403)) (with_now 1000000 w1) in
  fst (build_index "/data/logos" w2)
  = Ok (of_index {[ "espn" := "Sports/ESPN.png"; "cnn" := "News/CNN.svg" ]}).
Proof.
  intros w1 w2.
  apply (build_index_then_fetch_fails "/data/logos" sample_world w2
           sample_tree _ (HTTPError 403)); by vm_compute.
Defined.

(** ** The loop: what can go wrong in a turn *)

Lemma pick_logo_path_no_dict index c cs :
  (forall m, index <> JObj m) ->
  pick_logo_path index (c :: cs) = Raise AttributeError.
Proof. intros H. destruct index; try done. by destruct (H m). Qed.





Lemma count_app P l1 l2 : count P (l1 ++ l2) = count P l1 + count P l2.
Proof. unfold count. by rewrite List.filter_app, length_app. Qed.

Lemma count_setup P l :
  (forall e, setup_event e -> P e = false) ->
  Forall setup_event l -> count P l = 0.
Proof.
  intros HP. induction 1 as [|e l He _ IH]; [done|].
  unfold count in *. simpl. by rewrite (HP e He).
Qed.

(** What a download adds to the trace and does to the files. *)
Lemma download_logo_trace path dir w :
  assign_ok (snd (download_logo path dir w)) = assign_ok w /\
  exists new,
    trace (snd (download_logo path dir w)) = trace w ++ new /\
    count is_assigned new = 0 /\
    match fst (download_logo path dir w) with
    | Ok (lp, ln) =>
        exists p data,
          path = JStr p /\ raw w p = Ok data /\
          new = [DirMade dir; RawFetched p; LogoWritten lp] /\
          files (snd (download_logo path dir w))
          = <[lp := File (now w) (json_loads w data)]> (files w)
    | Raise _ =>
        count is_logo_written new = 0 /\
        files (snd (download_logo path dir w)) = files w
    end.
Proof.
  unfold download_logo, bind, ensure_dir, _http_get_raw, write_logo, raise, ret.
  destruct (mkdir_ok w dir); simpl.
  2: { split; [done|]. exists []. by rewrite app_nil_r. }
  destruct path; simpl;
    try (split; [done|]; exists [DirMade dir]; by repeat split).
  destruct (raw w s) as [data|e] eqn:Eraw; simpl.
  2: { split; [done|]. exists [DirMade dir; RawFetched s].
       rewrite <- app_assoc. by repeat split. }
  destruct (writable w _); simpl.
  - split; [done|]. eexists. rewrite <- !app_assoc. simpl.
    split; [done|]. split; [done|]. by exists s, data.
  - split; [done|]. exists [DirMade dir; RawFetched s].
    rewrite <- app_assoc. by repeat split.
Qed.

(** X14. What a download does: if it succeeds it has made the directory,
    fetched the one remote path and written one file, the one at the
    path that it returns, which now holds the bytes fetched, whatever
    file it was before, the cache file of the index included; no other
    file is changed. If it fails it has written no file. *)
Theorem download_logo_effect (path : json) (dir : string) (w : world) :
  match fst (download_logo path dir w) with
  | Ok (lp, ln) =>
      exists p data,
        path = JStr p /\ raw w p = Ok data /\
        new_events (download_logo path dir) w
        = [DirMade dir; RawFetched p; LogoWritten lp] /\
        files (snd (download_logo path dir w))
        = <[lp := File (now w) (json_loads w data)]> (files w)
  | Raise _ =>
      count is_logo_written (new_events (download_logo path dir) w) = 0 /\
      files (snd (download_logo path dir w)) = files w
  end.
Proof.
  destruct (download_logo_trace path dir w) as (_ & new & Ht & _ & H).
  rewrite (new_events_app _ _ _ Ht).
  destruct (fst (download_logo path dir w)) as [[lp ln]|]; [|done].
  destruct H as (p & data & -> & Hraw & -> & Hfiles). by exists p, data.
Qed.

(** One turn of the loop: counters and trace go together. *)
Lemma scan_channel_tally index dir c ch w c' w' :
  scan_channel index dir c ch w = (Ok c', w') ->
  assign_ok w' = assign_ok w /\
  (if keeps_logo ch then c' = incr_skipped c
   else skipped c' = skipped c /\
        miss c' + downloaded c' = S (miss c + downloaded c)) /\
  exists new,
    trace w' = trace w ++ new /\
    downloaded c' = downloaded c + count is_logo_written new /\
    downloaded c' = downloaded c + count is_assigned new /\
    updated c' = updated c + count (is_accepted w) new.
Proof.
  unfold scan_channel. destruct (keeps_logo ch).
  { intros [= <- <-]. repeat split. exists []. rewrite app_nil_r.
    unfold count. simpl. repeat split; lia. }
  unfold bind, lift, ret, try_except.
  assert (forall c0, c' = c0 -> w' = w ->
            skipped c0 = skipped c -> miss c0 = S (miss c) ->
            downloaded c0 = downloaded c -> updated c0 = updated c ->
            assign_ok w' = assign_ok w /\
            (skipped c' = skipped c /\
             miss c' + downloaded c' = S (miss c + downloaded c)) /\
            exists new,
              trace w' = trace w ++ new /\
              downloaded c' = downloaded c + count is_logo_written new /\
              downloaded c' = downloaded c + count is_assigned new /\
              updated c' = updated c + count (is_accepted w) new) as Hmiss.
  { intros c0 -> -> ? ? ? ?. repeat split; [done|lia|].
    exists []. rewrite app_nil_r. unfold count. simpl. repeat split; lia. }
  destruct (pick_logo_path index (candidates_of ch)) as [[path|]|]; [| |done].
  2: { intros [= <- <-]. by apply (Hmiss (incr_miss c)). }
  destruct (negb (truthy path)).
  { intros [= <- <-]. by apply (Hmiss (incr_miss c)). }
  destruct (download_logo_trace path dir w) as (Hok & new & Ht & Hna & H).
  destruct (download_logo path dir w) as [[[lp ln]|e] w1]; simpl in *.
  - destruct H as (p & data & -> & _ & -> & _). unfold _assign_logo.
    destruct (assign_ok w1 ch lp ln) eqn:Ha; intros [= <- <-]; simpl;
      (split; [done|]); (split; [split; [done|lia]|]);
      exists [DirMade dir; RawFetched p; LogoWritten lp; Assigned ch lp ln];
      rewrite Ht, <- !app_assoc; (split; [done|]);
      unfold count; simpl; rewrite <- Hok, Ha; simpl; lia.
  - assert (forall c0 : counters, (Ok c0, w1) = (Ok c', w') ->
              c0 = incr_miss c ->
              assign_ok w' = assign_ok w /\
              (skipped c' = skipped c /\
               miss c' + downloaded c' = S (miss c + downloaded c)) /\
              exists new0,
                trace w' = trace w ++ new0 /\
                downloaded c' = downloaded c + count is_logo_written new0 /\
                downloaded c' = downloaded c + count is_assigned new0 /\
                updated c' = updated c + count (is_accepted w) new0) as Hfail.
    { destruct H as [H _].
      intros c0 [= <- <-] ->. simpl. split; [done|]. split; [lia|].
      exists new. rewrite H, Hna. split; [done|]. split; [lia|]. split; [lia|].
      assert (count (is_accepted w) new = 0) as ->; [|lia].
      unfold count in *. revert Hna. clear. induction new as [|e l IH]; [done|].
      simpl. destruct e; simpl; try apply IH. done. }
    destruct e; intros Heq; by apply (Hfail _ Heq).
Qed.

Lemma is_accepted_ext w1 w2 l :
  assign_ok w1 = assign_ok w2 -> count (is_accepted w1) l = count (is_accepted w2) l.
Proof.
  intros H. unfold count. f_equal. apply List.filter_ext.
  intros []; simpl; by rewrite ?H.
Qed.

Lemma scan_tally index dir qs : forall c w c' w',
  scan index dir c qs w = (Ok c', w') ->
  assign_ok w' = assign_ok w /\
  skipped c' = skipped c + kept qs /\
  miss c' + downloaded c' = miss c + downloaded c + (length qs - kept qs) /\
  kept qs <= length qs /\
  exists new,
    trace w' = trace w ++ new /\
    downloaded c' = downloaded c + count is_logo_written new /\
    downloaded c' = downloaded c + count is_assigned new /\
    updated c' = updated c + count (is_accepted w) new.
Proof.
  induction qs as [|ch qs IH]; simpl; intros c w c' w'.
  - intros [= <- <-]. unfold kept. simpl. repeat split; try lia.
    exists []. rewrite app_nil_r. unfold count. simpl. repeat split; lia.
  - unfold bind.
    destruct (scan_channel index dir c ch w) as [[c1|e] w1] eqn:E; [|done].
    intros H. apply IH in H as (Ha' & Hs' & Hm' & Hk' & new' & Ht' & H1' & H2' & H3').
    apply scan_channel_tally in E as (Ha & Hstep & new & Ht & H1 & H2 & H3).
    rewrite (is_accepted_ext _ _ _ Ha) in H3'.
    split; [congruence|]. unfold kept in *. simpl.
    destruct (keeps_logo ch); simpl.
    + subst c1. simpl in *. repeat split; try lia.
      exists (new ++ new'). rewrite Ht', Ht, <- app_assoc, !count_app.
      split; [done|]. repeat split; lia.
    + destruct Hstep as [Hs Hm]. repeat split; try lia.
      exists (new ++ new'). rewrite Ht', Ht, <- app_assoc, !count_app.
      split; [done|]. repeat split; lia.
Qed.

Lemma setup_not_logo_written e : setup_event e -> is_logo_written e = false.
Proof. by destruct e. Qed.

Lemma setup_not_assigned e : setup_event e -> is_assigned e = false.
Proof. by destruct e. Qed.

Lemma setup_not_accepted w e : setup_event e -> is_accepted w e = false.
Proof. by destruct e. Qed.

(** The summary of a pass against what the pass did. *)
Lemma do_pass_outcome w s w' :
  _do_pass w = (Ok s, w') ->
  exists new,
    trace w' = trace w ++ new /\
    ((reason s <> None /\ counts s = zero /\ Forall setup_event new) \/
     (reason s = None /\
      exists qs,
        query w = Ok (QuerySet qs None) /\
        skipped (counts s) = kept qs /\
        miss (counts s) + downloaded (counts s) = length qs - kept qs /\
        downloaded (counts s) = count is_logo_written new /\
        downloaded (counts s) = count is_assigned new /\
        updated (counts s) = count (is_accepted w) new)).
Proof.
  destruct (do_pass_cases w) as
    [[Hlock ->]|[(Hlock & Hmk & ->)|[(Hlock & Hmk & _ & ->)|(Hlock & Hmk & _ & ->)]]].
  - intros [= <- <-]. exists []. rewrite app_nil_r. split; [done|]. by left.
  - done.
  - intros [= <- <-].
    destruct (after_setup_same w Hlock) as (_ & _ & _ & _ & _ & new & Ht & Hnew).
    exists new. split; [done|]. by left.
  - destruct (after_setup_same w Hlock) as (_ & _ & _ & Hq0 & Ha0 & new0 & Ht0 & Hnew0).
    rewrite main_pass_cases.
    set (dir := logos_dir_of w) in *. set (w0 := after_setup w) in *.
    destruct (build_index_emits dir w0) as (Hq3 & new3 & Ht3 & Hnew3).
    pose proof (keeps_build_index assign_ok stable_assign_ok dir w0) as Ha3.
    destruct (build_index dir w0) as [[index|e] w3]; [|done]. simpl in *.
    assert (Forall setup_event (new0 ++ new3)) as Hsetup
      by (by apply Forall_app).
    destruct (query w3) as [[qs ending]|] eqn:Eq.
    2: { intros [= <- <-]. exists (new0 ++ new3).
         rewrite Ht3, Ht0, <- app_assoc. split; [done|]. by left. }
    cbn [entities ends].
    destruct (scan index dir zero qs w3) as [[c|e] w4] eqn:Es; [|done].
    destruct ending as [e|]; [done|].
    intros [= <- <-]. simpl.
    apply scan_tally in Es as (_ & Hs & Hm & Hk & new4 & Ht4 & H1 & H2 & H3).
    exists ((new0 ++ new3) ++ new4).
    rewrite Ht4, Ht3, Ht0, <- !app_assoc. split; [done|]. right.
    split; [done|]. exists qs. split; [congruence|].
    rewrite (app_assoc new0), !(count_app _ (new0 ++ new3) new4).
    rewrite (count_setup _ _ setup_not_logo_written Hsetup).
    rewrite (count_setup _ _ setup_not_assigned Hsetup).
    rewrite (count_setup _ _ (setup_not_accepted w) Hsetup).
    rewrite (is_accepted_ext w3 w) in H3 by congruence.
    simpl in *. repeat split; lia.
Qed.

(** X15. A pass that came to the loop skipped exactly the entities whose
    logo is present and no placeholder; each of the others was either a
    miss or a download. *)
Theorem do_pass_skips_kept (w w' : world) (s : summary) :
  _do_pass w = (Ok s, w') ->
  reason s = None ->
  exists qs,
    query w = Ok (QuerySet qs None) /\
    skipped (counts s) = kept qs /\
    miss (counts s) + downloaded (counts s) = length qs - kept qs.
Proof.
  intros Hpass Hreason.
  destruct (do_pass_outcome w s w' Hpass) as (new & _ & [[H _]|[_ H]]); [done|].
  destruct H as (qs & Hq & Hs & Hm & _). by exists qs.
Qed.

Lemma do_pass_skips_kept_witness :
  exists qs,
    query sample_world = Ok (QuerySet qs None) /\
    skipped (counts (Summary true None (Counters 2 2 1 1) "/data/logos"))
    = kept qs /\
    miss (counts (Summary true None (Counters 2 2 1 1) "/data/logos"))
    + downloaded (counts (Summary true None (Counters 2 2 1 1) "/data/logos"))
    = length qs - kept qs.
Proof.
  apply (do_pass_skips_kept sample_world (snd (_do_pass sample_world)));
    by vm_compute.
Defined.

(** X16. The counters of a summary tell what the pass did: downloaded is
    the number of logo files the pass wrote and the number of assignments
    it attempted, updated is the number of assignments the host accepted. *)
Theorem do_pass_counters_match_trace (w w' : world) (s : summary) :
  _do_pass w = (Ok s, w') ->
  let new := new_events _do_pass w in
  downloaded (counts s) = count is_logo_written new /\
  downloaded (counts s) = count is_assigned new /\
  updated (counts s) = count (is_accepted w) new.
Proof.
  intros Hpass new.
  destruct (do_pass_outcome w s w' Hpass) as (new' & Ht & H).
  assert (new = new') as ->.
  { apply new_events_app. by rewrite Hpass. }
  destruct H as [(_ & -> & Hsetup)|(_ & qs & _ & _ & _ & H1 & H2 & H3)]; [|done].
  rewrite (count_setup _ _ setup_not_logo_written Hsetup).
  rewrite (count_setup _ _ setup_not_assigned Hsetup).
  by rewrite (count_setup _ _ (setup_not_accepted w) Hsetup).
Qed.

Lemma do_pass_counters_match_trace_witness :
  let s := Summary true None (Counters 2 2 1 1) "/data/logos" in
  let new := new_events _do_pass sample_world in
  downloaded (counts s) = count is_logo_written new /\
  downloaded (counts s) = count is_assigned new /\
  updated (counts s) = count (is_accepted sample_world) new.
Proof.
  apply (do_pass_counters_match_trace sample_world
           (snd (_do_pass sample_world))).
  by vm_compute.
Defined.

Lemma pick_logo_path_empty cs : pick_logo_path (JObj ∅) cs = Ok None.
Proof.
  induction cs as [|c cs IH]; [done|].
  rewrite pick_logo_path_cons. unfold dict_get. by rewrite lookup_empty.
Qed.

Lemma kept_le qs : kept qs <= length qs.
Proof. apply List.filter_length_le. Qed.

Lemma kept_cons ch qs :
  kept (ch :: qs) = (if keeps_logo ch then 1 else 0) + kept qs.
Proof. unfold kept. simpl. by destruct (keeps_logo ch). Qed.

Lemma ok_counters_eq (w : world) d u s m s' m' :
  s = s' -> m = m' ->
  (Ok (Counters d u s m), w) = (Ok (Counters d u s' m'), w).
Proof. by intros -> ->. Qed.

Lemma scan_empty dir qs : forall c w,
  scan (JObj ∅) dir c qs w
  = (Ok (Counters (downloaded c) (updated c) (skipped c + kept qs)
           (miss c + (length qs - kept qs))), w).
Proof.
  induction qs as [|ch qs IH]; intros c w.
  - destruct c. unfold kept, ret. simpl. apply ok_counters_eq; lia.
  - simpl. unfold scan_channel, bind. rewrite kept_cons.
    pose proof (kept_le qs) as Hle.
    destruct (keeps_logo ch).
    + unfold ret. cbv beta iota. rewrite IH. simpl. apply ok_counters_eq; lia.
    + unfold lift. rewrite pick_logo_path_empty. unfold ret. cbv beta iota.
      rewrite IH. simpl. apply ok_counters_eq; lia.
Qed.

Lemma fresh_value_after_setup p w :
  lock_fresh w = false -> fresh_value p (after_setup w) = fresh_value p w.
Proof.
  intros Hlock.
  destruct (after_setup_same w Hlock) as (Hf & Hn & _).
  unfold fresh_value, is_fresh, cached_value. by rewrite Hf, Hn.
Qed.

(** X17. A pass with no network and no readable cache file assigns
    nothing: the index is empty, so every entity that keeps its logo is
    skipped and every other one is a miss; nothing is downloaded, and the
    cache file is left as it was. Where the iteration of the query ends
    with an exception, the pass has done the same and raises it. *)
Theorem do_pass_offline (w : world) (e : exn) (qs : list channel)
    (ending : option exn) :
  let dir := logos_dir_of w in
  lock_fresh w = false ->
  mkdir_ok w dir = true ->
  channel_model w && logo_model w = true ->
  cached_value (path_join dir INDEX_BASENAME) w = None ->
  listing w = Raise e ->
  query w = Ok (QuerySet qs ending) ->
  _do_pass w
  = (match ending with
     | None => Ok (Summary true None
                     (Counters 0 0 (kept qs) (length qs - kept qs)) dir)
     | Some e' => Raise e'
     end,
     emit ListingFetched (after_setup w)).
Proof.
  intros dir Hlock Hmk Hfound Hcache Hl Hq.
  apply andb_prop in Hfound as [Hch Hlg].
  rewrite (do_pass_main w Hlock Hmk Hch Hlg), main_pass_cases. fold dir.
  destruct (after_setup_same w Hlock) as (Hf0 & Hn0 & Hl0 & Hq0 & _).
  assert (cached_value (path_join dir INDEX_BASENAME) (after_setup w) = None)
    as Hcache0 by (unfold cached_value in *; by rewrite Hf0).
  rewrite (build_index_fetch_failed dir (after_setup w) e);
    [|unfold fresh_value; rewrite Hcache0; by destruct (is_fresh _ _)
     |by rewrite Hl0].
  rewrite Hcache0. cbn [default query emit]. rewrite Hq0, Hq.
  cbn [entities ends]. rewrite scan_empty. by destruct ending.
Qed.

Lemma do_pass_offline_witness :
  _do_pass offline_world
  = (Ok (Summary true None (Counters 0 0 1 3) "/data/logos"),
     emit ListingFetched (after_setup offline_world)).
Proof.
  apply (do_pass_offline offline_world URLError sample_channels None);
    by vm_compute.
Defined.

Lemma scan_no_dict index dir qs :
  (forall m, index <> JObj m) ->
  Exists wants_lookup qs ->
  forall c w, scan index dir c qs w = (Raise AttributeError, w).
Proof.
  intros Hidx. induction qs as [|ch qs IH]; intros Hex c w.
  { by apply Exists_nil in Hex. }
  simpl. unfold scan_channel, bind.
  destruct (keeps_logo ch) eqn:Hk.
  { unfold ret. cbv beta iota. apply IH. apply Exists_cons in Hex as [[Hk' _]|Hex]; [|done].
    congruence. }
  unfold lift. destruct (candidates_of ch) as [|c0 cs] eqn:Hc.
  - simpl. unfold ret. cbv beta iota. apply IH.
    apply Exists_cons in Hex as [[_ Hc']|Hex]; [|done]. by destruct Hc'.
  - by rewrite (pick_logo_path_no_dict index c0 cs Hidx).
Qed.

(** X18. A cache file that is fresh and holds JSON which is no object (an
    array, a string) is handed to the resolver as it is: a pass that has
    an entity to look up then raises AttributeError, after the lock was
    taken and the directory made, and before anything is fetched,
    however the iteration of the query would have ended. *)
Theorem do_pass_bad_cache (w : world) (idx : json) (qs : list channel)
    (ending : option exn) :
  let dir := logos_dir_of w in
  lock_fresh w = false ->
  mkdir_ok w dir = true ->
  channel_model w && logo_model w = true ->
  fresh_value (path_join dir INDEX_BASENAME) w = Some idx ->
  (forall m, idx <> JObj m) ->
  query w = Ok (QuerySet qs ending) ->
  Exists wants_lookup qs ->
  _do_pass w = (Raise AttributeError, after_setup w).
Proof.
  intros dir Hlock Hmk Hfound Hcache Hidx Hq Hex.
  apply andb_prop in Hfound as [Hch Hlg].
  rewrite (do_pass_main w Hlock Hmk Hch Hlg), main_pass_cases. fold dir.
  destruct (after_setup_same w Hlock) as (_ & _ & _ & Hq0 & _).
  rewrite (build_index_cached dir (after_setup w) idx)
    by (by rewrite fresh_value_after_setup).
  rewrite Hq0, Hq. cbn [entities].
  by rewrite (scan_no_dict idx dir qs Hidx Hex).
Qed.

Lemma do_pass_bad_cache_witness :
  _do_pass bad_cache_world = (Raise AttributeError, after_setup bad_cache_world).
Proof.
  apply (do_pass_bad_cache bad_cache_world (JArr []) sample_channels None);
    try (by vm_compute).
  apply Exists_cons_hd. split; by vm_compute.
Defined.

(** ** The local name of a download *)

Lemma has_char_lower_dot s :
  existsb (Ascii.eqb ".") (list_ascii_of_string (Py.lower s)) =
  existsb (Ascii.eqb ".") (list_ascii_of_string s).
Proof.
  induction s as [|c s IH]; simpl; [done|]. rewrite IH. f_equal.
  destruct c as [[] [] [] [] [] [] [] []]; reflexivity.
Qed.

Lemma lower_char_dot c : Py.lower_char c = "."%char -> c = "."%char.
Proof. destruct c as [[] [] [] [] [] [] [] []]; by vm_compute. Qed.

(** An image extension, in any case of letters, is a dot and letters. *)
Lemma ext_shape e :
  In (Py.lower e) exts ->
  exists e', e = String "." e' /\
    existsb (Ascii.eqb ".") (list_ascii_of_string e') = false /\
    existsb (Ascii.eqb "/") (list_ascii_of_string e') = false.
Proof.
  intros He. destruct e as [|c e'].
  { unfold exts in He. simpl in He. by repeat destruct He as [He|He]. }
  assert (Py.lower_char c = "."%char /\
          existsb (Ascii.eqb ".") (list_ascii_of_string (Py.lower e')) = false /\
          existsb (Ascii.eqb "/") (list_ascii_of_string (Py.lower e')) = false)
    as (Hc & Hdot & Hsl).
  { unfold exts in He. simpl in He.
    repeat (destruct He as [He|He];
            [injection He as <- <-; by repeat split|]). done. }
  apply lower_char_dot in Hc as ->. exists e'.
  by rewrite <- has_char_lower_dot, <- has_char_lower_slash.
Qed.

Lemma rsplit_head_app (sep : ascii) s e :
  existsb (Ascii.eqb sep) (list_ascii_of_string e) = false ->
  Py.rsplit_head sep (s +:+ String sep e) = s.
Proof.
  intros He. induction s as [|c s IH]; simpl.
  - by rewrite He, Ascii.eqb_refl.
  - by rewrite has_char_app, IH; simpl; rewrite Ascii.eqb_refl, orb_true_r.
Qed.

Lemma download_logo_ok p dir w lp ln :
  fst (download_logo (JStr p) dir w) = Ok (lp, ln) ->
  ln = Py.rsplit_head "." (Py.rsplit_last "/" p)
       +:+ "." +:+ Py.lower (Py.rsplit_last "." p) /\
  lp = path_join dir ln.
Proof.
  unfold download_logo, bind, ensure_dir, _http_get_raw, write_logo, ret.
  destruct (mkdir_ok w dir); [|done]. simpl.
  destruct (raw w p); [|done]. simpl.
  destruct (writable w _); [|done]. by intros [= <- <-].
Qed.

(** The local name of an image path. *)
Lemma image_local_name p :
  image_path p = true ->
  exists stem e,
    Py.rsplit_last "/" p = stem +:+ e /\ In (Py.lower e) exts /\
    Py.rsplit_head "." (Py.rsplit_last "/" p)
      +:+ "." +:+ Py.lower (Py.rsplit_last "." p)
    = stem +:+ Py.lower e /\
    existsb (Ascii.eqb "/") (list_ascii_of_string (stem +:+ Py.lower e)) = false.
Proof.
  intros (q & e & -> & He)%image_path_split.
  destruct (ext_shape e He) as (e' & -> & Hdot & Hsl).
  assert (existsb (Ascii.eqb "/") (list_ascii_of_string (String "." e')) = false)
    as Hsl' by (simpl; by rewrite Hsl).
  rewrite (rsplit_last_app "/" q _ Hsl').
  set (stem := Py.rsplit_last "/" q).
  assert (Py.rsplit_last "." (q +:+ String "." e') = e') as Hlast.
  { change (String "." e') with ("." +:+ e'). rewrite <- append_assoc.
    apply rsplit_last_unique; [done|]. right. by exists q. }
  rewrite Hlast, (rsplit_head_app "." stem e' Hdot).
  exists stem, (String "." e'). split; [done|]. split; [done|]. split; [done|].
  rewrite has_char_app, has_char_lower_slash, Hsl'.
  unfold stem. by rewrite rsplit_last_sep.
Qed.

(** X19. The file of an image path is stored right in the logo directory:
    its local name is the last segment of the path with the extension in
    small letters, it holds no slash, and it has the key under which the
    index holds the path. *)
Theorem download_logo_local_name (p dir lp ln : string) (w : world) :
  image_path p = true ->
  fst (download_logo (JStr p) dir w) = Ok (lp, ln) ->
  (exists stem e,
     Py.rsplit_last "/" p = stem +:+ e /\ In (Py.lower e) exts /\
     ln = stem +:+ Py.lower e) /\
  lp = path_join dir ln /\
  existsb (Ascii.eqb "/") (list_ascii_of_string ln) = false /\
  key_of_path ln = key_of_path p.
Proof.
  intros Himg [Hln Hlp]%download_logo_ok.
  destruct (image_local_name p Himg) as (stem & e & Hseg & He & Hname & Hfree).
  rewrite Hname in Hln. subst ln.
  split; [by exists stem, e|]. split; [done|]. split; [done|].
  unfold key_of_path. rewrite (rsplit_last_free _ _ Hfree), Hseg.
  unfold Re.sub. rewrite !sub_ext_strips; [done|done|]. by rewrite lower_idem.
Qed.

Lemma download_logo_local_name_witness :
  (exists stem e,
     Py.rsplit_last "/" "Sports/ESPN.PNG" = stem +:+ e /\
     In (Py.lower e) exts /\ "ESPN.png" = stem +:+ Py.lower e) /\
  "/data/logos/ESPN.png" = path_join "/data/logos" "ESPN.png" /\
  existsb (Ascii.eqb "/") (list_ascii_of_string "ESPN.png") = false /\
  key_of_path "ESPN.png" = key_of_path "Sports/ESPN.PNG".
Proof.
  apply (download_logo_local_name "Sports/ESPN.PNG" "/data/logos"
           "/data/logos/ESPN.png" "ESPN.png" sample_world);
    by vm_compute.
Defined.

(** ** Assignments and the files behind them *)

Lemma backed_app dir P a b :
  backed dir P a -> backed dir P b -> backed dir P (a ++ b).
Proof.
  intros Ha Hb ch lp ln l1 l2 E.
  apply List.app_eq_app in E as [l [[-> E]|[-> E]]].
  - destruct l as [|e l]; simpl in E.
    + destruct (Hb ch lp ln [] l2) as (? & ? & ? & []). by rewrite E.
    + injection E as <- ->. apply (Ha ch lp ln l1 l). done.
  - destruct (Hb ch lp ln l l2 E) as (? & ? & ? & Hin).
    repeat split; try done. apply in_or_app. by right.
Qed.

Lemma backed_none dir P new : count is_assigned new = 0 -> backed dir P new.
Proof.
  intros H ch lp ln l1 l2 ->. rewrite count_app in H.
  unfold count in H. simpl in H. lia.
Qed.

Lemma backed_setup dir P new : Forall setup_event new -> backed dir P new.
Proof.
  intros H. apply backed_none. by apply (count_setup _ _ setup_not_assigned).
Qed.

Lemma backed_weaken dir (P Q : channel -> Prop) new :
  (forall ch, P ch -> Q ch) -> backed dir P new -> backed dir Q new.
Proof.
  intros HPQ H ch lp ln l1 l2 E.
  destruct (H ch lp ln l1 l2 E) as (? & ? & ? & ?). auto.
Qed.

Lemma scan_channel_backed index dir c ch w :
  exists new,
    trace (snd (scan_channel index dir c ch w)) = trace w ++ new /\
    backed dir (eq ch) new.
Proof.
  assert (exists new, trace w = trace w ++ new /\ backed dir (eq ch) new)
    as Hnone.
  { exists []. rewrite app_nil_r. split; [done|]. by apply backed_none. }
  unfold scan_channel. destruct (keeps_logo ch) eqn:Hk; [done|].
  unfold bind, lift, ret, try_except.
  destruct (pick_logo_path index (candidates_of ch)) as [[path|]|]; try done.
  destruct (negb (truthy path)); [done|].
  destruct (download_logo_trace path dir w) as (_ & new & Ht & Hna & H).
  destruct (download_logo path dir w) as [[[lp ln]|e] w1] eqn:Ed; simpl in *.
  - destruct H as (p & data & -> & _ & -> & _).
    assert (lp = path_join dir ln) as Hlp.
    { apply (download_logo_ok p dir w lp ln). by rewrite Ed. }
    exists [DirMade dir; RawFetched p; LogoWritten lp; Assigned ch lp ln].
    split.
    { unfold _assign_logo. destruct (assign_ok w1 ch lp ln); simpl;
        by rewrite Ht, <- !app_assoc. }
    intros ch' lp' ln' l1 l2 E.
    destruct l1 as [|e1 [|e2 [|e3 [|e4 l1]]]]; simpl in E; try done.
    + simplify_eq. repeat split; try done. simpl. tauto.
    + simplify_eq. by destruct l1.
  - exists new. split; [by destruct e|]. by apply backed_none.
Qed.

Lemma scan_backed index dir qs : forall c w,
  exists new,
    trace (snd (scan index dir c qs w)) = trace w ++ new /\
    backed dir (fun ch => In ch qs) new.
Proof.
  induction qs as [|ch qs IH]; intros c w; simpl.
  { exists []. rewrite app_nil_r. split; [done|]. by apply backed_none. }
  unfold bind.
  destruct (scan_channel_backed index dir c ch w) as (new & Ht & Hnew).
  apply (backed_weaken _ _ (fun x => ch = x \/ In x qs)) in Hnew; [|by left].
  destruct (scan_channel index dir c ch w) as [[c1|e] w1]; simpl in *.
  - destruct (IH c1 w1) as (new' & Ht' & Hnew').
    apply (backed_weaken _ _ (fun x => ch = x \/ In x qs)) in Hnew'; [|by right].
    exists (new ++ new'). rewrite Ht', Ht, <- app_assoc. split; [done|].
    by apply backed_app.
  - by exists new.
Qed.

(** X20. A pass tells the host of a logo only after the file is on disk:
    every assignment it makes is of an entity of the query that does not
    keep its logo, and it names a file of the logo directory that the
    pass has written before. *)
Theorem do_pass_assigns_written (w : world) (ch : channel) (lp ln : string)
    (l1 l2 : list event) :
  new_events _do_pass w = l1 ++ Assigned ch lp ln :: l2 ->
  (exists qs, query w = Ok qs /\ In ch (entities qs)) /\
  keeps_logo ch = false /\
  lp = path_join (logos_dir_of w) ln /\
  In (LogoWritten lp) l1.
Proof.
  revert ch lp ln l1 l2.
  change (backed (logos_dir_of w)
            (fun ch => exists qs, query w = Ok qs /\ In ch (entities qs))
            (new_events _do_pass w)).
  assert (forall new, trace (snd (_do_pass w)) = trace w ++ new ->
            Forall setup_event new ->
            backed (logos_dir_of w)
              (fun ch => exists qs, query w = Ok qs /\ In ch (entities qs))
              (new_events _do_pass w)) as Hsetup.
  { intros new Ht Hnew. rewrite (new_events_app _ _ _ Ht).
    by apply backed_setup. }
  destruct (do_pass_cases w) as
    [[Hlock E]|[(Hlock & Hmk & E)|[(Hlock & Hmk & _ & E)|(Hlock & Hmk & _ & E)]]].
  - apply (Hsetup []); [|done]. by rewrite E, app_nil_r.
  - destruct (acquire_lock_emits w) as (_ & new & Ht & Hnew).
    apply (Hsetup new); [|done]. by rewrite E.
  - destruct (after_setup_same w Hlock) as (_ & _ & _ & _ & _ & new & Ht & Hnew).
    apply (Hsetup new); [|done]. by rewrite E.
  - destruct (after_setup_same w Hlock) as (_ & _ & _ & Hq0 & _ & new0 & Ht0 & Hnew0).
    rewrite main_pass_cases in E.
    set (dir := logos_dir_of w) in *. set (w0 := after_setup w) in *.
    destruct (build_index_emits dir w0) as (Hq3 & new3 & Ht3 & Hnew3).
    destruct (build_index dir w0) as [[index|e] w3]; simpl in *.
    2: { apply (Hsetup (new0 ++ new3)); [|by apply Forall_app].
         rewrite E. simpl. by rewrite Ht3, Ht0, <- app_assoc. }
    destruct (query w3) as [qs|] eqn:Eq.
    2: { apply (Hsetup (new0 ++ new3)); [|by apply Forall_app].
         rewrite E. simpl. by rewrite Ht3, Ht0, <- app_assoc. }
    destruct (scan_backed index dir (entities qs) zero w3) as (new4 & Ht4 & Hnew4).
    assert (trace (snd (_do_pass w)) = trace w ++ (new0 ++ new3) ++ new4) as Ht.
    { rewrite E. destruct (scan index dir zero (entities qs) w3) as [[c|e] w4];
        simpl in *; by rewrite Ht4, Ht3, Ht0, <- !app_assoc. }
    rewrite (new_events_app _ _ _ Ht). apply backed_app.
    + apply backed_setup. by apply Forall_app.
    + eapply backed_weaken; [|exact Hnew4]. intros x Hx. exists qs.
      split; [congruence|done].
Qed.

Lemma do_pass_assigns_written_witness :
  (exists qs, query sample_world = Ok qs /\
     In (Channel (Some "espn") (Some "ESPN") None) (entities qs)) /\
  keeps_logo (Channel (Some "espn") (Some "ESPN") None) = false /\
  "/data/logos/ESPN.png" = path_join (logos_dir_of sample_world) "ESPN.png" /\
  In (LogoWritten "/data/logos/ESPN.png")
     [LockWritten; DirMade "/data/logos"; ListingFetched;
      CacheWritten "/data/logos/.tvlogos_index.json";
      DirMade "/data/logos"; RawFetched "Sports/ESPN.png";
      LogoWritten "/data/logos/ESPN.png"].
Proof.
  apply (do_pass_assigns_written sample_world
           (Channel (Some "espn") (Some "ESPN") None)
           "/data/logos/ESPN.png" "ESPN.png" _
           [DirMade "/data/logos"; RawFetched "News/CNN.svg";
            LogoWritten "/data/logos/CNN.svg";
            Assigned (Channel None (Some "CNN") (Some "logo.png"))
              "/data/logos/CNN.svg" "CNN.svg"]).
  by vm_compute.
Defined.

(** ** The field heuristics *)

Lemma getattr_truthy o a v :
  getattr o a = Ok v -> truthy v = true -> read o a = Ok v.
Proof.
  unfold getattr. destruct (read o a) as [x|e]; [done|].
  destruct e; try done. by intros [= <-].
Qed.

Lemma hasattr_true o a :
  hasattr o a = Ok true -> exists v, read o a = Ok v /\ getattr o a = Ok v.
Proof.
  unfold hasattr, getattr. destruct (read o a) as [x|e]; [by exists x|].
  by destruct e.
Qed.

Lemma hasattr_false o a v : hasattr o a = Ok false -> read o a <> Ok v.
Proof. unfold hasattr. destruct (read o a) as [x|e]; [done|]. by destruct e. Qed.

(** A true value of the guarded block comes from a true [logo]. *)
Lemma logo_of_row_truthy ch :
  truthy (logo_of_row ch) = true ->
  exists v, read ch "logo" = Ok v /\ truthy v = true.
Proof.
  unfold logo_of_row. destruct (getattr ch "logo") as [obj|e] eqn:E; [|done].
  destruct (truthy obj) eqn:Ht; simpl.
  - intros _. exists obj. split; [|done]. by apply getattr_truthy.
  - destruct (is_str obj) eqn:Hs; [|done]. intros H.
    change (truthy obj = true) in H. congruence.
Qed.

Lemma own_value_truthy ch attrs : forall cur l,
  own_value ch attrs cur = Ok l ->
  truthy cur = false ->
  truthy l = true <->
  exists a v, In a attrs /\ read ch a = Ok v /\ truthy v = true.
Proof.
  induction attrs as [|a rest IH]; intros cur l; simpl.
  - intros [= <-] Hc. split; [congruence|]. by intros (a & v & [] & _).
  - destruct (hasattr ch a) as [[]|e] eqn:Eh; [| |done].
    + apply hasattr_true in Eh as (v & Hr & ->).
      destruct (truthy v) eqn:Hv.
      * intros [= <-] _. split; [|done]. intros _. exists a, v. auto.
      * intros H Hc. rewrite (IH cur l H Hc). split.
        -- intros (a' & v' & Hin & H'). exists a', v'. auto.
        -- intros (a' & v' & [<-|Hin] & Hr' & Hv'); [congruence|].
           by exists a', v'.
    + intros H Hc. rewrite (IH cur l H Hc). split.
      * intros (a' & v' & Hin & H'). exists a', v'. auto.
      * intros (a' & v' & [<-|Hin] & Hr' & Hv').
        -- by destruct (hasattr_false ch a v' Eh).
        -- by exists a', v'.
Qed.

(** X21. The logo value that is reported of an entity is true exactly
    when one of its attributes tvg_logo, logo_url, icon, image and logo
    reads as a true value: an entity is seen as having a logo as soon as
    any of them is set. *)
Theorem extract_logo_truthy (ch tvg_id name logo_val : pyval) :
  _extract_channel_fields ch = Ok (tvg_id, name, logo_val) ->
  truthy logo_val = true <->
  exists a v, In a OWN_ATTRS /\ read ch a = Ok v /\ truthy v = true.
Proof.
  unfold _extract_channel_fields.
  destruct (or_read _ _) as [t|]; [|done].
  destruct (or_read _ _) as [n|]; [|done]. cbv zeta.
  destruct (truthy (logo_of_row ch)) eqn:Hrow; cbn [negb].
  - intros [= _ _ <-]. split; [|done]. intros _.
    destruct (logo_of_row_truthy ch Hrow) as (v & Hr & Hv).
    exists "logo", v. split; [|done]. unfold OWN_ATTRS. simpl. tauto.
  - destruct (own_value ch OWN_ATTRS (logo_of_row ch)) as [l|] eqn:E; [|done].
    intros [= _ _ <-]. by apply (own_value_truthy ch OWN_ATTRS _ _ E).
Qed.

Lemma extract_logo_truthy_witness :
  truthy (PObj {[ "name" := Ok (PStr "espn"); "url" := Ok (PStr "") ]}) = true
  <-> exists a v, In a OWN_ATTRS /\ read empty_row_channel a = Ok v /\
                  truthy v = true.
Proof.
  apply (extract_logo_truthy empty_row_channel PNone (PStr "ESPN")).
  by vm_compute.
Defined.

Lemma row_value_falsy row attrs : forall cur,
  truthy cur = false ->
  (forall a v, In a attrs -> read (PObj row) a = Ok v -> truthy v = false) ->
  truthy (row_value (PObj row) attrs cur) = false.
Proof.
  induction attrs as [|a rest IH]; intros cur Hc Hall; simpl; [done|].
  destruct (hasattr (PObj row) a) as [[]|e] eqn:Eh; [| |done].
  - apply hasattr_true in Eh as (v & Hr & ->).
    assert (truthy v = false) as Hv by (apply (Hall a v); simpl; auto).
    rewrite Hv. apply IH; [done|]. intros a' v' Hin. apply Hall. simpl. auto.
  - apply IH; [done|]. intros a' v' Hin. apply Hall. simpl. auto.
Qed.

Lemma own_value_skip ch attrs rest cur l :
  (forall a v, In a attrs -> read ch a = Ok v -> truthy v = false) ->
  own_value ch (attrs ++ rest) cur = Ok l ->
  own_value ch rest cur = Ok l.
Proof.
  induction attrs as [|a attrs IH]; intros Hall; [done|]. simpl.
  assert (forall a' v, In a' attrs -> read ch a' = Ok v -> truthy v = false)
    as Hall' by (intros a' v Hin; apply Hall; simpl; auto).
  destruct (hasattr ch a) as [[]|e] eqn:Eh; [|by apply IH|done].
  apply hasattr_true in Eh as (v & Hr & ->).
  rewrite (Hall a v (or_introl eq_refl) Hr). by apply IH.
Qed.

(** X22. An entity whose logo is a row of which no file attribute reads
    as a true value, and which has no true tvg_logo, logo_url, icon or
    image of its own, is reported with the row itself as its logo
    value. *)
Theorem extract_logo_empty_row (ch tvg_id name logo_val : pyval)
    (row : gmap string (result pyval)) :
  _extract_channel_fields ch = Ok (tvg_id, name, logo_val) ->
  read ch "logo" = Ok (PObj row) ->
  (forall a v, In a FILE_ATTRS -> read (PObj row) a = Ok v -> truthy v = false) ->
  (forall a v, In a ["tvg_logo"; "logo_url"; "icon"; "image"] ->
               read ch a = Ok v -> truthy v = false) ->
  logo_val = PObj row.
Proof.
  intros Hex Hlogo Hrow Hown. revert Hex. unfold _extract_channel_fields.
  destruct (or_read _ _) as [t|]; [|done].
  destruct (or_read _ _) as [n|]; [|done]. cbv zeta.
  assert (truthy (logo_of_row ch) = false) as Hfalse.
  { unfold logo_of_row, getattr. rewrite Hlogo.
    change (truthy (PObj row)) with true. cbn [is_str negb andb].
    by apply row_value_falsy. }
  rewrite Hfalse. cbn [negb].
  destruct (own_value ch OWN_ATTRS (logo_of_row ch)) as [l|] eqn:E; [|done].
  intros [= _ _ <-].
  change OWN_ATTRS with (["tvg_logo"; "logo_url"; "icon"; "image"] ++ ["logo"])
    in E.
  apply (own_value_skip _ _ _ _ _ Hown) in E. revert E. cbn [own_value].
  unfold hasattr, getattr. rewrite Hlogo.
  change (truthy (PObj row)) with true. cbv iota. by intros [= <-].
Qed.

Lemma extract_logo_empty_row_witness :
  let row : gmap string (result pyval) :=
    {[ "name" := Ok (PStr "espn"); "url" := Ok (PStr "") ]} in
  _extract_channel_fields empty_row_channel
  = Ok (PNone, PStr "ESPN", PObj row) /\
  read empty_row_channel "logo" = Ok (PObj row) /\
  PObj row = PObj row.
Proof.
  intros row. split; [by vm_compute|]. split; [by vm_compute|].
  apply (extract_logo_empty_row empty_row_channel PNone (PStr "ESPN")).
  - by vm_compute.
  - by vm_compute.
  - intros a v Hin. unfold FILE_ATTRS in Hin. simpl in Hin.
    repeat (destruct Hin as [<-|Hin]; [vm_compute; by intros [= <-]|]). done.
  - intros a v Hin. simpl in Hin.
    repeat (destruct Hin as [<-|Hin]; [by vm_compute|]). done.
Defined.

Lemma elem_of_all_fields c fields :
  c ∈ all_fields fields <-> In (ModelField c true) fields.
Proof.
  unfold all_fields. rewrite elem_of_list_to_set, list_elem_of_fmap. split.
  - intros ([f b] & -> & Hin). apply list_elem_of_In, List.filter_In in Hin.
    destruct Hin as [Hin Hb]. simpl in *. by subst b.
  - intros Hin. exists (ModelField c true). split; [done|].
    apply list_elem_of_In, List.filter_In. by split.
Qed.

Lemma first_in_some cands fields c :
  first_in cands (all_fields fields) = Some c ->
  In c cands /\ In (ModelField c true) fields.
Proof.
  intros [Hin H]%List.find_some. split; [done|].
  apply bool_decide_eq_true in H. by apply elem_of_all_fields.
Qed.

Lemma first_in_none cands fields c :
  first_in cands (all_fields fields) = None ->
  In c cands -> ~ In (ModelField c true) fields.
Proof.
  intros H Hin Hf. apply (List.find_none _ _ H) in Hin.
  apply bool_decide_eq_false in Hin. by apply Hin, elem_of_all_fields.
Qed.

(** X23. The fields inferred for a logo model are fields of the model that
    have a column, the file field one of the file candidates and the name
    field one of the name candidates; none is inferred only where the
    model has no such field; and the two are never the same field. *)
Theorem infer_logo_fields_sound (fields : list model_field)
    (file_field name_field : option string) :
  _infer_logo_fields fields = (file_field, name_field) ->
  (forall f, file_field = Some f ->
     In f FILE_CANDIDATES /\ In (ModelField f true) fields) /\
  (forall n, name_field = Some n ->
     In n NAME_CANDIDATES /\ In (ModelField n true) fields) /\
  (file_field = None ->
     forall c, In c FILE_CANDIDATES -> ~ In (ModelField c true) fields) /\
  (name_field = None ->
     forall c, In c NAME_CANDIDATES -> ~ In (ModelField c true) fields) /\
  (forall f n, file_field = Some f -> name_field = Some n -> f <> n).
Proof.
  unfold _infer_logo_fields. cbv zeta. intros [= Hf Hn].
  assert (forall f, file_field = Some f ->
            In f FILE_CANDIDATES /\ In (ModelField f true) fields) as Hfile.
  { intros f ->. by apply first_in_some. }
  assert (forall n, name_field = Some n ->
            In n NAME_CANDIDATES /\ In (ModelField n true) fields) as Hname.
  { intros n ->. by apply first_in_some. }
  split; [done|]. split; [done|].
  split; [intros ->; intros c; by apply first_in_none|].
  split; [intros ->; intros c; by apply first_in_none|].
  intros f n [Hinf _]%Hfile [Hinn _]%Hname ->.
  unfold FILE_CANDIDATES, NAME_CANDIDATES in *. simpl in *.
  repeat (destruct Hinf as [<-|Hinf]; [clear -Hinn; intuition discriminate|]).
  done.
Qed.

Lemma infer_logo_fields_sound_witness :
  (forall f, Some "url" = Some f ->
     In f FILE_CANDIDATES /\ In (ModelField f true) sample_logo_fields) /\
  (forall n, Some "name" = Some n ->
     In n NAME_CANDIDATES /\ In (ModelField n true) sample_logo_fields) /\
  (Some "url" = None ->
     forall c, In c FILE_CANDIDATES -> ~ In (ModelField c true) sample_logo_fields) /\
  (Some "name" = None ->
     forall c, In c NAME_CANDIDATES -> ~ In (ModelField c true) sample_logo_fields) /\
  (forall f n, Some "url" = Some f -> Some "name" = Some n -> f <> n).
Proof.
  apply (infer_logo_fields_sound sample_logo_fields). by vm_compute.
Defined.

(** ** Where a pass writes *)

Lemma acquire_lock_inside dir : emits (inside dir) _acquire_lock.
Proof.
  unfold _acquire_lock. apply emits_if; [apply emits_ret|].
  apply emits_if; [|apply emits_ret].
  by apply (emits_one _ LockWritten (fun _ => Ok true) (fun w => set_lock (now w) w)).
Qed.

Lemma build_index_inside dir : emits (inside dir) (build_index dir).
Proof.
  intros w.
  destruct (fresh_value (path_join dir INDEX_BASENAME) w) as [idx|] eqn:E.
  { rewrite (build_index_cached _ _ _ E). split; [done|].
    exists []. by rewrite app_nil_r. }
  destruct (listing w) as [tree|e] eqn:El.
  - destruct (index_of_tree tree) as [index|e] eqn:Ei.
    + rewrite (build_index_built _ _ _ _ E El Ei). unfold built. simpl.
      destruct (writable w _); simpl; (split; [done|]).
      * exists [ListingFetched; CacheWritten (path_join dir INDEX_BASENAME)].
        rewrite <- app_assoc. split; [done|]. by repeat constructor.
      * exists [ListingFetched]. split; [done|]. by repeat constructor.
    + rewrite (build_index_payload_raises _ _ _ _ E El Ei). split; [done|].
      exists [ListingFetched]. split; [done|]. by repeat constructor.
  - rewrite (build_index_fetch_failed _ _ _ E El). split; [done|].
    exists [ListingFetched]. split; [done|]. by repeat constructor.
Qed.

Lemma built_index_image nodes index :
  index_nodes ∅ nodes = Ok index -> image_index (of_index index).
Proof.
  intros Hnodes m k p [= <-] Hk. rewrite lookup_fmap in Hk.
  destruct (index !! k) as [q|] eqn:E; [|done]. injection Hk as ->.
  destruct (index_nodes_values _ _ _ _ Hnodes E) as (node & _ & Hnode).
  by apply entry_of_image in Hnode as [? _].
Qed.

(** What the resolver returns is a value of the index. *)
Lemma pick_logo_path_value index cs path :
  pick_logo_path index cs = Ok (Some path) ->
  exists m k, index = JObj m /\ m !! k = Some path.
Proof.
  induction cs as [|c cs IH]; [done|]. rewrite pick_logo_path_cons.
  destruct index; try done. simpl.
  destruct (m !! normalize_key c) as [v|] eqn:E; [|by auto].
  change (truthy (Some v)) with (truthy v).
  destruct (truthy v); [|by auto]. intros [= <-]. by exists m, (normalize_key c).
Qed.

Lemma download_logo_inside path dir :
  (forall p, path = JStr p -> image_path p = true) ->
  emits (inside dir) (download_logo path dir).
Proof.
  intros Himg. unfold download_logo.
  apply emits_bind; [by apply ensure_dir_emits|]. intros _.
  apply emits_bind.
  { unfold _http_get_raw. destruct path; try apply emits_raise.
    by apply (emits_one _ (RawFetched s) (fun w => raw w s) (fun w => w)). }
  intros data. destruct path as [| | |p| |]; try apply emits_raise.
  apply emits_bind; [|intros _; apply emits_ret].
  destruct (image_local_name p (Himg p eq_refl))
    as (stem & e & _ & He & Hname & Hfree).
  intros w. unfold write_logo. destruct (writable w _); simpl.
  - split; [done|]. eexists. split; [done|]. constructor; [|done]. simpl.
    exists (stem +:+ Py.lower e). split; [rewrite <- Hname; reflexivity|].
    split; [|done]. by exists stem, (Py.lower e).
  - split; [done|]. exists []. by rewrite app_nil_r.
Qed.

Lemma scan_channel_inside index dir c ch :
  image_index index ->
  emits (inside dir) (scan_channel index dir c ch).
Proof.
  intros Hidx. unfold scan_channel. destruct (keeps_logo ch); [apply emits_ret|].
  intros w. unfold bind at 1, lift.
  destruct (pick_logo_path index (candidates_of ch)) as [path|e] eqn:Epick.
  2: { split; [done|]. exists []. by rewrite app_nil_r. }
  revert w. change (emits (inside dir)
    (match path with
     | None => ret (incr_miss c)
     | Some path =>
         if negb (truthy path) then ret (incr_miss c)
         else
           let* got := try_except
                         (let* r := download_logo path dir in ret (Some r))
                         (fun e =>
                            match e with
                            | HTTPError _ => ret None
                            | _ => ret None
                            end) in
           match got with
           | None => ret (incr_miss c)
           | Some (local_path, local_name) =>
               let c := incr_downloaded c in
               let* ok := _assign_logo ch local_path local_name in
               if ok then ret (incr_updated c) else ret c
           end
     end)).
  destruct path as [path|]; [|apply emits_ret].
  destruct (negb (truthy path)); [apply emits_ret|].
  apply pick_logo_path_value in Epick as (m & k & -> & Hk).
  apply emits_bind.
  { apply emits_try_except.
    - apply emits_bind; [|intros ?; apply emits_ret].
      apply download_logo_inside. intros p ->. by apply (Hidx m k p).
    - intros []; apply emits_ret. }
  intros [[lp ln]|]; [|apply emits_ret].
  apply emits_bind.
  { unfold _assign_logo.
    by apply (emits_one _ (Assigned ch lp ln)
                (fun w => Ok (assign_ok w ch lp ln)) (fun w => w)). }
  intros []; apply emits_ret.
Qed.

Lemma scan_inside index dir qs : forall c,
  image_index index ->
  emits (inside dir) (scan index dir c qs).
Proof.
  induction qs as [|ch qs IH]; simpl; intros c Hidx; [apply emits_ret|].
  apply emits_bind; [by apply scan_channel_inside|]. intros c'. by apply IH.
Qed.

Lemma after_setup_inside w :
  exists new,
    trace (after_setup w) = trace (snd (_acquire_lock w)) ++ new /\
    Forall (inside (logos_dir_of w)) new.
Proof.
  exists [DirMade (logos_dir_of w)]. split; [done|]. by repeat constructor.
Qed.

(** X24. A pass whose index holds image paths only, as every index does
    that is built from a listing, writes into the logo directory only,
    the lock marker apart: the one directory it calls [os.makedirs] for
    is the logo directory, the one cache file it writes is that of the
    logo directory, and every logo file it writes is the logo directory
    joined with a name that holds no slash and ends in an image
    extension. *)
Theorem do_pass_writes_inside (w : world) :
  (forall idx, fst (build_index (logos_dir_of w) w) = Ok idx -> image_index idx) ->
  Forall (inside (logos_dir_of w)) (new_events _do_pass w).
Proof.
  intros Himg. set (dir := logos_dir_of w) in *.
  destruct (acquire_lock_inside dir w) as (_ & new1 & Ht1 & Hnew1).
  destruct (after_setup_inside w) as (new2 & Ht2 & Hnew2). fold dir in Hnew2.
  destruct (do_pass_cases w) as
    [[Hlock E]|[(Hlock & Hmk & E)|[(Hlock & Hmk & _ & E)|(Hlock & Hmk & _ & E)]]].
  - rewrite (new_events_app _ _ []); [done|]. by rewrite E, app_nil_r.
  - rewrite (new_events_app _ _ new1); [done|]. by rewrite E.
  - rewrite (new_events_app _ _ (new1 ++ new2)); [by apply Forall_app|].
    rewrite E. cbn [snd]. by rewrite Ht2, Ht1, <- app_assoc.
  - fold dir in E. rewrite main_pass_cases in E.
    destruct (after_setup_same w Hlock) as (Hf0 & Hn0 & Hl0 & _).
    pose proof (build_index_result_ext dir (after_setup w) w Hf0 Hn0 Hl0) as Hsame.
    destruct (build_index_inside dir (after_setup w)) as (_ & new3 & Ht3 & Hnew3).
    destruct (build_index dir (after_setup w)) as [[index|e] w3]; simpl in *.
    2: { rewrite (new_events_app _ _ ((new1 ++ new2) ++ new3)).
         - apply Forall_app. split; [by apply Forall_app|done].
         - rewrite E. cbn [snd]. by rewrite Ht3, Ht2, Ht1, <- !app_assoc. }
    assert (image_index index) as Hidx by (apply Himg; by rewrite <- Hsame).
    assert (exists new4, trace (snd (_do_pass w)) = trace w3 ++ new4 /\
                         Forall (inside dir) new4) as (new4 & Ht4 & Hnew4).
    { rewrite E. destruct (query w3) as [qs|].
      2: { exists []. by rewrite app_nil_r. }
      destruct (scan_inside index dir (entities qs) zero Hidx w3)
        as (_ & new4 & Ht4 & Hnew4).
      exists new4. split; [|done].
      by destruct (scan index dir zero (entities qs) w3) as [[c|] w4]. }
    rewrite (new_events_app _ _ (((new1 ++ new2) ++ new3) ++ new4)).
    + repeat (apply Forall_app; split); done.
    + by rewrite Ht4, Ht3, Ht2, Ht1, <- !app_assoc.
Qed.

Lemma do_pass_writes_inside_witness :
  Forall (inside "/data/logos") (new_events _do_pass sample_world).
Proof.
  apply (do_pass_writes_inside sample_world).
  intros idx Hidx.
  assert (fst (build_index (logos_dir_of sample_world) sample_world)
          = Ok (of_index {[ "espn" := "Sports/ESPN.png"; "cnn" := "News/CNN.svg" ]}))
    as E by by vm_compute.
  rewrite E in Hidx. injection Hidx as <-.
  apply (built_index_image
           [ node "blob" "Sports/ESPN.png"; node "tree" "Sports";
             node "blob" "Other/espn.JPG"; node "blob" "News/CNN.svg";
             node "blob" "README.md" ]).
  by vm_compute.
Defined.
